(** * ax.lzw: a shallow embedding of [lzw.hpp] and its verification

    The header implements an LZW codec parameterised by two symbol
    dictionaries ([IODict] for the input alphabet, [PackDict] for the packed
    representation).  This file embeds

    - [symbol_range], [piecewise_range], [symbol_by_index], [index_of_symbol];
    - [log2_floor], [log2_ceil];
    - [lzw_codec::pack_bits], [lzw_codec::unpack_bits];
    - [lzw_codec::encode], [lzw_codec::decode];

    and proves properties of them.

    Modelling conventions.
    - [size_t] is the 64-bit unsigned type: a [Z] in [0, 2^64), every
      arithmetic operation that can wrap written with its wrap-around
      ([wadd], [wsub], [wmul]).
    - A symbol ([CharT] value) is the [Z] it denotes.
    - A C++ exception is an [exception]; undefined behaviour (a shift by 64 or
      more, a division by zero, [operator[]] out of range) is the outcome
      [Undefined]; loops that are not structurally recursive take fuel and
      give [OutOfFuel] when it is exhausted.
    - An output iterator is the list of the values written through it, kept
      next to the outcome of the call ([writer]).
    - A vector is a list, of any length: the free store has room for what
      the code stores ([push_back] and [emplace] do not fail).  With
      [reserve] the code can ask for more than that; such a request fails as
      it does with libstdc++ on a 64-bit platform ([reserve] below). *)

From Stdlib Require Import ZArith Lia List String.
From stdpp Require Import base option list gmap.

Local Open Scope Z_scope.

(** ** Outcomes of a call *)

(** [std::out_of_range] and [std::length_error] derive from
    [std::logic_error]. *)
Inductive exception : Type :=
| out_of_range (what : string)
| logic_error (what : string)
| length_error (what : string)
| bad_alloc.

Inductive outcome (A : Type) : Type :=
| Ok (a : A)
| Throw (e : exception)
| Undefined
| OutOfFuel.
Arguments Ok {A} a.
Arguments Throw {A} e.
Arguments Undefined {A}.
Arguments OutOfFuel {A}.

Definition obind {A B} (m : outcome A) (f : A -> outcome B) : outcome B :=
  match m with
  | Ok a => f a
  | Throw e => Throw e
  | Undefined => Undefined
  | OutOfFuel => OutOfFuel
  end.

Notation "x <-- m ; k" := (obind m (fun x => k))
  (at level 20, m at level 100, k at level 200, right associativity).
Notation "' p <-- m ; k" := (obind m (fun x => let 'p := x in k))
  (at level 20, p pattern, m at level 100, k at level 200, right associativity).

(** Values written through an output iterator, with the outcome of the call. *)
Definition writer (O A : Type) : Type := (list O * outcome A)%type.

Definition wret {O A} (a : A) : writer O A := ([], Ok a).

Definition wbind {O A B} (m : writer O A) (f : A -> writer O B) : writer O B :=
  match m with
  | (w, Ok a) => let (w', r) := f a in (w ++ w', r)
  | (w, Throw e) => (w, Throw e)
  | (w, Undefined) => (w, Undefined)
  | (w, OutOfFuel) => (w, OutOfFuel)
  end.

(** [*d_first++ = x] *)
Definition put {O} (x : O) : writer O unit := ([x], Ok tt).

(** A computation that writes nothing. *)
Definition lift {O A} (m : outcome A) : writer O A := ([], m).

Definition throw {O A} (e : exception) : writer O A := ([], Throw e).

Notation "x <~~ m ; k" := (wbind m (fun x => k))
  (at level 20, m at level 100, k at level 200, right associativity).
Notation "' p <~~ m ; k" := (wbind m (fun x => let 'p := x in k))
  (at level 20, p pattern, m at level 100, k at level 200, right associativity).

(** ** [size_t] *)

(** [CHAR_BIT * sizeof(size_t)] *)
Definition size_bits : Z := 64.

Definition size_mod : Z := 2 ^ size_bits.

Definition wadd (a b : Z) : Z := (a + b) mod size_mod.
Definition wsub (a b : Z) : Z := (a - b) mod size_mod.
Definition wmul (a b : Z) : Z := (a * b) mod size_mod.

(** [a << n] on [size_t]; shifting by the width or more is undefined. *)
Definition shl (a n : Z) : outcome Z :=
  if n <? size_bits then Ok (Z.shiftl a n mod size_mod) else Undefined.

(** [a >> n] on [size_t]. *)
Definition shr (a n : Z) : outcome Z :=
  if n <? size_bits then Ok (Z.shiftr a n) else Undefined.

(** [a / b] on [size_t]. *)
Definition udiv (a b : Z) : outcome Z :=
  if b =? 0 then Undefined else Ok (a / b).

(** [v.size()] *)
Definition vsize {A} (v : list A) : Z := Z.of_nat (length v).

(** [v[i]]: no bounds check in the source. *)
Definition vec_at {A} (v : list A) (i : Z) : outcome A :=
  match v !! Z.to_nat i with
  | Some x => Ok x
  | None => Undefined
  end.

(** ** [log2_floor], [log2_ceil] *)

(** [x == 1 ? 0 : 1 + log2_floor(x/2)].  The recursion of the source does not
    stop for [x = 0] (its precondition is [x > 0]); for every other [size_t]
    value 64 unfoldings are enough. *)
Fixpoint log2_floor_fuel (fuel : nat) (x : Z) : outcome Z :=
  if x =? 1 then Ok 0 else
  match fuel with
  | O => OutOfFuel
  | S fuel => r <-- log2_floor_fuel fuel (x / 2) ; Ok (wadd 1 r)
  end.

Definition log2_floor (x : Z) : outcome Z := log2_floor_fuel 64 x.

(** [x <= 1 ? 1 : log2_floor(x - 1) + 1] *)
Definition log2_ceil (x : Z) : outcome Z :=
  if x <=? 1 then Ok 1 else r <-- log2_floor (wsub x 1) ; Ok (wadd r 1).

(** ** Symbol dictionaries *)

(** [symbol_range<CharT, Lower, Upper>] *)
Record symbol_range : Type := SymbolRange { lower : Z; upper : Z }.

(** [Upper - Lower + 1ULL] *)
Definition range_length (r : symbol_range) : Z :=
  wadd (wsub (upper r) (lower r)) 1.

(** [piecewise_range<RH>] and [piecewise_range<RH, RT...>] *)
Inductive piecewise_range : Type :=
| PR_one (rh : symbol_range)
| PR_cons (rh : symbol_range) (rt : piecewise_range).

Fixpoint dict_length (d : piecewise_range) : Z :=
  match d with
  | PR_one rh => range_length rh
  | PR_cons rh rt => wadd (range_length rh) (dict_length rt)
  end.

(** The sum [RH::lower + idx] is taken for [idx < length] only, where it is at
    most [RH::upper] and converts back to [CharT] unchanged. *)
Fixpoint symbol_by_index (d : piecewise_range) (idx : Z) : outcome Z :=
  match d with
  | PR_one rh =>
      if idx <? range_length rh then Ok (lower rh + idx)
      else Throw (out_of_range "symbol_by_index: out of range")
  | PR_cons rh rt =>
      if idx <? range_length rh then Ok (lower rh + idx)
      else symbol_by_index rt (wsub idx (range_length rh))
  end.

Fixpoint index_of_symbol (d : piecewise_range) (c : Z) : outcome Z :=
  match d with
  | PR_one rh =>
      if (lower rh <=? c) && (c <=? upper rh) then Ok (c - lower rh)
      else Throw (out_of_range "index_of_symbol: out of range")
  | PR_cons rh rt =>
      if (lower rh <=? c) && (c <=? upper rh) then Ok (c - lower rh)
      else r <-- index_of_symbol rt c ; Ok (wadd (range_length rh) r)
  end.


(** ** Containers of the codec *)

(** [codes_vec], [phrase_template], [encode_dict_template] and
    [decode_dict_template]. *)
Abbreviation codes_vec := (list Z).
Abbreviation phrase_t := (list Z).
Abbreviation encode_dict_t := (gmap (list Z) Z).
Abbreviation decode_dict_t := (list (list Z)).

(** [dict.emplace(k, v)]: inserts when the key is absent; the boolean is the
    [.second] of the result. *)
Definition map_emplace (dict : encode_dict_t) (k : phrase_t) (v : Z)
  : encode_dict_t * bool :=
  match dict !! k with
  | Some _ => (dict, false)
  | None => (<[k := v]> dict, true)
  end.

(** [dict.at(k)] *)
Definition map_at (dict : encode_dict_t) (k : phrase_t) : outcome Z :=
  match dict !! k with
  | Some v => Ok v
  | None => Throw (out_of_range "map::at")
  end.

(** [dict.size()] *)
Definition map_size (dict : encode_dict_t) : Z := Z.of_nat (size dict).

(** [std::copy(v.begin(), v.end(), d_first)] *)
Definition copy {O} (v : list O) : writer O unit := (v, Ok tt).

(** [max_size()] of a [std::vector<size_t>], as libstdc++ defines it for a
    64-bit [size_t]: [PTRDIFF_MAX / sizeof(size_t)]. *)
Definition max_size : Z := Eval cbv in (2 ^ 63 - 1) / 8.

(** [v.reserve(n)] when the free store has room for [room] elements, which
    the caller gives as a bound on what it goes on to store in [v]: a
    request within [room] succeeds, like the [push_back]s that follow.  A
    request beyond it fails: with [std::length_error] beyond [max_size()],
    and below it where the allocation fails, with [std::bad_alloc]. *)
Definition reserve (room n : Z) : outcome unit :=
  if n <=? room then Ok tt
  else if max_size <? n then Throw (length_error "vector::reserve")
  else Throw bad_alloc.

(** ** [lzw_codec<IODict, PackDict>] *)

Section lzw_codec.

Variables IODict PackDict : piecewise_range.

(** [log2_floor(PackDict::length)] *)
Definition bit_capacity : outcome Z := log2_floor (dict_length PackDict).

(** The two [static_assert]s of the class. *)
Definition static_asserts : bool :=
  match bit_capacity, log2_ceil (dict_length IODict) with
  | Ok cap, Ok l => (cap <=? size_bits) && (l <=? dict_length PackDict)
  | _, _ => false
  end.

Fixpoint encode_dict_loop (n : nat) (code : Z) (dict : encode_dict_t)
  : outcome encode_dict_t :=
  match n with
  | O => Ok dict
  | S n =>
      s <-- symbol_by_index IODict code ;
      encode_dict_loop n (wadd code 1) (fst (map_emplace dict [s] code))
  end.

Definition encode_dict : outcome encode_dict_t :=
  encode_dict_loop (Z.to_nat (dict_length IODict)) 0 ∅.

Fixpoint decode_dict_loop (n : nat) (code : Z) (dict : decode_dict_t)
  : outcome decode_dict_t :=
  match n with
  | O => Ok dict
  | S n =>
      s <-- symbol_by_index IODict code ;
      decode_dict_loop n (wadd code 1) (dict ++ [[s]])
  end.

Definition decode_dict : outcome decode_dict_t :=
  decode_dict_loop (Z.to_nat (dict_length IODict)) 0 [].

(** *** [pack_bits] *)

(** The cycle over the bits of one code (lines 196-217); the result is
    [(symbol_done, symbol_acc)]. *)
Fixpoint pack_code (fuel : nat) (cap bit_depth code : Z)
    (code_done symbol_done symbol_acc : Z) : writer Z (Z * Z) :=
  if negb (code_done <? bit_depth) then wret (symbol_done, symbol_acc) else
  match fuel with
  | O => lift OutOfFuel
  | S fuel =>
      let symbol_left := wsub cap symbol_done in
      let code_left := wsub bit_depth code_done in
      let bits_to_write := Z.min symbol_left code_left in
      mask <~~ lift (shr code code_done) ;
      ones <~~ lift (shl 1 bits_to_write) ;
      let mask := Z.land mask (wsub ones 1) in
      mask <~~ lift (shl mask symbol_done) ;
      let symbol_acc := Z.lor symbol_acc mask in
      let code_done := wadd code_done bits_to_write in
      let symbol_done := wadd symbol_done bits_to_write in
      if symbol_done =? cap then
        s <~~ lift (symbol_by_index PackDict symbol_acc) ;
        _ <~~ put s ;
        pack_code fuel cap bit_depth code code_done 0 0
      else
        pack_code fuel cap bit_depth code code_done symbol_done symbol_acc
  end.

(** The cycle over codes (lines 193-218). *)
Fixpoint pack_codes (cap bit_depth : Z) (src : codes_vec)
    (symbol_done symbol_acc : Z) : writer Z (Z * Z) :=
  match src with
  | [] => wret (symbol_done, symbol_acc)
  | code :: src =>
      '(symbol_done, symbol_acc) <~~
        pack_code (Z.to_nat bit_depth) cap bit_depth code 0 symbol_done symbol_acc ;
      pack_codes cap bit_depth src symbol_done symbol_acc
  end.

Definition pack_bits (src : codes_vec) (bit_depth : Z) : writer Z unit :=
  cap <~~ lift bit_capacity ;
  let bits_needed := wmul bit_depth (vsize src) in
  q <~~ lift (udiv (wsub bits_needed 1) cap) ;
  let output_symbols := wadd q 1 in
  let dead_bits := wsub (wmul output_symbols cap) bits_needed in
  s <~~ lift (symbol_by_index PackDict bit_depth) ;
  _ <~~ put s ;
  s <~~ lift (symbol_by_index PackDict dead_bits) ;
  _ <~~ put s ;
  '(symbol_done, symbol_acc) <~~ pack_codes cap bit_depth src 0 0 ;
  if negb (symbol_done =? 0) then
    s <~~ lift (symbol_by_index PackDict symbol_acc) ;
    put s
  else wret tt.

(** *** [unpack_bits] *)

(** The variables the two cycles of [unpack_bits] share. *)
Record unpack_state : Type := UnpackState {
  u_first : list Z;      (* the unread range [first, last) *)
  u_chunk : Z;
  u_symbol_done : Z;
  u_done : bool
}.

(** The cycle over the bits of one code (lines 257-286); the result is the
    shared state with [(code_acc, code_done)]. *)
Fixpoint unpack_code (fuel : nat) (cap bit_depth dead_bits : Z)
    (first : list Z) (chunk symbol_done code_acc code_done : Z)
  : outcome (unpack_state * Z * Z) :=
  if negb (code_done <? bit_depth)
  then Ok (UnpackState first chunk symbol_done false, code_acc, code_done) else
  match fuel with
  | O => OutOfFuel
  | S fuel =>
      let symbol_left := wsub cap symbol_done in
      let code_left := wsub bit_depth code_done in
      if (symbol_left =? dead_bits) && (code_done =? 0) && bool_decide (first = [])
      then Ok (UnpackState first chunk symbol_done true, code_acc, code_done) else
      let bits_to_read := Z.min symbol_left code_left in
      data <-- shr chunk symbol_done ;
      ones <-- shl 1 bits_to_read ;
      let data := Z.land data (wsub ones 1) in
      data <-- shl data code_done ;
      let code_acc := Z.lor code_acc data in
      let code_done := wadd code_done bits_to_read in
      let symbol_done := wadd symbol_done bits_to_read in
      if symbol_done =? cap then
        match first with
        | [] => Ok (UnpackState first chunk symbol_done true, code_acc, code_done)
        | s :: first =>
            chunk <-- index_of_symbol PackDict s ;
            unpack_code fuel cap bit_depth dead_bits first chunk 0 code_acc code_done
        end
      else
        unpack_code fuel cap bit_depth dead_bits first chunk symbol_done
          code_acc code_done
  end.

(** The cycle over codes (lines 252-292). *)
Fixpoint unpack_codes (fuel : nat) (cap bit_depth dead_bits : Z)
    (first : list Z) (chunk symbol_done : Z) (dst : codes_vec)
  : outcome codes_vec :=
  match fuel with
  | O => OutOfFuel
  | S fuel' =>
      '(st, code_acc, code_done) <--
        unpack_code fuel cap bit_depth dead_bits first chunk symbol_done 0 0 ;
      let dst := if 0 <? code_done then dst ++ [code_acc] else dst in
      if u_done st then Ok dst
      else unpack_codes fuel' cap bit_depth dead_bits
             (u_first st) (u_chunk st) (u_symbol_done st) dst
  end.

(** Every pass of either cycle reads a bit, loads a symbol or stops. *)
Definition unpack_fuel (cap bit_depth input_length : Z) : nat :=
  Z.to_nat (bit_depth + (cap + 1) * (input_length + 1)).

(** [dst] is the vector the codes are stored into.  [input_length] is
    [distance_advice(first, last)] for a multi-pass range.  Every code stored
    holds at least one bit of the payload, so that [dst] ends with at most
    [bit_capacity*input_length] codes.  [reserve] is given one more as its
    room, which the request [out_length + 1] exceeds only after the
    subtraction [payload_bits - dead_bits] has wrapped around; the request
    is then for more than [2^57] elements, as long as [PackDict] has no
    more than [2^57] symbols. *)
Definition unpack_bits (src : list Z) (dst : codes_vec) : outcome codes_vec :=
  match src with
  | [] => Ok dst
  | s0 :: first =>
      cap <-- bit_capacity ;
      bit_depth <-- index_of_symbol PackDict s0 ;
      match first with
      | [] => Throw (logic_error "lzw_codec: bad data 1")
      | s1 :: first =>
          dead_bits <-- index_of_symbol PackDict s1 ;
          match first with
          | [] => Throw (logic_error "lzw_codec: bad data 2")
          | s2 :: rest =>
              let input_length := vsize first in
              let payload_bits := wmul cap input_length in
              out_length <-- udiv (wsub payload_bits dead_bits) bit_depth ;
              _ <-- reserve (cap * input_length + 1) (wadd out_length 1) ;
              chunk <-- index_of_symbol PackDict s2 ;
              unpack_codes (unpack_fuel cap bit_depth input_length)
                cap bit_depth dead_bits rest chunk 0 []
          end
      end
  end.

(** *** [encode] *)

(** The lambda [emplace_code]; the result is [(max_code, codes)]. *)
Definition emplace_code (dict : encode_dict_t) (phrase : phrase_t)
    (max_code : Z) (codes : codes_vec) : outcome (Z * codes_vec) :=
  code <-- map_at dict phrase ;
  Ok (Z.max max_code code, codes ++ [code]).

(** The cycle over the input (lines 323-339) and the last step (line 342). *)
Fixpoint encode_loop (first : list Z) (dict : encode_dict_t) (next_code : Z)
    (phrase : phrase_t) (max_code : Z) (codes : codes_vec)
  : outcome (Z * codes_vec) :=
  match first with
  | [] => emplace_code dict phrase max_code codes
  | curr_symbol :: first =>
      let tmp := phrase ++ [curr_symbol] in
      let (dict, inserted) := map_emplace dict tmp next_code in
      if negb inserted then
        encode_loop first dict next_code tmp max_code codes
      else
        let next_code := wadd next_code 1 in
        '(max_code, codes) <-- emplace_code dict phrase max_code codes ;
        encode_loop first dict next_code [curr_symbol] max_code codes
  end.

(** Lines 304-345: the codes of the input and the bit depth chosen for them
    ([codes.reserve(size*3/2)] asks for room in proportion to the input,
    which the free store has, and is not modelled). *)
Definition encode_codes (s : Z) (first : list Z) : outcome (codes_vec * Z) :=
  dict <-- encode_dict ;
  let next_code := map_size dict in
  let max_code := wsub next_code 1 in
  '(max_code, codes) <-- encode_loop first dict next_code [s] max_code [] ;
  bit_depth <-- log2_ceil (wadd max_code 1) ;
  Ok (codes, bit_depth).

Definition encode (src : list Z) : writer Z unit :=
  match src with
  | [] => wret tt
  | s :: first =>
      '(codes, bit_depth) <~~ lift (encode_codes s first) ;
      if size_bits <? bit_depth
      then throw (logic_error "lzw_codec: bit_depth > log2(size_t)") else
      if dict_length PackDict <=? bit_depth
      then throw (logic_error "lzw_codec: bit_depth > PackDict::length") else
      pack_bits codes bit_depth
  end.

(** *** [decode] *)

(** The cycle over [codes[1..]] (lines 379-395). *)
Fixpoint decode_loop (codes : codes_vec) (rdict : decode_dict_t) (old : Z)
  : writer Z unit :=
  match codes with
  | [] => wret tt
  | code :: codes =>
      tmp <~~ lift (vec_at rdict old) ;
      if code <? vsize rdict then
        entry <~~ lift (vec_at rdict code) ;
        e0 <~~ lift (vec_at entry 0) ;
        _ <~~ copy entry ;
        decode_loop codes (rdict ++ [tmp ++ [e0]]) code
      else
        t0 <~~ lift (vec_at tmp 0) ;
        let tmp := tmp ++ [t0] in
        _ <~~ copy tmp ;
        decode_loop codes (rdict ++ [tmp]) code
  end.

(** Lines 371-397: the phrases of the unpacked codes. *)
Definition decode_codes (codes : codes_vec) : writer Z unit :=
  rdict <~~ lift decode_dict ;
  code <~~ lift (vec_at codes 0) ;
  tmp <~~ lift (vec_at rdict code) ;
  _ <~~ copy tmp ;
  decode_loop (tail codes) rdict code.

Definition decode (src : list Z) : writer Z unit :=
  match src with
  | [] => wret tt
  | _ :: _ =>
      codes <~~ lift (unpack_bits src []) ;
      decode_codes codes
  end.

End lzw_codec.

(** ** Predefined dictionaries and codecs *)

Module dictionaries.

Definition BINARY_256_common : piecewise_range :=
  PR_one (SymbolRange 0 255).

Definition ASCII_128_common : piecewise_range :=
  PR_one (SymbolRange 0 127).

Definition UTF16_pack : piecewise_range :=
  PR_cons (SymbolRange 0x0020 0xD7FF) (PR_one (SymbolRange 0xE000 0xFFFF)).

(** ['0'..'9'], ['A'..'Z'], ['a'..'z'] *)
Definition URI_pack : piecewise_range :=
  PR_cons (SymbolRange 48 57)
    (PR_cons (SymbolRange 65 90) (PR_one (SymbolRange 97 122))).

End dictionaries.

Module codecs.

(** A codec class: [Input_dictionary] and [Pack_dictionary]. *)
Record codec : Type := Codec {
  Input_dictionary : piecewise_range;
  Pack_dictionary : piecewise_range
}.

Definition string_to_string : codec :=
  Codec dictionaries.ASCII_128_common dictionaries.ASCII_128_common.

Definition binary_to_binary : codec :=
  Codec dictionaries.BINARY_256_common dictionaries.BINARY_256_common.

Definition string_to_UTF16 : codec :=
  Codec dictionaries.ASCII_128_common dictionaries.UTF16_pack.

Definition string_to_URI : codec :=
  Codec dictionaries.ASCII_128_common dictionaries.URI_pack.

Definition predefined : list codec :=
  [string_to_string; binary_to_binary; string_to_UTF16; string_to_URI].

End codecs.

(** ** Well-formed dictionaries *)

(** [static_assert(Lower <= Upper)] *)
Definition range_ok (r : symbol_range) : bool := lower r <=? upper r.

Definition ranges_disjoint (r1 r2 : symbol_range) : bool :=
  (upper r1 <? lower r2) || (upper r2 <? lower r1).

Fixpoint disjoint_from (r : symbol_range) (d : piecewise_range) : bool :=
  match d with
  | PR_one rh => ranges_disjoint r rh
  | PR_cons rh rt => ranges_disjoint r rh && disjoint_from r rt
  end.

(** The number of symbols, before any wrap-around. *)
Fixpoint symbol_count (d : piecewise_range) : Z :=
  match d with
  | PR_one rh => upper rh - lower rh + 1
  | PR_cons rh rt => (upper rh - lower rh + 1) + symbol_count rt
  end.

Fixpoint ranges_ok (d : piecewise_range) : bool :=
  match d with
  | PR_one rh => range_ok rh
  | PR_cons rh rt => range_ok rh && disjoint_from rh rt && ranges_ok rt
  end.

(** A dictionary of non-empty, pairwise disjoint ranges whose size is a
    [size_t] value. *)
Definition wf_dict (d : piecewise_range) : bool :=
  ranges_ok d && (symbol_count d <? size_mod).

(** ** Error kinds *)

(** The exceptions by which [unpack_bits] rejects a stream: the two
    [std::logic_error]s it throws itself and the [std::out_of_range] of
    [PackDict::index_of_symbol]. *)
Definition malformed_stream (e : exception) : bool :=
  match e with
  | logic_error what =>
      bool_decide (what = "lzw_codec: bad data 1"%string)
      || bool_decide (what = "lzw_codec: bad data 2"%string)
  | out_of_range what =>
      bool_decide (what = "index_of_symbol: out of range"%string)
  | length_error _ | bad_alloc => false
  end.

(** The two [std::logic_error]s [encode] throws after the pass over the
    input. *)
Definition capacity_exceeded (e : exception) : bool :=
  match e with
  | logic_error what =>
      bool_decide (what = "lzw_codec: bit_depth > log2(size_t)"%string)
      || bool_decide (what = "lzw_codec: bit_depth > PackDict::length"%string)
  | out_of_range _ | length_error _ | bad_alloc => false
  end.

(** ** Bit streams *)

(** The symbol of index [i], for indices of the dictionary. *)
Definition symbol_at (d : piecewise_range) (i : Z) : Z :=
  match symbol_by_index d i with
  | Ok s => s
  | _ => 0
  end.

(** The number whose base-[2^w] digits, least significant first, are the low
    [w] bits of the elements of [l]: the bit stream that [l] spells when each
    element carries [w] bits. *)
Fixpoint digits_val (w : Z) (l : list Z) : Z :=
  match l with
  | [] => 0
  | d :: l => d mod 2 ^ w + 2 ^ w * digits_val w l
  end.

(** The bit stream [unpack_bits] has still to read when it holds [chunk], of
    which [symbol_done] bits are read, and the symbols of indices [rest] are
    unread: its value and its length in bits. *)
Definition stream_val (cap chunk symbol_done : Z) (rest : list Z) : Z :=
  chunk mod 2 ^ cap / 2 ^ symbol_done
  + 2 ^ (cap - symbol_done) * digits_val cap rest.

Definition stream_len (cap symbol_done : Z) (rest : list Z) : Z :=
  cap - symbol_done + cap * Z.of_nat (length rest).

(** The codes of [bit_depth] bits in a stream of [len] bits of value [v], cut
    the way the cycles of [unpack_bits] cut it: the stream ends at a code
    boundary inside the last symbol when exactly [dead_bits] bits are left;
    otherwise at its last bit, and what was read of the code then is a code
    of the result. *)
Fixpoint stream_codes (fuel : nat) (cap bit_depth dead_bits v len : Z)
  : codes_vec :=
  match fuel with
  | O => []
  | S fuel =>
      if (len =? dead_bits) && (len <=? cap) then []
      else if len <=? bit_depth then [v]
      else v mod 2 ^ bit_depth ::
           stream_codes fuel cap bit_depth dead_bits
             (v / 2 ^ bit_depth) (len - bit_depth)
  end.

(** Symbols of the pack alphabet [R], with their indices [I]. *)
Definition indexed (PackDict : piecewise_range) (R I : list Z) : Prop :=
  Forall2 (fun s i => index_of_symbol PackDict s = Ok i) R I.

(** ** Phrase dictionaries *)

(** The entries of the base encoding dictionary below code [k]. *)
Definition base_upto (IODict : piecewise_range) (k : Z) (E : encode_dict_t)
  : Prop :=
  map_size E = k /\
  forall p c, E !! p = Some c <-> 0 <= c < k /\ p = [symbol_at IODict c].

(** The base decoding dictionary. *)
Definition base_rdict (IODict : piecewise_range) : decode_dict_t :=
  (fun c => [symbol_at IODict c]) <$> seqZ 0 (dict_length IODict).

(** The largest of a sequence of codes. *)
Definition max_code_of (codes : codes_vec) : Z := foldr Z.max 0 codes.

(** How the dictionaries of [encode] and [decode] are related when [encode]
    has emitted some codes and holds a phrase that starts with [h], and
    [decode] has read these codes, the last one being [old], of phrase [q]:
    [decode] lags by the entry [q ++ [h]], which has the code [next - 1]. *)
Record lzw_inv (IODict : piecewise_range) (E : encode_dict_t) (next : Z)
    (R : decode_dict_t) (old : Z) (q : phrase_t) (h : Z) : Prop := {
  inv_next : vsize R = next - 1;
  inv_known : forall (c : nat) p,
    R !! c = Some p -> p <> [] /\ E !! p = Some (Z.of_nat c);
  inv_old : 0 <= old /\ R !! Z.to_nat old = Some q;
  inv_pending : E !! (q ++ [h]) = Some (next - 1);
  inv_dom : forall p c,
    E !! p = Some c ->
    (0 <= c /\ R !! Z.to_nat c = Some p) \/ (c = next - 1 /\ p = q ++ [h]);
  inv_base : forall s i, index_of_symbol IODict s = Ok i -> E !! [s] = Some i
}.

(** ** Inputs *)

(** A symbol of the dictionary [d]. *)
Definition member (d : piecewise_range) (s : Z) : Prop :=
  exists i, index_of_symbol d s = Ok i.

(** An input over the alphabet [IODict] short enough for the [size_t]
    counters of [encode] (the next code, the number of bits to pack) not to
    wrap around. *)
Definition encodable (IODict : piecewise_range) (src : list Z) : Prop :=
  Forall (member IODict) src /\
  dict_length IODict + size_bits * vsize src < size_mod.

(** [c] lies in one of the ranges of [d]. *)
Fixpoint covers (d : piecewise_range) (c : Z) : bool :=
  match d with
  | PR_one rh => (lower rh <=? c) && (c <=? upper rh)
  | PR_cons rh rt => (lower rh <=? c) && (c <=? upper rh) || covers rt c
  end.

(** Codes that [decode] can follow: each of them is at most the next code to
    be assigned when it is read, which is [next] for the first of them. *)
Fixpoint codes_within (next : Z) (codes : codes_vec) : bool :=
  match codes with
  | [] => true
  | code :: codes =>
      (0 <=? code) && (code <=? next) && codes_within (next + 1) codes
  end.

(** * Properties *)

(** ** [log2_floor] and [log2_ceil] *)

Lemma size_mod_eq : size_mod = 2 ^ 64.
Proof. reflexivity. Qed.

Lemma wadd_small a b : 0 <= a + b < size_mod -> wadd a b = a + b.
Proof. intros H. unfold wadd. by apply Z.mod_small. Qed.

Lemma wsub_small a b : 0 <= a - b < size_mod -> wsub a b = a - b.
Proof. intros H. unfold wsub. by apply Z.mod_small. Qed.

Lemma wmul_small a b : 0 <= a * b < size_mod -> wmul a b = a * b.
Proof. intros H. unfold wmul. by apply Z.mod_small. Qed.

Lemma log2_floor_fuel_spec fuel x :
  (fuel <= 64)%nat -> 0 < x < 2 ^ Z.of_nat fuel ->
  log2_floor_fuel fuel x = Ok (Z.log2 x).
Proof.
  revert x. induction fuel as [|fuel IH]; intros x Hf Hx.
  - assert (x = 1) as -> by (simpl in Hx; lia). reflexivity.
  - cbn [log2_floor_fuel]. destruct (Z.eqb_spec x 1) as [->|Hne]; [reflexivity|].
    assert (Hpow : 2 ^ Z.of_nat (S fuel) = 2 * 2 ^ Z.of_nat fuel).
    { rewrite Nat2Z.inj_succ, Z.pow_succ_r by lia. reflexivity. }
    assert (Hdiv : 0 < x / 2 < 2 ^ Z.of_nat fuel).
    { split; [apply Z.div_str_pos; lia|apply Z.div_lt_upper_bound; lia]. }
    rewrite (IH _ ltac:(lia) Hdiv). cbn [obind].
    assert (Hlog : Z.log2 x = 1 + Z.log2 (x / 2)).
    { rewrite <- Z.div2_div, Z.div2_spec, Z.log2_shiftr by lia.
      assert (1 <= Z.log2 x) by (apply Z.log2_le_pow2; lia). lia. }
    assert (Z.log2 (x / 2) < Z.of_nat fuel) by (apply Z.log2_lt_pow2; lia).
    assert (0 <= Z.log2 (x / 2)) by apply Z.log2_nonneg.
    rewrite wadd_small by (rewrite size_mod_eq; lia). by rewrite Hlog.
Qed.

Lemma log2_floor_spec x : 0 < x < size_mod -> log2_floor x = Ok (Z.log2 x).
Proof. intros Hx. apply log2_floor_fuel_spec; [lia|exact Hx]. Qed.

Lemma log2_ceil_spec x :
  1 < x < size_mod -> log2_ceil x = Ok (Z.log2 (x - 1) + 1).
Proof.
  intros Hx. unfold log2_ceil. destruct (Z.leb_spec x 1); [lia|].
  rewrite wsub_small by lia. rewrite log2_floor_spec by lia. cbn [obind].
  assert (0 <= Z.log2 (x - 1)) by apply Z.log2_nonneg.
  assert (Z.log2 (x - 1) < 64) by (apply Z.log2_lt_pow2; rewrite <- ?size_mod_eq; lia).
  rewrite wadd_small by (rewrite size_mod_eq; lia). reflexivity.
Qed.

(** C9: the rounding contract of [log2_ceil]: [log2_ceil(1) == 1],
    [log2_ceil(2^k) == k] for [k >= 1], and [log2_ceil(2^k + 1) == k + 1] for
    [k >= 0], whenever the argument is a [size_t] value. *)
Theorem log2_ceil_rounding_contract (k : Z) :
  0 <= k -> 2 ^ k + 1 < size_mod ->
  log2_ceil 1 = Ok 1 /\
  (1 <= k -> log2_ceil (2 ^ k) = Ok k) /\
  log2_ceil (2 ^ k + 1) = Ok (k + 1).
Proof.
  intros Hk Hr. split; [reflexivity|].
  assert (0 < 2 ^ k) by (apply Z.pow_pos_nonneg; lia).
  split.
  - intros H1. assert (2 <= 2 ^ k) by (change 2 with (2 ^ 1) at 1; apply Z.pow_le_mono_r; lia).
    rewrite log2_ceil_spec by lia.
    change (2 ^ k - 1) with (Z.pred (2 ^ k)). rewrite Z.log2_pred_pow2 by lia.
    f_equal. lia.
  - rewrite log2_ceil_spec by lia.
    replace (2 ^ k + 1 - 1) with (2 ^ k) by lia. by rewrite Z.log2_pow2.
Qed.

Lemma log2_ceil_rounding_contract_witness :
  log2_ceil 1 = Ok 1 /\ log2_ceil (2 ^ 5) = Ok 5 /\ log2_ceil (2 ^ 5 + 1) = Ok (5 + 1).
Proof.
  destruct (log2_ceil_rounding_contract 5) as (H1 & H2 & H3);
    [lia|reflexivity|].
  split; [exact H1|]. split; [apply H2; lia|exact H3].
Defined.

(** ** Symbol dictionaries *)

Lemma range_length_ok r :
  range_ok r = true -> upper r - lower r + 1 < size_mod ->
  range_length r = upper r - lower r + 1.
Proof.
  unfold range_ok, range_length. intros Hr%Z.leb_le Hlt.
  rewrite (wsub_small (upper r)) by lia. apply wadd_small. lia.
Qed.

Lemma ranges_ok_head d :
  ranges_ok d = true ->
  match d with
  | PR_one rh => range_ok rh = true
  | PR_cons rh rt => range_ok rh = true /\ disjoint_from rh rt = true /\ ranges_ok rt = true
  end.
Proof. destruct d; cbn; [done|]. rewrite !andb_true_iff. tauto. Qed.

Lemma symbol_count_pos d : ranges_ok d = true -> 1 <= symbol_count d.
Proof.
  induction d as [rh|rh rt IH]; intros H%ranges_ok_head; cbn.
  - apply Z.leb_le in H. lia.
  - destruct H as (H1%Z.leb_le & _ & H3). specialize (IH H3). lia.
Qed.

Lemma dict_length_ok d :
  ranges_ok d = true -> symbol_count d < size_mod ->
  dict_length d = symbol_count d.
Proof.
  induction d as [rh|rh rt IH]; intros H Hlt; pose proof (ranges_ok_head _ H) as H'; cbn in *.
  - by apply range_length_ok.
  - destruct H' as (H1 & _ & H3). pose proof (symbol_count_pos _ H3).
    pose proof H1 as H1'%Z.leb_le.
    rewrite range_length_ok, IH by (done || lia). apply wadd_small. lia.
Qed.

Lemma wf_dict_length d :
  wf_dict d = true -> 1 <= dict_length d < size_mod.
Proof.
  unfold wf_dict. intros (H1 & H2%Z.ltb_lt)%andb_true_iff.
  rewrite dict_length_ok by done. split; [by apply symbol_count_pos|done].
Qed.

(** A symbol taken from [d] lies outside every range disjoint from [d]. *)
Lemma symbol_by_index_disjoint r d i s :
  range_ok r = true -> ranges_ok d = true -> symbol_count d < size_mod ->
  disjoint_from r d = true -> 0 <= i ->
  symbol_by_index d i = Ok s -> s < lower r \/ upper r < s.
Proof.
  intros Hr. revert i. induction d as [rh|rh rt IH]; intros i Hd Hlt Hdis Hi Hs;
    pose proof (ranges_ok_head _ Hd) as H'; cbn in *.
  - rewrite range_length_ok in Hs by done.
    destruct (Z.ltb_spec i (upper rh - lower rh + 1)); [|done].
    injection Hs as <-. unfold ranges_disjoint in Hdis.
    apply orb_true_iff in Hdis as [?%Z.ltb_lt|?%Z.ltb_lt]; lia.
  - destruct H' as (H1 & H2 & H3). pose proof (symbol_count_pos _ H3).
    pose proof H1 as H1'%Z.leb_le.
    apply andb_true_iff in Hdis as [Hdis1 Hdis2].
    rewrite range_length_ok in Hs by (done || lia).
    destruct (Z.ltb_spec i (upper rh - lower rh + 1)).
    + injection Hs as <-. unfold ranges_disjoint in Hdis1.
      apply orb_true_iff in Hdis1 as [?%Z.ltb_lt|?%Z.ltb_lt]; lia.
    + destruct (Z_lt_le_dec i size_mod).
      * rewrite wsub_small in Hs by lia. eapply IH; [done|lia|done| |done]. lia.
      * eapply (IH (wsub i (upper rh - lower rh + 1))); [done|lia|done| |done].
        unfold wsub. apply Z.mod_pos_bound. by rewrite size_mod_eq.
Qed.

(** [index_of_symbol] inverts [symbol_by_index] on the indices of a
    well-formed dictionary. *)
Lemma index_of_symbol_by_index d i :
  wf_dict d = true -> 0 <= i < dict_length d ->
  exists s, symbol_by_index d i = Ok s /\ index_of_symbol d s = Ok i.
Proof.
  unfold wf_dict. intros (Hd & Hlt%Z.ltb_lt)%andb_true_iff.
  rewrite dict_length_ok by done. revert i.
  induction d as [rh|rh rt IH]; intros i Hi;
    pose proof (ranges_ok_head _ Hd) as H'; cbn in *.
  - rewrite range_length_ok by done. pose proof H' as H''%Z.leb_le.
    destruct (Z.ltb_spec i (upper rh - lower rh + 1)); [|lia].
    eexists; split; [done|].
    destruct (Z.leb_spec (lower rh) (lower rh + i)); [|lia].
    destruct (Z.leb_spec (lower rh + i) (upper rh)); [|lia].
    cbn. f_equal. lia.
  - destruct H' as (H1 & H2 & H3). pose proof (symbol_count_pos _ H3).
    pose proof H1 as H1'%Z.leb_le.
    rewrite range_length_ok by (done || lia).
    destruct (Z.ltb_spec i (upper rh - lower rh + 1)).
    + eexists; split; [done|].
      destruct (Z.leb_spec (lower rh) (lower rh + i)); [|lia].
      destruct (Z.leb_spec (lower rh + i) (upper rh)); [|lia].
      cbn. f_equal. lia.
    + rewrite wsub_small by lia.
      destruct (IH H3 ltac:(lia) (i - (upper rh - lower rh + 1)) ltac:(lia))
        as (s & Hs & Hidx).
      exists s. split; [done|].
      destruct (symbol_by_index_disjoint rh rt (i - (upper rh - lower rh + 1)) s
                  H1 H3 ltac:(lia) H2 ltac:(lia) Hs).
      * destruct (Z.leb_spec (lower rh) s); [lia|]. cbn. rewrite Hidx. cbn.
        f_equal. rewrite wadd_small; lia.
      * destruct (Z.leb_spec (lower rh) s); cbn;
          [destruct (Z.leb_spec s (upper rh)); [lia|]|];
          cbn; rewrite Hidx; cbn; f_equal; rewrite wadd_small; lia.
Qed.

(** The index of a member symbol is an index of the dictionary, and
    [symbol_by_index] gives the symbol back. *)
Lemma symbol_by_index_of_symbol d s i :
  wf_dict d = true -> index_of_symbol d s = Ok i ->
  0 <= i < dict_length d /\ symbol_by_index d i = Ok s.
Proof.
  unfold wf_dict. intros (Hd & Hlt%Z.ltb_lt)%andb_true_iff.
  rewrite dict_length_ok by done. revert i.
  induction d as [rh|rh rt IH]; intros i Hi;
    pose proof (ranges_ok_head _ Hd) as H'; cbn in *.
  - rewrite range_length_ok by done.
    destruct (Z.leb_spec (lower rh) s); [|done].
    destruct (Z.leb_spec s (upper rh)); [|done].
    cbn in Hi. injection Hi as <-.
    destruct (Z.ltb_spec (s - lower rh) (upper rh - lower rh + 1)); [|lia].
    split; [lia|]. f_equal. lia.
  - destruct H' as (H1 & H2 & H3). pose proof (symbol_count_pos _ H3).
    pose proof H1 as H1'%Z.leb_le.
    rewrite range_length_ok by (done || lia).
    rewrite range_length_ok in Hi by (done || lia).
    destruct ((lower rh <=? s) && (s <=? upper rh)) eqn:Hin.
    + apply andb_true_iff in Hin as [?%Z.leb_le ?%Z.leb_le].
      injection Hi as <-.
      destruct (Z.ltb_spec (s - lower rh) (upper rh - lower rh + 1)); [|lia].
      split; [lia|]. f_equal. lia.
    + destruct (index_of_symbol rt s) as [j| | |] eqn:Hj; try done.
      cbn in Hi. injection Hi as <-.
      destruct (IH H3 ltac:(lia) j eq_refl) as [Hjr Hsj].
      rewrite wadd_small by lia.
      destruct (Z.ltb_spec (upper rh - lower rh + 1 + j) (upper rh - lower rh + 1)); [lia|].
      rewrite wsub_small by lia.
      split; [lia|]. rewrite <- Hsj. f_equal. lia.
Qed.

Lemma symbol_by_index_out_of_range d i :
  wf_dict d = true -> dict_length d <= i < size_mod ->
  symbol_by_index d i = Throw (out_of_range "symbol_by_index: out of range").
Proof.
  unfold wf_dict. intros (Hd & Hlt%Z.ltb_lt)%andb_true_iff.
  rewrite dict_length_ok by done. revert i.
  induction d as [rh|rh rt IH]; intros i Hi;
    pose proof (ranges_ok_head _ Hd) as H'; cbn in *.
  - rewrite range_length_ok by done.
    destruct (Z.ltb_spec i (upper rh - lower rh + 1)); [lia|done].
  - destruct H' as (H1 & H2 & H3). pose proof (symbol_count_pos _ H3).
    pose proof H1 as H1'%Z.leb_le.
    rewrite range_length_ok by (done || lia).
    destruct (Z.ltb_spec i (upper rh - lower rh + 1)); [lia|].
    rewrite wsub_small by lia. apply IH; [done|lia|lia].
Qed.

(** [index_of_symbol] returns an index or throws [std::out_of_range]. *)
Lemma index_of_symbol_cases d s :
  (exists i, index_of_symbol d s = Ok i) \/
  index_of_symbol d s = Throw (out_of_range "index_of_symbol: out of range").
Proof.
  induction d as [rh|rh rt IH]; cbn.
  - destruct (_ && _); eauto.
  - destruct (_ && _); [eauto|].
    destruct IH as [[i ->]| ->]; cbn; eauto.
Qed.

(** ** Streams too short to hold a payload *)

Section short_streams.

Variables IODict PackDict : piecewise_range.
Hypothesis Hasserts : static_asserts IODict PackDict = true.

Lemma bit_capacity_defined : exists cap, bit_capacity PackDict = Ok cap.
Proof.
  unfold static_asserts in Hasserts.
  destruct (bit_capacity PackDict); try done. eauto.
Qed.

(** C8: a one-symbol stream cannot hold the two header symbols: [unpack_bits]
    and [decode] throw, write nothing, and the exception is
    ["lzw_codec: bad data 1"] when the symbol is a member of the pack
    alphabet ([std::out_of_range] from the alphabet when it is not). *)
Theorem decode_one_symbol_stream (src : list Z) (dst : codes_vec) :
  src <> [] -> (length src < 2)%nat ->
  exists e,
    unpack_bits PackDict src dst = Throw e /\
    decode IODict PackDict src = ([], Throw e) /\
    malformed_stream e = true /\
    (Forall (fun s => exists i, index_of_symbol PackDict s = Ok i) src ->
     e = logic_error "lzw_codec: bad data 1").
Proof.
  intros Hne Hlen. destruct src as [|s [|? ?]]; [done| |simpl in Hlen; lia].
  destruct bit_capacity_defined as [cap Hcap].
  unfold decode, unpack_bits. rewrite Hcap. cbn [obind].
  destruct (index_of_symbol_cases PackDict s) as [[i Hi]|Hi]; rewrite Hi; cbn.
  - eexists. repeat split; try done.
  - eexists. repeat split; try done.
    intros [[j Hj] _]%Forall_cons. congruence.
Qed.

(** C10: a stream of exactly two symbols of the pack alphabet (a complete
    header without payload) is rejected with ["lzw_codec: bad data 2"];
    [decode] writes nothing and does not return. *)
Theorem decode_header_only_stream (s1 s2 : Z) :
  (exists i, index_of_symbol PackDict s1 = Ok i) ->
  (exists i, index_of_symbol PackDict s2 = Ok i) ->
  decode IODict PackDict [s1; s2] =
    ([], Throw (logic_error "lzw_codec: bad data 2")) /\
  malformed_stream (logic_error "lzw_codec: bad data 2") = true /\
  decode IODict PackDict [s1; s2] <> ([], Ok tt).
Proof.
  intros [i1 H1] [i2 H2].
  destruct bit_capacity_defined as [cap Hcap].
  assert (decode IODict PackDict [s1; s2] =
    ([], Throw (logic_error "lzw_codec: bad data 2"))) as ->.
  { unfold decode, unpack_bits. rewrite Hcap, H1. cbn [obind]. rewrite H2. done. }
  done.
Qed.

End short_streams.

Lemma decode_one_symbol_stream_witness :
  exists e,
    unpack_bits dictionaries.URI_pack [48] [] = Throw e /\
    decode dictionaries.ASCII_128_common dictionaries.URI_pack [48] = ([], Throw e) /\
    malformed_stream e = true /\
    (Forall (fun s => exists i, index_of_symbol dictionaries.URI_pack s = Ok i) [48] ->
     e = logic_error "lzw_codec: bad data 1").
Proof.
  apply (decode_one_symbol_stream dictionaries.ASCII_128_common dictionaries.URI_pack).
  - reflexivity.
  - discriminate.
  - simpl. lia.
Defined.

Lemma decode_header_only_stream_witness :
  decode dictionaries.ASCII_128_common dictionaries.URI_pack [55; 51] =
    ([], Throw (logic_error "lzw_codec: bad data 2")) /\
  malformed_stream (logic_error "lzw_codec: bad data 2") = true /\
  decode dictionaries.ASCII_128_common dictionaries.URI_pack [55; 51] <> ([], Ok tt).
Proof.
  apply (decode_header_only_stream dictionaries.ASCII_128_common dictionaries.URI_pack).
  - reflexivity.
  - exists 7. reflexivity.
  - exists 3. reflexivity.
Defined.


(** ** Bit arithmetic *)

Lemma land_pow2_pred x t : 0 <= t -> Z.land x (2 ^ t - 1) = x mod 2 ^ t.
Proof.
  intros Ht. change (2 ^ t - 1) with (Z.pred (2 ^ t)).
  rewrite <- Z.ones_equiv. by apply Z.land_ones.
Qed.

Lemma lor_disjoint a b k :
  0 <= k -> 0 <= a < 2 ^ k -> Z.lor a (b * 2 ^ k) = a + b * 2 ^ k.
Proof.
  intros Hk Ha. rewrite <- Z.lxor_lor, <- Z.add_nocarry_lxor; try done.
  all: apply Z.bits_inj'; intros n Hn; rewrite Z.land_spec, Z.bits_0;
    destruct (Z_lt_le_dec n k);
    [rewrite <- Z.shiftl_mul_pow2, Z.shiftl_spec_low by lia; apply andb_false_r
    |rewrite <- (Z.mod_small a (2 ^ k)), Z.mod_pow2_bits_high by lia; done].
Qed.

Lemma extract_mod x s t w :
  0 <= s -> 0 <= t -> s + t <= w ->
  (x mod 2 ^ w / 2 ^ s) mod 2 ^ t = (x / 2 ^ s) mod 2 ^ t.
Proof.
  intros Hs Ht Hw.
  apply Z.bits_inj'; intros n Hn.
  destruct (Z_lt_le_dec n t).
  - rewrite !Z.mod_pow2_bits_low by lia.
    rewrite <- !Z.shiftr_div_pow2, !Z.shiftr_spec by lia.
    rewrite Z.mod_pow2_bits_low by lia. done.
  - rewrite !Z.mod_pow2_bits_high by lia. done.
Qed.

Lemma mod_pow2_split x a b :
  0 <= a -> 0 <= b ->
  x mod 2 ^ (a + b) = x mod 2 ^ a + 2 ^ a * ((x / 2 ^ a) mod 2 ^ b).
Proof.
  intros Ha Hb. rewrite Z.pow_add_r by lia.
  apply Z.rem_mul_r; apply Z.pow_nonzero || apply Z.pow_pos_nonneg; lia.
Qed.

Lemma div_pow2_add x a b :
  0 <= a -> 0 <= b -> x / 2 ^ (a + b) = x / 2 ^ a / 2 ^ b.
Proof.
  intros Ha Hb. rewrite Z.pow_add_r by lia.
  rewrite Z.div_div; try done; apply Z.pow_pos_nonneg || apply Z.pow_nonzero; lia.
Qed.

(** ** [pack_bits] *)

Section bit_packing.

Variable PackDict : piecewise_range.
Hypothesis Hwf : wf_dict PackDict = true.

Variable cap : Z.
Hypothesis Hcap : bit_capacity PackDict = Ok cap.

Lemma bit_capacity_log2 : cap = Z.log2 (dict_length PackDict).
Proof.
  pose proof (wf_dict_length _ Hwf). unfold bit_capacity in Hcap.
  rewrite log2_floor_spec in Hcap by lia. congruence.
Qed.

Lemma bit_capacity_bounds : 0 <= cap < 64 /\ 2 ^ cap <= dict_length PackDict.
Proof.
  pose proof (wf_dict_length _ Hwf). rewrite bit_capacity_log2.
  split; [split; [apply Z.log2_nonneg|apply Z.log2_lt_pow2; rewrite <- ?size_mod_eq; lia]|].
  apply Z.log2_spec. lia.
Qed.

Lemma symbol_at_ok i :
  0 <= i < dict_length PackDict ->
  symbol_by_index PackDict i = Ok (symbol_at PackDict i) /\
  index_of_symbol PackDict (symbol_at PackDict i) = Ok i.
Proof.
  intros Hi. destruct (index_of_symbol_by_index _ _ Hwf Hi) as (s & Hs & Hidx).
  unfold symbol_at. rewrite Hs. done.
Qed.

Lemma pow2_le_size_mod k : 0 <= k <= 64 -> 0 < 2 ^ k <= size_mod.
Proof.
  intros Hk. split; [apply Z.pow_pos_nonneg; lia|].
  rewrite size_mod_eq. apply Z.pow_le_mono_r; lia.
Qed.

Lemma shl_small a n :
  0 <= n < 64 -> 0 <= a -> a * 2 ^ n < size_mod -> shl a n = Ok (a * 2 ^ n).
Proof.
  intros Hn Ha Hlt. unfold shl, size_bits. destruct (Z.ltb_spec n 64); [|lia].
  rewrite Z.shiftl_mul_pow2 by lia. rewrite Z.mod_small; [done|].
  split; [|done]. apply Z.mul_nonneg_nonneg; [done|]. apply Z.pow_nonneg. lia.
Qed.

Lemma shr_small a n : 0 <= n < 64 -> shr a n = Ok (a / 2 ^ n).
Proof.
  intros Hn. unfold shr, size_bits. destruct (Z.ltb_spec n 64); [|lia].
  by rewrite Z.shiftr_div_pow2 by lia.
Qed.

(** The mask [(1ULL << t) - 1ULL] keeps the low [t] bits. *)
Lemma low_bits_mask x t :
  0 <= t < 64 ->
  (ones <-- shl 1 t ; Ok (Z.land x (wsub ones 1))) = Ok (x mod 2 ^ t).
Proof.
  intros Ht. pose proof (pow2_le_size_mod t ltac:(lia)).
  assert (2 ^ t < size_mod).
  { rewrite size_mod_eq. apply Z.pow_lt_mono_r; lia. }
  rewrite shl_small by lia. cbn [obind]. rewrite Z.mul_1_l.
  rewrite wsub_small by lia. by rewrite land_pow2_pred by lia.
Qed.

(** One pass of the cycle over the bits of a code. *)
Lemma pack_code_step fuel bit_depth code code_done symbol_done symbol_acc :
  1 <= bit_depth <= 64 -> 0 <= code ->
  0 <= code_done < bit_depth -> 0 <= symbol_done < cap ->
  0 <= symbol_acc < 2 ^ symbol_done ->
  let t := Z.min (cap - symbol_done) (bit_depth - code_done) in
  let acc := symbol_acc + (code / 2 ^ code_done) mod 2 ^ t * 2 ^ symbol_done in
  0 <= acc < 2 ^ (symbol_done + t) /\
  pack_code PackDict (S fuel) cap bit_depth code code_done symbol_done symbol_acc =
    if symbol_done + t =? cap then
      _ <~~ put (symbol_at PackDict acc) ;
      pack_code PackDict fuel cap bit_depth code (code_done + t) 0 0
    else
      pack_code PackDict fuel cap bit_depth code (code_done + t) (symbol_done + t) acc.
Proof.
  intros Hbd Hcode Hcd Hsd Hacc t acc.
  destruct bit_capacity_bounds as [Hc Hlen].
  assert (Ht : 1 <= t <= cap - symbol_done /\ t <= bit_depth - code_done) by lia.
  pose proof (Z.mod_pos_bound (code / 2 ^ code_done) (2 ^ t)
                ltac:(apply Z.pow_pos_nonneg; lia)) as Hpiece.
  set (piece := (code / 2 ^ code_done) mod 2 ^ t) in *.
  assert (H2sd : 0 < 2 ^ symbol_done) by (apply Z.pow_pos_nonneg; lia).
  assert (Hacc' : 0 <= acc < 2 ^ (symbol_done + t)).
  { subst acc. rewrite Z.pow_add_r by lia. nia. }
  split; [done|].
  assert (Hle : 2 ^ (symbol_done + t) <= 2 ^ cap) by (apply Z.pow_le_mono_r; lia).
  assert (Hlt : 2 ^ cap < size_mod).
  { rewrite size_mod_eq. apply Z.pow_lt_mono_r; lia. }
  cbn [pack_code]. destruct (Z.ltb_spec code_done bit_depth); [|lia]. cbn [negb].
  rewrite !wsub_small, !wadd_small by (rewrite size_mod_eq; lia). fold t.
  rewrite shr_small by lia. cbn [lift wbind app].
  pose proof (low_bits_mask (code / 2 ^ code_done) t ltac:(lia)) as Hmask.
  destruct (shl 1 t) as [ones| | |]; try done. cbn [obind] in Hmask.
  injection Hmask as Hmask. cbn [wbind app]. rewrite Hmask. fold piece.
  rewrite shl_small by (try lia; subst acc; nia).
  cbn [wbind app]. rewrite lor_disjoint by lia. fold acc.
  destruct (Z.eqb_spec (symbol_done + t) cap) as [Heq|Hne].
  - destruct (symbol_at_ok acc) as [-> _]; [rewrite Heq in Hacc'; lia|].
    cbn [wbind app put].
    by destruct (pack_code PackDict fuel cap bit_depth code (code_done + t) 0 0) as [? []].
  - by destruct (pack_code PackDict fuel cap bit_depth code (code_done + t)
                   (symbol_done + t) acc) as [? []].
Qed.

Lemma digits_val_app w l1 l2 :
  0 <= w ->
  digits_val w (l1 ++ l2) =
    digits_val w l1 + 2 ^ (w * Z.of_nat (length l1)) * digits_val w l2.
Proof.
  intros Hw. induction l1 as [|d l1 IH].
  - cbn. rewrite Z.mul_0_r. cbn. lia.
  - cbn [app digits_val length]. rewrite IH, Nat2Z.inj_succ.
    replace (w * Z.succ (Z.of_nat (length l1))) with (w + w * Z.of_nat (length l1)) by lia.
    rewrite Z.pow_add_r by lia. ring.
Qed.

Lemma digits_val_bounds w l :
  0 <= w -> 0 <= digits_val w l < 2 ^ (w * Z.of_nat (length l)).
Proof.
  intros Hw. induction l as [|d l IH].
  - cbn. rewrite Z.mul_0_r. cbn. lia.
  - cbn [digits_val length]. rewrite Nat2Z.inj_succ.
    replace (w * Z.succ (Z.of_nat (length l))) with (w + w * Z.of_nat (length l)) by lia.
    rewrite Z.pow_add_r by lia.
    pose proof (Z.mod_pos_bound d (2 ^ w) ltac:(apply Z.pow_pos_nonneg; lia)).
    nia.
Qed.

(** The digits a run of [pack_code] writes, and the accumulator it leaves:
    together they hold what was in the accumulator followed by the bits
    [code_done ..< bit_depth] of the code. *)
Lemma pack_code_spec fuel bit_depth code :
  1 <= bit_depth <= 64 -> 0 <= code ->
  forall code_done symbol_done symbol_acc,
  0 <= code_done <= bit_depth -> 0 <= symbol_done < cap ->
  0 <= symbol_acc < 2 ^ symbol_done ->
  bit_depth - code_done <= Z.of_nat fuel ->
  exists D symbol_done' symbol_acc',
    pack_code PackDict fuel cap bit_depth code code_done symbol_done symbol_acc =
      (map (symbol_at PackDict) D, Ok (symbol_done', symbol_acc')) /\
    Forall (fun d => 0 <= d < 2 ^ cap) D /\
    0 <= symbol_done' < cap /\ 0 <= symbol_acc' < 2 ^ symbol_done' /\
    cap * Z.of_nat (length D) + symbol_done' = symbol_done + (bit_depth - code_done) /\
    digits_val cap D + 2 ^ (cap * Z.of_nat (length D)) * symbol_acc' =
      symbol_acc + 2 ^ symbol_done * (code mod 2 ^ bit_depth / 2 ^ code_done).
Proof.
  intros Hbd Hcode. destruct bit_capacity_bounds as [Hc Hlen].
  induction fuel as [|fuel IH]; intros cd sd acc Hcd Hsd Hacc Hfuel.
  - assert (cd = bit_depth) as -> by lia.
    exists [], sd, acc. cbn [pack_code]. rewrite Z.ltb_irrefl. cbn.
    repeat split; try done; try lia.
    rewrite Z.div_small by (apply Z.mod_pos_bound, Z.pow_pos_nonneg; lia).
    rewrite Z.mul_0_r. cbn. lia.
  - destruct (Z.eq_dec cd bit_depth) as [->|Hne].
    { exists [], sd, acc. cbn [pack_code]. rewrite Z.ltb_irrefl. cbn.
      repeat split; try done; try lia.
      rewrite Z.div_small by (apply Z.mod_pos_bound, Z.pow_pos_nonneg; lia).
      rewrite Z.mul_0_r. cbn. lia. }
    destruct (pack_code_step fuel bit_depth code cd sd acc) as [Hacc1 ->];
      try done; try lia.
    set (t := Z.min (cap - sd) (bit_depth - cd)) in *.
    assert (Ht : 1 <= t <= cap - sd /\ t <= bit_depth - cd) by lia.
    set (piece := (code / 2 ^ cd) mod 2 ^ t) in *.
    set (acc1 := acc + piece * 2 ^ sd) in *.
    (* the bits still to write: those of this pass, then the rest *)
    assert (Hsplit : code mod 2 ^ bit_depth / 2 ^ cd =
                     piece + 2 ^ t * (code mod 2 ^ bit_depth / 2 ^ (cd + t))).
    { subst piece. rewrite <- (extract_mod code cd t bit_depth) by lia.
      rewrite div_pow2_add by lia.
      pose proof (Z.div_mod (code mod 2 ^ bit_depth / 2 ^ cd) (2 ^ t)
                    ltac:(apply Z.pow_nonzero; lia)).
      lia. }
    destruct (Z.eqb_spec (sd + t) cap) as [Heq|Hneq].
    + destruct (IH (cd + t) 0 0) as (D & sd' & acc' & Hrun & HD & Hsd' & Hacc' & Hlen' & Hval);
        try lia.
      exists (acc1 :: D), sd', acc'. rewrite Hrun. cbn [wbind put app map].
      split; [done|]. split; [constructor; [rewrite Heq in Hacc1; lia|done]|].
      split; [done|]. split; [done|]. cbn [length digits_val].
      rewrite Nat2Z.inj_succ. split; [lia|].
      replace (cap * Z.succ (Z.of_nat (length D))) with (cap + cap * Z.of_nat (length D)) by lia.
      rewrite Z.pow_add_r by lia.
      rewrite (Z.mod_small acc1) by (rewrite Heq in Hacc1; lia).
      rewrite Z.pow_0_r, Z.mul_1_l, Z.add_0_l in Hval.
      rewrite Hsplit, <- Hval. subst acc1.
      assert (Hp : 2 ^ cap = 2 ^ sd * 2 ^ t) by (rewrite <- Z.pow_add_r, Heq; lia).
      rewrite Hp. ring.
    + destruct (IH (cd + t) (sd + t) acc1) as (D & sd' & acc' & Hrun & HD & Hsd' & Hacc' & Hlen' & Hval);
        try lia.
      exists D, sd', acc'. rewrite Hrun.
      split; [done|]. split; [done|]. split; [done|]. split; [done|].
      split; [lia|]. rewrite Hval, Hsplit. subst acc1.
      rewrite Z.pow_add_r by lia. ring.
Qed.

Lemma pack_codes_spec bit_depth :
  1 <= bit_depth <= 64 ->
  forall src symbol_done symbol_acc,
  Forall (fun c => 0 <= c) src ->
  0 <= symbol_done < cap -> 0 <= symbol_acc < 2 ^ symbol_done ->
  exists D symbol_done' symbol_acc',
    pack_codes PackDict cap bit_depth src symbol_done symbol_acc =
      (map (symbol_at PackDict) D, Ok (symbol_done', symbol_acc')) /\
    Forall (fun d => 0 <= d < 2 ^ cap) D /\
    0 <= symbol_done' < cap /\ 0 <= symbol_acc' < 2 ^ symbol_done' /\
    cap * Z.of_nat (length D) + symbol_done' = symbol_done + bit_depth * vsize src /\
    digits_val cap D + 2 ^ (cap * Z.of_nat (length D)) * symbol_acc' =
      symbol_acc + 2 ^ symbol_done * digits_val bit_depth src.
Proof.
  intros Hbd. destruct bit_capacity_bounds as [Hc Hlen]. unfold vsize.
  induction src as [|code src IH]; intros sd acc Hsrc Hsd Hacc.
  - exists [], sd, acc. cbn. repeat split; try done; try lia.
    rewrite Z.mul_0_r. cbn. lia.
  - apply Forall_cons in Hsrc as [Hcode Hsrc].
    destruct (pack_code_spec (Z.to_nat bit_depth) bit_depth code Hbd Hcode 0 sd acc)
      as (D1 & sd1 & acc1 & Hrun1 & HD1 & Hsd1 & Hacc1 & Hlen1 & Hval1); try lia.
    destruct (IH sd1 acc1 Hsrc Hsd1 Hacc1)
      as (D2 & sd2 & acc2 & Hrun2 & HD2 & Hsd2 & Hacc2 & Hlen2 & Hval2).
    exists (D1 ++ D2), sd2, acc2. cbn [pack_codes]. rewrite Hrun1. cbn [wbind].
    rewrite Hrun2. rewrite map_app.
    split; [done|]. split; [by apply Forall_app|]. split; [done|]. split; [done|].
    rewrite length_app, Nat2Z.inj_add. cbn [length]. rewrite Nat2Z.inj_succ.
    split; [lia|].
    rewrite digits_val_app by lia. cbn [digits_val].
    rewrite Z.pow_0_r, Z.div_1_r in Hval1.
    replace (cap * (Z.of_nat (length D1) + Z.of_nat (length D2)))
      with (cap * Z.of_nat (length D1) + cap * Z.of_nat (length D2)) by lia.
    rewrite Z.pow_add_r by lia.
    transitivity (digits_val cap D1 + 2 ^ (cap * Z.of_nat (length D1)) *
      (digits_val cap D2 + 2 ^ (cap * Z.of_nat (length D2)) * acc2)); [ring|].
    rewrite Hval2.
    transitivity (digits_val cap D1 + 2 ^ (cap * Z.of_nat (length D1)) * acc1 +
      2 ^ (cap * Z.of_nat (length D1) + sd1) * digits_val bit_depth src).
    { rewrite Z.pow_add_r by lia. ring. }
    rewrite Hval1, Hlen1, Z.sub_0_r, Z.pow_add_r by lia. ring.
Qed.

(** [pack_bits] writes the two header symbols and then the digits [D] of the
    bit stream of the codes, padded with [dead_bits] zero bits. *)
Lemma pack_bits_spec (src : codes_vec) (bit_depth : Z) :
  1 <= cap -> 1 <= bit_depth <= 64 -> bit_depth < dict_length PackDict ->
  src <> [] -> bit_depth * vsize src < size_mod ->
  Forall (fun c => 0 <= c) src ->
  exists D dead_bits,
    pack_bits PackDict src bit_depth =
      (symbol_at PackDict bit_depth :: symbol_at PackDict dead_bits ::
         map (symbol_at PackDict) D, Ok tt) /\
    Forall (fun d => 0 <= d < 2 ^ cap) D /\
    0 <= dead_bits < cap /\
    cap * Z.of_nat (length D) = bit_depth * vsize src + dead_bits /\
    digits_val cap D = digits_val bit_depth src.
Proof.
  intros Hcap1 Hbd Hbdlen Hne Hsize Hsrc.
  destruct bit_capacity_bounds as [Hc Hlen].
  assert (Hn : 1 <= vsize src) by (destruct src; [done|unfold vsize; cbn; lia]).
  pose proof (Z.pow_gt_lin_r 2 cap ltac:(lia) ltac:(lia)) as Hcaplt.
  destruct (pack_codes_spec bit_depth Hbd src 0 0 Hsrc ltac:(lia) ltac:(cbn; lia))
    as (D0 & sd & acc & Hrun & HD0 & Hsd & Hacc & Hlen0 & Hval0).
  rewrite Z.add_0_l in Hlen0. rewrite Z.pow_0_r, Z.add_0_l, Z.mul_1_l in Hval0.
  set (k := Z.of_nat (length D0)) in *.
  set (bits_needed := bit_depth * vsize src) in *.
  assert (Hbits : 1 <= bits_needed) by (subst bits_needed; nia).
  (* the number of output symbols and the padding *)
  set (D := if sd =? 0 then D0 else D0 ++ [acc]).
  assert (HlenD : Z.of_nat (length D) = (bits_needed - 1) / cap + 1).
  { subst D. destruct (Z.eqb_spec sd 0) as [->|Hsd0].
    - fold k. symmetry. rewrite <- Hlen0, Z.add_0_r.
      replace (cap * k - 1) with (cap * (k - 1) + (cap - 1)) by lia.
      rewrite Z.mul_comm, Z.div_add_l by lia. rewrite Z.div_small by lia. lia.
    - rewrite length_app, Nat2Z.inj_add. fold k. cbn. symmetry. rewrite <- Hlen0.
      replace (cap * k + sd - 1) with (k * cap + (sd - 1)) by lia.
      rewrite Z.div_add_l by lia. rewrite Z.div_small by lia. lia. }
  set (dead := cap * Z.of_nat (length D) - bits_needed).
  assert (Hdead : 0 <= dead < cap).
  { subst dead D. destruct (Z.eqb_spec sd 0) as [->|Hsd0].
    - fold k. lia.
    - rewrite length_app, Nat2Z.inj_add. fold k. cbn [length]. lia. }
  exists D, dead.
  split.
  - unfold pack_bits. rewrite Hcap. cbn [lift wbind app]. fold bits_needed.
    rewrite (wmul_small bit_depth) by (fold bits_needed; lia). fold bits_needed.
    rewrite wsub_small by lia. unfold udiv.
    destruct (Z.eqb_spec cap 0); [lia|]. cbn [wbind app].
    assert (Hq : 0 <= (bits_needed - 1) / cap <= bits_needed - 1).
    { split; [apply Z.div_pos; lia|]. apply Z.div_le_upper_bound; nia. }
    rewrite wadd_small by lia.
    assert (Hdead' : wsub (wmul ((bits_needed - 1) / cap + 1) cap) bits_needed = dead).
    { unfold wsub, wmul. rewrite Zminus_mod_idemp_l, <- HlenD.
      rewrite Z.mod_small; [subst dead; lia|]. fold dead.
      replace (Z.of_nat (length D) * cap - bits_needed) with dead by (subst dead; lia).
      rewrite size_mod_eq. lia. }
    rewrite Hdead'.
    destruct (symbol_at_ok bit_depth) as [-> _]; [lia|]. cbn [wbind app put].
    destruct (symbol_at_ok dead) as [-> _]; [lia|]. cbn [wbind app put].
    rewrite Hrun. cbn [wbind app]. subst D.
    destruct (Z.eqb_spec sd 0) as [->|Hsd0]; cbn [negb].
    + cbn [wret]. by rewrite app_nil_r.
    + destruct (symbol_at_ok acc) as [-> _].
      { assert (2 ^ sd <= 2 ^ cap) by (apply Z.pow_le_mono_r; lia). lia. }
      cbn [wbind app put]. by rewrite map_app.
  - split.
    { subst D. destruct (Z.eqb_spec sd 0); [done|]. apply Forall_app. split; [done|].
      constructor; [|done].
      assert (2 ^ sd <= 2 ^ cap) by (apply Z.pow_le_mono_r; lia). lia. }
    split; [done|]. split; [subst dead; lia|].
    rewrite <- Hval0. subst D. destruct (Z.eqb_spec sd 0) as [->|Hsd0].
    + assert (acc = 0) as -> by (cbn in Hacc; lia). lia.
    + rewrite digits_val_app by lia. cbn [digits_val]. fold k.
      rewrite Z.mod_small; [lia|].
      assert (2 ^ sd <= 2 ^ cap) by (apply Z.pow_le_mono_r; lia). lia.
Qed.

(** ** [unpack_bits] *)

Lemma stream_val_bounds chunk sd I :
  0 <= sd < cap ->
  0 <= stream_val cap chunk sd I < 2 ^ stream_len cap sd I.
Proof.
  intros Hsd. unfold stream_val, stream_len.
  pose proof (digits_val_bounds cap I ltac:(lia)) as HI.
  rewrite Z.pow_add_r by nia.
  assert (H2sd : 0 < 2 ^ sd) by (apply Z.pow_pos_nonneg; lia).
  assert (H2c : 0 < 2 ^ (cap - sd)) by (apply Z.pow_pos_nonneg; lia).
  pose proof (Z.mod_pos_bound chunk (2 ^ cap) ltac:(apply Z.pow_pos_nonneg; lia)) as Hm.
  assert (Hq : 0 <= chunk mod 2 ^ cap / 2 ^ sd < 2 ^ (cap - sd)).
  { split; [apply Z.div_pos; lia|]. apply Z.div_lt_upper_bound; [lia|].
    rewrite <- Z.pow_add_r by lia. replace (sd + (cap - sd)) with cap by lia. lia. }
  nia.
Qed.

(** The next [t] bits of the stream are bits of the loaded chunk. *)
Lemma stream_val_low chunk sd I t :
  0 <= sd -> 0 <= t <= cap - sd ->
  stream_val cap chunk sd I mod 2 ^ t = (chunk / 2 ^ sd) mod 2 ^ t.
Proof.
  intros Hsd Ht. unfold stream_val.
  replace (cap - sd) with (t + (cap - sd - t)) by lia.
  rewrite Z.pow_add_r, <- Z.mul_assoc, Z.mul_comm by lia.
  rewrite Z.mod_add by (apply Z.pow_nonzero; lia).
  apply extract_mod; lia.
Qed.

(** Reading [t] bits inside the loaded chunk. *)
Lemma stream_val_advance chunk sd I t :
  0 <= sd -> 0 <= t -> sd + t <= cap ->
  stream_val cap chunk sd I / 2 ^ t =
    chunk mod 2 ^ cap / 2 ^ (sd + t) + 2 ^ (cap - (sd + t)) * digits_val cap I.
Proof.
  intros Hsd Ht Hle. unfold stream_val.
  replace (cap - sd) with (t + (cap - (sd + t))) by lia.
  rewrite Z.pow_add_r, <- Z.mul_assoc, Z.mul_comm by lia.
  rewrite Z.div_add by (apply Z.pow_nonzero; lia).
  rewrite div_pow2_add by lia. done.
Qed.

(** Reading the loaded chunk to its end and loading the next one. *)
Lemma stream_val_next chunk sd i I :
  0 <= sd < cap ->
  stream_val cap chunk sd (i :: I) / 2 ^ (cap - sd) = stream_val cap i 0 I.
Proof.
  intros Hsd. rewrite stream_val_advance by lia.
  replace (sd + (cap - sd)) with cap by lia.
  rewrite Z.div_small by (apply Z.mod_pos_bound, Z.pow_pos_nonneg; lia).
  rewrite Z.sub_diag, Z.pow_0_r. unfold stream_val. cbn [digits_val].
  rewrite Z.pow_0_r, Z.div_1_r, Z.sub_0_r. lia.
Qed.

Local Abbreviation indexed := (indexed PackDict).

(** One pass of the cycle over the bits of a code, when it does not stop at
    the padding. *)
Lemma unpack_code_step fuel bit_depth dead_bits R chunk sd acc cd :
  1 <= bit_depth <= 64 -> 0 <= sd < cap -> 0 <= cd < bit_depth ->
  0 <= acc < 2 ^ cd ->
  ~ (cap - sd = dead_bits /\ cd = 0 /\ R = []) ->
  let t := Z.min (cap - sd) (bit_depth - cd) in
  let acc1 := acc + (chunk / 2 ^ sd) mod 2 ^ t * 2 ^ cd in
  0 <= acc1 < 2 ^ (cd + t) /\
  unpack_code PackDict (S fuel) cap bit_depth dead_bits R chunk sd acc cd =
    if sd + t =? cap then
      match R with
      | [] => Ok (UnpackState R chunk (sd + t) true, acc1, cd + t)
      | s :: R' =>
          chunk' <-- index_of_symbol PackDict s ;
          unpack_code PackDict fuel cap bit_depth dead_bits R' chunk' 0 acc1 (cd + t)
      end
    else
      unpack_code PackDict fuel cap bit_depth dead_bits R chunk (sd + t) acc1 (cd + t).
Proof.
  intros Hbd Hsd Hcd Hacc HnotA t acc1.
  destruct bit_capacity_bounds as [Hc Hlen].
  assert (Ht : 1 <= t <= cap - sd /\ t <= bit_depth - cd) by lia.
  pose proof (Z.mod_pos_bound (chunk / 2 ^ sd) (2 ^ t)
                ltac:(apply Z.pow_pos_nonneg; lia)) as Hdata.
  set (data := (chunk / 2 ^ sd) mod 2 ^ t) in *.
  assert (H2cd : 0 < 2 ^ cd) by (apply Z.pow_pos_nonneg; lia).
  assert (Hacc1 : 0 <= acc1 < 2 ^ (cd + t)).
  { subst acc1. rewrite Z.pow_add_r by lia. nia. }
  split; [done|].
  assert (Hle : 2 ^ (cd + t) <= 2 ^ 64) by (apply Z.pow_le_mono_r; lia).
  cbn [unpack_code]. destruct (Z.ltb_spec cd bit_depth); [|lia]. cbn [negb].
  rewrite !wsub_small, !wadd_small by (rewrite size_mod_eq; lia). fold t.
  assert ((cap - sd =? dead_bits) && (cd =? 0) && bool_decide (R = []) = false) as ->.
  { destruct (Z.eqb_spec (cap - sd) dead_bits); [|done].
    destruct (Z.eqb_spec cd 0); [|done]. cbn. apply bool_decide_eq_false. tauto. }
  rewrite shr_small by lia. cbn [obind].
  pose proof (low_bits_mask (chunk / 2 ^ sd) t ltac:(lia)) as Hmask.
  destruct (shl 1 t) as [ones| | |]; try done. cbn [obind] in Hmask |- *.
  injection Hmask as ->. fold data.
  rewrite shl_small by (try lia; rewrite size_mod_eq; subst acc1; nia).
  cbn [obind]. rewrite lor_disjoint by lia. fold acc1. done.
Qed.

(** A run of [unpack_code] reads the next [k] bits of the stream into the
    code, [k] being what is left of the code or of the stream; it reports the
    end of the input exactly when the stream is used up. *)
Lemma unpack_code_spec bit_depth dead_bits :
  1 <= bit_depth <= 64 ->
  forall fuel R I chunk sd acc cd,
  indexed R I -> 0 <= sd < cap -> 0 <= cd <= bit_depth -> 0 <= acc < 2 ^ cd ->
  ~ (cap - sd = dead_bits /\ cd = 0 /\ R = []) ->
  bit_depth - cd <= Z.of_nat fuel ->
  let V := stream_val cap chunk sd I in
  let L := stream_len cap sd I in
  let k := Z.min L (bit_depth - cd) in
  exists st,
    unpack_code PackDict fuel cap bit_depth dead_bits R chunk sd acc cd =
      Ok (st, acc + 2 ^ cd * (V mod 2 ^ k), cd + k) /\
    if L <=? bit_depth - cd then u_done st = true
    else u_done st = false /\
         exists I', indexed (u_first st) I' /\ 0 <= u_symbol_done st < cap /\
           stream_val cap (u_chunk st) (u_symbol_done st) I' = V / 2 ^ k /\
           stream_len cap (u_symbol_done st) I' = L - k.
Proof.
  intros Hbd. destruct bit_capacity_bounds as [Hc Hlen].
  induction fuel as [|fuel IH]; intros R I chunk sd acc cd HRI Hsd Hcd Hacc HnotA Hfuel V L k.
  all: assert (HL : 1 <= L) by (subst L; unfold stream_len; nia).
  all: destruct (Z.eq_dec cd bit_depth) as [->|Hne]; [|try lia].
  1,2: exists (UnpackState R chunk sd false);
    (split; [|destruct (Z.leb_spec L (bit_depth - bit_depth)); [lia|];
              split; [done|]; exists I; cbn;
              replace k with 0 by lia; rewrite Z.pow_0_r, Z.div_1_r; fold L; 
              split; [done|]; split; [done|]; split; [done|lia]]);
    replace k with 0 by lia; rewrite Z.pow_0_r, Z.mod_1_r, Z.mul_0_r, !Z.add_0_r;
    (destruct fuel || idtac); cbn [unpack_code]; rewrite Z.ltb_irrefl; done.
  destruct (unpack_code_step fuel bit_depth dead_bits R chunk sd acc cd)
    as [Hacc1 ->]; try done; try lia.
  set (t := Z.min (cap - sd) (bit_depth - cd)) in *.
  assert (Ht : 1 <= t <= cap - sd /\ t <= bit_depth - cd) by lia.
  rewrite <- (stream_val_low chunk sd I t) in Hacc1 |- * by lia. fold V in Hacc1 |- *.
  set (acc1 := acc + V mod 2 ^ t * 2 ^ cd) in *.
  (* what the rest of the run does to the stream advanced by [t] bits *)
  assert (Hrest : forall R' I' chunk' sd',
    indexed R' I' -> 0 <= sd' < cap ->
    stream_val cap chunk' sd' I' = V / 2 ^ t ->
    stream_len cap sd' I' = L - t ->
    exists st,
      unpack_code PackDict fuel cap bit_depth dead_bits R' chunk' sd' acc1 (cd + t) =
        Ok (st, acc + 2 ^ cd * (V mod 2 ^ k), cd + k) /\
      if L <=? bit_depth - cd then u_done st = true
      else u_done st = false /\
           exists I'', indexed (u_first st) I'' /\ 0 <= u_symbol_done st < cap /\
             stream_val cap (u_chunk st) (u_symbol_done st) I'' = V / 2 ^ k /\
             stream_len cap (u_symbol_done st) I'' = L - k).
  { intros R' I' chunk' sd' HRI' Hsd' HV' HL'.
    destruct (IH R' I' chunk' sd' acc1 (cd + t) HRI' Hsd' ltac:(lia) Hacc1
                ltac:(lia) ltac:(lia)) as (st & Hrun & Hst).
    assert (1 <= L - t) by (rewrite <- HL'; unfold stream_len; nia).
    rewrite HV', HL' in Hrun, Hst.
    set (k' := Z.min (L - t) (bit_depth - (cd + t))) in *.
    assert (Hk : k = t + k') by lia.
    exists st. split.
    - rewrite Hrun. f_equal. f_equal; [|lia]. f_equal. subst acc1.
      rewrite Hk, mod_pow2_split, (Z.pow_add_r 2 cd t) by lia. ring.
    - destruct (Z.leb_spec (L - t) (bit_depth - (cd + t)));
        destruct (Z.leb_spec L (bit_depth - cd)); try lia; [done|].
      destruct Hst as (Hd & I'' & ? & ? & HV'' & HL''). split; [done|].
      exists I''. rewrite Hk, div_pow2_add by lia.
      split; [done|]. split; [done|]. split; [done|lia]. }
  destruct (Z.eqb_spec (sd + t) cap) as [Heq|Hneq].
  - destruct HRI as [|s i R' I' Hsi HRI'].
    + (* the input ends with this chunk *)
      assert (HLt : L = t) by (subst L; unfold stream_len; cbn; lia).
      eexists. split.
      * f_equal. f_equal; [|lia]. f_equal. replace k with t by lia. subst acc1. ring.
      * destruct (Z.leb_spec L (bit_depth - cd)); [done|lia].
    + rewrite Hsi. cbn [obind]. apply (Hrest R' I' i 0 HRI'); [lia| |].
      * subst V. replace t with (cap - sd) by lia. by rewrite stream_val_next by lia.
      * subst L. unfold stream_len. cbn [length]. lia.
  - apply (Hrest R I chunk (sd + t) HRI); [lia| |].
    + subst V. by rewrite stream_val_advance by lia.
    + subst L. unfold stream_len. lia.
Qed.

Lemma indexed_nil_iff R I : indexed R I -> (R = [] <-> I = []).
Proof. intros []; done. Qed.

(** The cycle over codes gives the codes of the stream. *)
Lemma unpack_codes_spec bit_depth dead_bits :
  1 <= bit_depth <= 64 ->
  forall fuel f2 R I chunk sd dst,
  indexed R I -> 0 <= sd < cap ->
  bit_depth + stream_len cap sd I <= Z.of_nat fuel ->
  stream_len cap sd I <= Z.of_nat f2 ->
  unpack_codes PackDict fuel cap bit_depth dead_bits R chunk sd dst =
    Ok (dst ++ stream_codes f2 cap bit_depth dead_bits
                 (stream_val cap chunk sd I) (stream_len cap sd I)).
Proof.
  intros Hbd. destruct bit_capacity_bounds as [Hc Hlen].
  induction fuel as [|fuel IH]; intros f2 R I chunk sd dst HRI Hsd Hfuel Hf2.
  all: assert (HL : 1 <= stream_len cap sd I) by (unfold stream_len; nia).
  { lia. }
  destruct f2 as [|f2]; [lia|].
  set (V := stream_val cap chunk sd I) in *.
  set (L := stream_len cap sd I) in *.
  pose proof (indexed_nil_iff _ _ HRI) as Hnil.
  cbn [unpack_codes stream_codes].
  destruct (decide (cap - sd = dead_bits /\ R = [])) as [[HA1 HA2]|HnotA].
  - (* only the padding is left *)
    assert (I = []) as HI by tauto.
    assert (L = dead_bits) as HLd by (subst L; unfold stream_len; rewrite HI; cbn; lia).
    destruct (Z.eqb_spec L dead_bits); [|lia].
    destruct (Z.leb_spec L cap); [|lia]. cbn [andb].
    cbn [unpack_code]. destruct (Z.ltb_spec 0 bit_depth); [|lia]. cbn [negb].
    rewrite wsub_small by (rewrite size_mod_eq; lia).
    destruct (Z.eqb_spec (cap - sd) dead_bits); [|lia]. rewrite HA2. cbn.
    by rewrite app_nil_r.
  - assert ((L =? dead_bits) && (L <=? cap) = false) as ->.
    { destruct (Z.eqb_spec L dead_bits); [|done].
      destruct (Z.leb_spec L cap); [|done]. exfalso. apply HnotA.
      assert (I = []) as HI.
      { destruct I; [done|]. subst L. unfold stream_len in *. cbn [length] in *. nia. }
      split; [|tauto]. subst L. unfold stream_len in *. rewrite HI in *. cbn in *. lia. }
    destruct (unpack_code_spec bit_depth dead_bits Hbd (S fuel) R I chunk sd 0 0 HRI Hsd
                ltac:(lia) ltac:(cbn; lia) ltac:(tauto) ltac:(lia))
      as (st & Hrun & Hst).
    fold V L in Hrun, Hst. rewrite Hrun. cbn [obind].
    rewrite Z.sub_0_r, Z.add_0_l, Z.pow_0_r, Z.mul_1_l in *.
    destruct (Z.ltb_spec 0 (Z.min L bit_depth)); [|lia].
    destruct (Z.leb_spec L bit_depth) as [Hle|Hgt].
    + rewrite Hst. replace (Z.min L bit_depth) with L by lia.
      rewrite Z.mod_small by (apply stream_val_bounds; lia). done.
    + destruct Hst as (-> & I' & HRI' & Hsd' & HV' & HL').
      replace (Z.min L bit_depth) with bit_depth in * by lia.
      rewrite (IH f2 _ I' _ _ _ HRI' Hsd') by lia.
      rewrite HV', HL', <- app_assoc. done.
Qed.

(** The request of [unpack_bits] to [reserve] is granted when the header
    declares no more dead bits than the payload has bits. *)
Lemma reserve_out_length n bit_depth dead_bits :
  0 <= cap -> 0 <= n -> 1 <= bit_depth -> 0 <= dead_bits <= cap * n ->
  reserve (cap * n + 1) (wadd (wsub (wmul cap n) dead_bits / bit_depth) 1) = Ok tt.
Proof.
  intros Hc Hn Hbd Hdead. unfold reserve.
  destruct (Z.leb_spec (wadd (wsub (wmul cap n) dead_bits / bit_depth) 1) (cap * n + 1))
    as [|Hgt]; [done|exfalso].
  revert Hgt. unfold wadd, wsub, wmul.
  assert (HM : 0 < size_mod) by done. generalize dependent size_mod. intros M HM Hgt.
  pose proof (Z.mod_pos_bound ((cap * n mod M - dead_bits) mod M / bit_depth + 1) M HM).
  destruct (Z_lt_le_dec (cap * n) M) as [Hsmall|Hbig]; [|lia].
  rewrite (Z.mod_small (cap * n)) in Hgt by nia.
  rewrite (Z.mod_small (cap * n - dead_bits)) in Hgt by lia.
  assert ((cap * n - dead_bits) / bit_depth <= cap * n - dead_bits).
  { apply Z.div_le_upper_bound; nia. }
  assert (0 <= (cap * n - dead_bits) / bit_depth) by (apply Z.div_pos; lia).
  pose proof (Z.mod_le ((cap * n - dead_bits) / bit_depth + 1) M ltac:(lia) HM).
  lia.
Qed.

(** [unpack_bits] on a stream of member symbols whose header gives a bit
    depth that fits [size_t]: after [reserve], the result is the codes of the
    payload bits. *)
Lemma unpack_bits_run s0 s1 s2 R bit_depth dead_bits chunk I dst :
  1 <= cap -> 1 <= bit_depth <= 64 ->
  index_of_symbol PackDict s0 = Ok bit_depth ->
  index_of_symbol PackDict s1 = Ok dead_bits ->
  index_of_symbol PackDict s2 = Ok chunk ->
  indexed R I ->
  unpack_bits PackDict (s0 :: s1 :: s2 :: R) dst =
    (_ <-- reserve (cap * vsize (chunk :: I) + 1)
             (wadd (wsub (wmul cap (vsize (chunk :: I))) dead_bits / bit_depth) 1) ;
     Ok (stream_codes (Z.to_nat (cap * vsize (chunk :: I))) cap bit_depth dead_bits
           (digits_val cap (chunk :: I)) (cap * vsize (chunk :: I)))).
Proof.
  intros Hcap1 Hbd H0 H1 H2 HRI. destruct bit_capacity_bounds as [Hc Hlen].
  unfold unpack_bits. rewrite Hcap. cbn [obind]. rewrite H0. cbn [obind].
  rewrite H1. cbn [obind]. unfold udiv.
  destruct (Z.eqb_spec bit_depth 0); [lia|]. cbn [obind].
  assert (Hsz : vsize (s2 :: R) = vsize (chunk :: I)).
  { unfold vsize. cbn [length]. by rewrite (Forall2_length _ _ _ HRI). }
  rewrite Hsz.
  destruct (reserve _ _) as [[]| | |]; cbn [obind]; try done.
  rewrite H2. cbn [obind].
  assert (Hlen' : vsize (s2 :: R) = 1 + vsize I).
  { unfold vsize. cbn [length]. rewrite (Forall2_length _ _ _ HRI). lia. }
  assert (HvI : vsize (chunk :: I) = 1 + vsize I) by (unfold vsize; cbn [length]; lia).
  assert (0 <= vsize I) by (unfold vsize; lia).
  rewrite (unpack_codes_spec bit_depth dead_bits Hbd _
             (Z.to_nat (cap * vsize (chunk :: I))) R I chunk 0 [] HRI).
  - cbn [app]. f_equal. f_equal.
    + unfold stream_val. cbn [digits_val]. by rewrite Z.pow_0_r, Z.div_1_r, Z.sub_0_r.
    + unfold stream_len. rewrite HvI. unfold vsize. lia.
  - lia.
  - unfold unpack_fuel, stream_len. rewrite <- Hsz, Hlen'. unfold vsize in *. nia.
  - unfold stream_len. rewrite HvI. unfold vsize in *. nia.
Qed.

Lemma unpack_bits_spec s0 s1 s2 R bit_depth dead_bits chunk I dst :
  1 <= cap -> 1 <= bit_depth <= 64 ->
  index_of_symbol PackDict s0 = Ok bit_depth ->
  index_of_symbol PackDict s1 = Ok dead_bits ->
  index_of_symbol PackDict s2 = Ok chunk ->
  indexed R I ->
  dead_bits <= cap * vsize (chunk :: I) ->
  unpack_bits PackDict (s0 :: s1 :: s2 :: R) dst =
    Ok (stream_codes (Z.to_nat (cap * vsize (chunk :: I))) cap bit_depth dead_bits
          (digits_val cap (chunk :: I)) (cap * vsize (chunk :: I))).
Proof.
  intros Hcap1 Hbd H0 H1 H2 HRI Hdead.
  rewrite (unpack_bits_run s0 s1 s2 R bit_depth dead_bits chunk I) by done.
  destruct (symbol_by_index_of_symbol PackDict s1 dead_bits Hwf H1) as [? _].
  rewrite reserve_out_length; [done|lia|unfold vsize; lia|lia|lia].
Qed.

(** The codes of the stream [pack_bits] writes are the packed codes. *)
Lemma stream_codes_packed bit_depth dead_bits :
  1 <= bit_depth -> 0 <= dead_bits < cap ->
  forall src fuel,
  Forall (fun c => 0 <= c < 2 ^ bit_depth) src -> src <> [] ->
  bit_depth * vsize src + dead_bits <= Z.of_nat fuel ->
  stream_codes fuel cap bit_depth dead_bits
    (digits_val bit_depth src) (bit_depth * vsize src + dead_bits) = src.
Proof.
  intros Hbd Hdead. unfold vsize.
  induction src as [|c src IH]; intros fuel Hsrc Hne Hfuel; [done|].
  apply Forall_cons in Hsrc as [Hc Hsrc]. cbn [length] in *.
  rewrite Nat2Z.inj_succ in *.
  assert (0 < 2 ^ bit_depth) by (apply Z.pow_pos_nonneg; lia).
  destruct fuel as [|fuel]; [nia|]. cbn [stream_codes digits_val].
  destruct (Z.eqb_spec (bit_depth * Z.succ (Z.of_nat (length src)) + dead_bits) dead_bits);
    [nia|]. cbn [andb].
  rewrite (Z.mod_small c) by lia.
  destruct (Z.leb_spec (bit_depth * Z.succ (Z.of_nat (length src)) + dead_bits) bit_depth)
    as [Hle|Hgt].
  - assert (src = []) as -> by (destruct src; [done|cbn [length] in Hle; nia]).
    cbn. f_equal. lia.
  - rewrite (Z.mul_comm (2 ^ bit_depth)), Z.div_add, Z.mod_add by lia.
    rewrite Z.mod_small, Z.div_small by lia. f_equal.
    replace (bit_depth * Z.succ (Z.of_nat (length src)) + dead_bits - bit_depth)
      with (bit_depth * Z.of_nat (length src) + dead_bits) by lia.
    destruct src as [|c' src'].
    + cbn [length digits_val] in *. rewrite Z.mul_0_r, !Z.add_0_l.
      destruct fuel as [|fuel]; [nia|]. cbn [stream_codes].
      rewrite Z.eqb_refl. destruct (Z.leb_spec dead_bits cap); [done|lia].
    + rewrite Z.add_0_l. apply IH; [done|done|lia].
Qed.

End bit_packing.

Lemma bit_capacity_total PackDict :
  wf_dict PackDict = true ->
  bit_capacity PackDict = Ok (Z.log2 (dict_length PackDict)).
Proof.
  intros Hwf. pose proof (wf_dict_length _ Hwf). unfold bit_capacity.
  by rewrite log2_floor_spec by lia.
Qed.

(** The header and payload [pack_bits] writes, and what [unpack_bits] makes
    of them. *)
Lemma pack_unpack_bits PackDict (src : codes_vec) (bit_depth : Z) :
  wf_dict PackDict = true ->
  1 <= bit_depth <= 64 -> bit_depth < dict_length PackDict ->
  src <> [] -> Forall (fun c => 0 <= c < 2 ^ bit_depth) src ->
  bit_depth * vsize src < size_mod ->
  exists cap dead_bits D,
    bit_capacity PackDict = Ok cap /\ 1 <= cap /\
    0 <= dead_bits < cap /\
    cap * vsize D = bit_depth * vsize src + dead_bits /\
    pack_bits PackDict src bit_depth =
      (symbol_at PackDict bit_depth :: symbol_at PackDict dead_bits ::
         map (symbol_at PackDict) D, Ok tt) /\
    forall dst,
      unpack_bits PackDict
        (symbol_at PackDict bit_depth :: symbol_at PackDict dead_bits ::
           map (symbol_at PackDict) D) dst = Ok src.
Proof.
  intros Hwf Hbd Hbdlen Hne Hsrc Hsize.
  pose proof (bit_capacity_total _ Hwf) as Hcap.
  set (cap := Z.log2 (dict_length PackDict)) in *.
  destruct (bit_capacity_bounds PackDict Hwf cap Hcap) as [Hc Hlen].
  assert (Hcap1 : 1 <= cap).
  { subst cap. apply Z.log2_le_pow2; [lia|]. cbn. lia. }
  assert (Hsrc0 : Forall (fun c => 0 <= c) src).
  { eapply Forall_impl; [done|]. cbn. lia. }
  destruct (pack_bits_spec PackDict Hwf cap Hcap src bit_depth)
    as (D & dead & Hpack & HD & Hdead & HlenD & Hval); try done.
  exists cap, dead, D. do 4 (split; [done|]). split; [done|].
  intros dst.
  pose proof (Z.pow_gt_lin_r 2 cap ltac:(lia) ltac:(lia)) as Hcaplt.
  assert (Hn : 1 <= vsize src) by (destruct src; [done|unfold vsize; cbn; lia]).
  destruct D as [|d0 D]; [cbn in HlenD; nia|].
  apply Forall_cons in HD as [Hd0 HD]. cbn [map].
  rewrite (unpack_bits_spec PackDict Hwf cap Hcap _ _ _ _ bit_depth dead d0 D); try done.
  - unfold vsize at 1 2. rewrite Hval, HlenD. f_equal.
    apply (stream_codes_packed cap); try done; lia.
  - apply symbol_at_ok; [done|lia].
  - apply symbol_at_ok; [done|lia].
  - apply symbol_at_ok; [done|lia].
  - unfold indexed. apply Forall2_fmap_l, Forall_Forall2_diag.
    eapply Forall_impl; [exact HD|]. intros d Hd. cbn beta in Hd.
    apply symbol_at_ok; [done|lia].
  - unfold vsize in *. nia.
Qed.

(** ** The base dictionaries *)

Section base_dictionaries.

Variable IODict : piecewise_range.
Hypothesis Hwf : wf_dict IODict = true.

Lemma symbol_at_inj i j :
  0 <= i < dict_length IODict -> 0 <= j < dict_length IODict ->
  symbol_at IODict i = symbol_at IODict j -> i = j.
Proof.
  intros Hi Hj Heq.
  destruct (symbol_at_ok IODict Hwf i Hi) as [_ H1].
  destruct (symbol_at_ok IODict Hwf j Hj) as [_ H2].
  rewrite Heq in H1. congruence.
Qed.

Lemma index_of_symbol_at s i :
  index_of_symbol IODict s = Ok i ->
  0 <= i < dict_length IODict /\ s = symbol_at IODict i.
Proof.
  intros Hs. destruct (symbol_by_index_of_symbol _ _ _ Hwf Hs) as [Hi Hsym].
  split; [done|]. unfold symbol_at. by rewrite Hsym.
Qed.

Local Abbreviation base_upto := (base_upto IODict).
Local Abbreviation base_rdict := (base_rdict IODict).

Lemma encode_dict_loop_spec n :
  forall k E,
  0 <= k -> k + Z.of_nat n <= dict_length IODict -> base_upto k E ->
  exists E', encode_dict_loop IODict n k E = Ok E' /\ base_upto (k + Z.of_nat n) E'.
Proof.
  pose proof (wf_dict_length _ Hwf) as HN.
  induction n as [|n IH]; intros k E Hk Hn [Hsize HE].
  - exists E. split; [done|]. by rewrite Z.add_0_r.
  - cbn [encode_dict_loop].
    destruct (symbol_at_ok IODict Hwf k ltac:(lia)) as [-> _]. cbn [obind].
    assert (Hnone : E !! [symbol_at IODict k] = None).
    { destruct (E !! [symbol_at IODict k]) as [c|] eqn:Hc; [|done].
      apply HE in Hc as [Hc1 Hc2]. injection Hc2 as Hc2.
      apply symbol_at_inj in Hc2; lia. }
    unfold map_emplace. rewrite Hnone. cbn [fst].
    rewrite wadd_small by lia.
    destruct (IH (k + 1) (<[[symbol_at IODict k] := k]> E)) as (E' & Hrun & HE');
      [lia|lia| |].
    + split.
      * unfold map_size in *. rewrite map_size_insert_None by done. lia.
      * intros p c. destruct (decide (p = [symbol_at IODict k])) as [->|Hne].
        -- rewrite lookup_insert_eq. split.
           ++ intros [= <-]. split; [lia|done].
           ++ intros [Hc [= Heq]]. f_equal.
              destruct (Z.eq_dec c k) as [->|Hck]; [done|].
              apply symbol_at_inj in Heq; lia.
        -- rewrite lookup_insert_ne by done. rewrite HE. split.
           ++ intros [? ?]. split; [lia|done].
           ++ intros [Hc ->]. split; [|done].
              destruct (Z.eq_dec c k) as [->|Hck]; [done|lia].
    + exists E'. split; [done|].
      replace (k + Z.of_nat (S n)) with (k + 1 + Z.of_nat n) by lia. done.
Qed.

Lemma encode_dict_spec :
  exists E, encode_dict IODict = Ok E /\ base_upto (dict_length IODict) E.
Proof.
  pose proof (wf_dict_length _ Hwf) as HN.
  destruct (encode_dict_loop_spec (Z.to_nat (dict_length IODict)) 0 ∅) as (E & Hrun & HE);
    [lia|lia| |].
  - split; [done|]. intros p c. rewrite lookup_empty. split; [done|lia].
  - exists E. split; [done|]. by rewrite Z.add_0_l, Z2Nat.id in HE by lia.
Qed.

Lemma decode_dict_loop_spec n :
  forall k R,
  0 <= k -> k + Z.of_nat n <= dict_length IODict ->
  decode_dict_loop IODict n k R =
    Ok (R ++ ((fun c => [symbol_at IODict c]) <$> seqZ k (Z.of_nat n))).
Proof.
  pose proof (wf_dict_length _ Hwf) as HN.
  induction n as [|n IH]; intros k R Hk Hn.
  - cbn. by rewrite app_nil_r.
  - cbn [decode_dict_loop].
    destruct (symbol_at_ok IODict Hwf k ltac:(lia)) as [-> _]. cbn [obind].
    rewrite wadd_small by lia. rewrite IH by lia.
    rewrite <- app_assoc. cbn [app]. rewrite Nat2Z.inj_succ.
    rewrite (seqZ_cons k) by lia. rewrite fmap_cons.
    replace (Z.succ k) with (k + 1) by lia.
    replace (Z.pred (Z.succ (Z.of_nat n))) with (Z.of_nat n) by lia. done.
Qed.

Lemma decode_dict_spec : decode_dict IODict = Ok base_rdict.
Proof.
  pose proof (wf_dict_length _ Hwf) as HN. unfold decode_dict.
  rewrite decode_dict_loop_spec by lia. cbn [app]. unfold base_rdict.
  by rewrite Z2Nat.id by lia.
Qed.

Lemma base_rdict_length : vsize base_rdict = dict_length IODict.
Proof.
  pose proof (wf_dict_length _ Hwf) as HN. unfold vsize, base_rdict.
  rewrite length_fmap, length_seqZ. lia.
Qed.

Lemma base_rdict_lookup (c : nat) p :
  base_rdict !! c = Some p <->
  Z.of_nat c < dict_length IODict /\ p = [symbol_at IODict (Z.of_nat c)].
Proof.
  unfold base_rdict. rewrite list_lookup_fmap. split.
  - intros (i & Hi & ->)%fmap_Some. apply lookup_seqZ in Hi as [-> Hlt].
    split; [lia|]. by rewrite Z.add_0_l.
  - intros [Hlt ->]. rewrite (lookup_seqZ_lt 0) by lia. by rewrite Z.add_0_l.
Qed.

End base_dictionaries.

(** ** [encode] and [decode] on codes *)

Section lzw.

Variable IODict : piecewise_range.
Hypothesis Hwf : wf_dict IODict = true.

Local Abbreviation lzw_inv := (lzw_inv IODict).
Local Abbreviation member := (member IODict).

Lemma wbind_lift_Ok {O A B} (a : A) (k : A -> writer O B) :
  (x <~~ lift (Ok a) ; k x) = k a.
Proof. unfold wbind, lift. by destruct (k a). Qed.

Lemma vec_at_lookup {A} (v : list A) (i : Z) x :
  v !! Z.to_nat i = Some x -> vec_at v i = Ok x.
Proof. unfold vec_at. by intros ->. Qed.

(** [decode] reads the code [encode] emits for its phrase [h :: t]: it writes the
    phrase and adds the entry it was lagging by. *)
Lemma decode_loop_step E next R old q h t cw cs :
  lzw_inv E next R old q h -> E !! (h :: t) = Some cw ->
  let R' := R ++ [q ++ [h]] in
  decode_loop (cw :: cs) R old =
    (_ <~~ copy (h :: t) ; decode_loop cs R' cw) /\
  R' !! Z.to_nat cw = Some (h :: t) /\ 0 <= cw <= next - 1.
Proof.
  intros [Hnext Hknown [Hold Hq] Hpend Hdom Hbase] Hcw R'.
  cbn [decode_loop]. rewrite (vec_at_lookup _ _ _ Hq), wbind_lift_Ok.
  destruct (Hknown _ _ Hq) as [Hqne _].
  destruct (Hdom _ _ Hcw) as [[Hc0 Hc]|[-> Heq]].
  - pose proof (lookup_lt_Some _ _ _ Hc) as Hlt.
    destruct (Z.ltb_spec cw (vsize R)); [|unfold vsize in *; lia].
    rewrite (vec_at_lookup _ _ _ Hc), wbind_lift_Ok.
    rewrite (vec_at_lookup (h :: t) 0 h eq_refl), wbind_lift_Ok.
    split; [done|]. split; [subst R'; by rewrite lookup_app_l|unfold vsize in *; lia].
  - destruct (Z.ltb_spec (next - 1) (vsize R)); [lia|].
    destruct q as [|h' q']; [done|]. injection Heq as <- ->.
    rewrite (vec_at_lookup (h :: q') 0 h eq_refl), wbind_lift_Ok.
    split; [done|]. split; [|pose proof (Zle_0_nat (length R)); unfold vsize in *; lia].
    subst R'. rewrite <- Hnext. unfold vsize. rewrite Nat2Z.id.
    rewrite lookup_app_r by done. by rewrite Nat.sub_diag.
Qed.

(** The codes [encode] emits from a related state are codes from which
    [decode] writes the phrase held followed by the rest of the input. *)
Lemma encode_decode_loop first :
  forall E next R old q h t max_code codes,
  lzw_inv E next R old q h -> is_Some (E !! (h :: t)) ->
  Forall member first ->
  next + vsize first < size_mod ->
  exists cs,
    encode_loop first E next (h :: t) max_code codes =
      Ok (Z.max max_code (max_code_of cs), codes ++ cs) /\
    decode_loop cs R old = ((h :: t) ++ first, Ok tt) /\
    cs <> [] /\ Forall (fun c => 0 <= c < next + vsize first) cs /\
    vsize cs <= 1 + vsize first.
Proof.
  unfold vsize.
  induction first as [|curr first IH];
    intros E next R old q h t max_code codes Hinv [cw Hcw] Hfirst Hsize.
  - exists [cw]. cbn [encode_loop]. unfold emplace_code, map_at. rewrite Hcw.
    cbn [obind max_code_of foldr].
    destruct (decode_loop_step E next R old q h t cw [] Hinv Hcw) as (Hstep & _ & Hc).
    rewrite Hstep. cbn. rewrite app_nil_r.
    split; [by rewrite (Z.max_l cw 0) by lia|]. split; [done|]. split; [done|].
    split; [constructor; [lia|done]|]. cbn [length]. lia.
  - apply Forall_cons in Hfirst as [[i Hcurr] Hfirst]. cbn [length] in Hsize.
    cbn [encode_loop]. unfold map_emplace.
    destruct (E !! ((h :: t) ++ [curr])) as [c|] eqn:Htmp; cbn [negb].
    + (* the phrase grows *)
      destruct (IH E next R old q h (t ++ [curr]) max_code codes Hinv)
        as (cs & Hrun & Hdec & Hne & Hcs & Hlen); [by eexists|done|lia|].
      exists cs. split; [done|]. split.
      { rewrite Hdec. by rewrite <- !app_comm_cons, <- app_assoc. }
      split; [done|]. split; [|cbn [length]; lia]. eapply Forall_impl; [done|]. cbn. lia.
    + (* a new entry, and the code of the phrase *)
      destruct (decode_loop_step E next R old q h t cw [] Hinv Hcw) as (_ & HR' & Hc).
      pose proof Hinv as [Hnext Hknown [Hold Hq] Hpend Hdom Hbase].
      pose proof (Zle_0_nat (length R)). unfold vsize in Hnext.
      unfold emplace_code, map_at. rewrite lookup_insert_ne by congruence.
      rewrite Hcw. cbn [obind]. rewrite wadd_small by lia.
      destruct (IH (<[(h :: t) ++ [curr] := next]> E) (next + 1)
                  (R ++ [q ++ [h]]) cw (h :: t) curr [] (Z.max max_code cw) (codes ++ [cw]))
        as (cs & Hrun & Hdec & Hne & Hcs & Hlen).
      * constructor.
        -- unfold vsize. rewrite length_app. cbn [length]. lia.
        -- intros c p [Hp|[Hlen Hp]]%lookup_app_Some.
           ++ destruct (Hknown _ _ Hp) as [? Hpc]. split; [done|].
              rewrite lookup_insert_ne; [done|congruence].
           ++ destruct (c - length R)%nat eqn:Hd; [|by destruct n].
              injection Hp as <-. split; [by destruct q|].
              rewrite lookup_insert_ne by congruence. rewrite Hpend. f_equal. lia.
        -- split; [lia|exact HR'].
        -- rewrite lookup_insert_eq. f_equal. lia.
        -- intros p c. destruct (decide (p = (h :: t) ++ [curr])) as [->|Hp].
           ++ rewrite lookup_insert_eq. intros [= <-]. right. split; [lia|done].
           ++ rewrite lookup_insert_ne by done. intros Hpc. left.
              destruct (Hdom _ _ Hpc) as [[Hc0 Hl]|[-> ->]].
              ** split; [done|]. by rewrite lookup_app_l by (by eapply lookup_lt_Some).
              ** split; [lia|]. rewrite <- Hnext, Nat2Z.id.
                 rewrite lookup_app_r by done. by rewrite Nat.sub_diag.
        -- intros s j Hs. rewrite lookup_insert_ne; [by apply Hbase|].
           intros Heq. rewrite Heq, (Hbase _ _ Hs) in Htmp. done.
      * exists i. rewrite lookup_insert_ne; [by eapply Hbase|].
        intros Heq. rewrite Heq, (Hbase _ _ Hcurr) in Htmp. done.
      * done.
      * lia.
      * exists (cw :: cs). rewrite Hrun, <- app_assoc. cbn [app max_code_of foldr].
        split; [by rewrite Z.max_assoc|]. split.
        { destruct (decode_loop_step E next R old q h t cw cs Hinv Hcw) as (-> & _ & _).
          rewrite Hdec. done. }
        split; [done|]. split; [|cbn [length]; lia]. constructor; [lia|].
        eapply Forall_impl; [done|]. cbn. lia.
Qed.

(** [log2_ceil x] is the least [d >= 1] with [x <= 2^d]. *)
Lemma log2_ceil_least x :
  1 <= x < size_mod ->
  exists bd, log2_ceil x = Ok bd /\ 1 <= bd <= 64 /\ x <= 2 ^ bd /\
    forall d, 1 <= d -> x <= 2 ^ d -> bd <= d.
Proof.
  intros Hx. destruct (Z.eq_dec x 1) as [->|Hne].
  - exists 1. split; [done|]. split; [lia|]. split; [done|]. intros; lia.
  - exists (Z.log2 (x - 1) + 1). rewrite log2_ceil_spec by lia.
    pose proof (Z.log2_spec (x - 1) ltac:(lia)) as [Hlo Hhi].
    pose proof (Z.log2_nonneg (x - 1)).
    assert (Z.log2 (x - 1) < 64) by (apply Z.log2_lt_pow2; rewrite <- ?size_mod_eq; lia).
    replace (Z.succ (Z.log2 (x - 1))) with (Z.log2 (x - 1) + 1) in Hhi by lia.
    split; [done|]. split; [lia|]. split; [lia|].
    intros d Hd Hxd. assert (Z.log2 (x - 1) < d); [|lia].
    apply Z.log2_lt_pow2; lia.
Qed.

(** The pass of [encode] over a non-empty input of member symbols: it emits
    codes from which [decode_codes] writes the input back, and chooses the
    bit depth [log2_ceil(max_code + 1)], [max_code] being the largest of the
    emitted codes and of the last base code. *)
Lemma encode_codes_spec s first :
  member s -> Forall member first ->
  dict_length IODict + vsize (s :: first) < size_mod ->
  exists codes bit_depth,
    encode_codes IODict s first = Ok (codes, bit_depth) /\
    log2_ceil (Z.max (dict_length IODict - 1) (max_code_of codes) + 1) = Ok bit_depth /\
    codes <> [] /\
    Forall (fun c => 0 <= c < dict_length IODict + vsize first) codes /\
    vsize codes <= vsize (s :: first) /\
    decode_codes IODict codes = (s :: first, Ok tt).
Proof.
  intros [i Hs] Hfirst Hsize. unfold vsize in *. cbn [length] in Hsize.
  pose proof (wf_dict_length _ Hwf) as HN.
  destruct (encode_dict_spec IODict Hwf) as (E0 & HE0 & Hsz & HE).
  destruct (index_of_symbol_at IODict Hwf _ _ Hs) as [Hi ->].
  assert (HEi : E0 !! [symbol_at IODict i] = Some i) by (apply HE; done).
  assert (HRi : base_rdict IODict !! Z.to_nat i = Some [symbol_at IODict i]).
  { apply base_rdict_lookup. rewrite Z2Nat.id by lia. split; [lia|done]. }
  (* what is left to show once the codes are known *)
  assert (Hfinish : forall codes,
    encode_loop first E0 (dict_length IODict) [symbol_at IODict i]
      (dict_length IODict - 1) [] =
      Ok (Z.max (dict_length IODict - 1) (max_code_of codes), codes) ->
    Forall (fun c => 0 <= c < dict_length IODict + Z.of_nat (length first)) codes ->
    exists bit_depth,
      encode_codes IODict (symbol_at IODict i) first = Ok (codes, bit_depth) /\
      log2_ceil (Z.max (dict_length IODict - 1) (max_code_of codes) + 1) = Ok bit_depth).
  { intros codes Hrun Hcodes. unfold encode_codes. rewrite HE0. cbn [obind].
    rewrite Hsz, wsub_small, Hrun by lia. cbn [obind].
    assert (Hmax : 0 <= max_code_of codes <= dict_length IODict + Z.of_nat (length first)).
    { clear Hrun. induction Hcodes as [|c cs Hc _ IH]; cbn [max_code_of foldr]; [lia|].
      unfold max_code_of in IH. lia. }
    rewrite wadd_small by lia.
    destruct (log2_ceil_least (Z.max (dict_length IODict - 1) (max_code_of codes) + 1))
      as (bd & Hbd & _); [lia|].
    exists bd. rewrite Hbd. done. }
  assert (Hdecode : forall cs,
    decode_loop cs (base_rdict IODict) i = (first, Ok tt) ->
    decode_codes IODict (i :: cs) = (symbol_at IODict i :: first, Ok tt)).
  { intros cs Hdec. unfold decode_codes.
    rewrite (decode_dict_spec IODict Hwf), wbind_lift_Ok.
    rewrite (vec_at_lookup (i :: cs) 0 i eq_refl), wbind_lift_Ok.
    rewrite (vec_at_lookup _ _ _ HRi), wbind_lift_Ok. cbn [tail].
    rewrite Hdec. done. }
  destruct first as [|s1 rest].
  - destruct (Hfinish [i]) as (bd & Hrun & Hbd).
    { cbn [encode_loop]. unfold emplace_code, map_at. rewrite HEi. cbn.
      by rewrite (Z.max_l i 0) by lia. }
    { constructor; [cbn [length]; lia|done]. }
    exists [i], bd. split; [done|]. split; [done|]. split; [done|].
    split; [constructor; [cbn [length]; lia|done]|]. split; [cbn [length]; lia|].
    by apply Hdecode.
  - apply Forall_cons in Hfirst as [[i1 Hs1] Hrest]. cbn [length] in *.
    destruct (index_of_symbol_at IODict Hwf _ _ Hs1) as [Hi1 ->].
    set (tmp := [symbol_at IODict i; symbol_at IODict i1]).
    assert (Htmp : E0 !! tmp = None).
    { destruct (E0 !! tmp) eqn:Hl; [|done]. by apply HE in Hl as [_ [=]]. }
    set (E1 := <[tmp := dict_length IODict]> E0).
    destruct (encode_decode_loop rest E1 (dict_length IODict + 1)
                (base_rdict IODict) i [symbol_at IODict i] (symbol_at IODict i1) []
                (Z.max (dict_length IODict - 1) i) [i])
      as (cs & Hrun & Hdec & Hne & Hcs & Hlen).
    + constructor.
      * rewrite (base_rdict_length IODict Hwf). lia.
      * intros c p [Hc ->]%base_rdict_lookup. split; [done|].
        subst E1. rewrite lookup_insert_ne by done. apply HE. split; [lia|done].
      * split; [lia|done].
      * subst E1 tmp. cbn [app]. rewrite lookup_insert_eq. f_equal. lia.
      * intros p c. subst E1. destruct (decide (p = tmp)) as [->|Hp].
        -- rewrite lookup_insert_eq. intros [= <-]. right. split; [lia|done].
        -- rewrite lookup_insert_ne by done. intros [Hc ->]%HE. left.
           split; [lia|]. apply base_rdict_lookup.
           rewrite Z2Nat.id by lia. split; [lia|done].
      * intros s j Hsj. destruct (index_of_symbol_at IODict Hwf _ _ Hsj) as [Hj ->].
        subst E1. rewrite lookup_insert_ne by done. apply HE. done.
    + exists i1. subst E1. rewrite lookup_insert_ne by done. apply HE. done.
    + done.
    + unfold vsize. lia.
    + destruct (Hfinish (i :: cs)) as (bd & Hrun' & Hbd).
      { cbn [encode_loop]. unfold map_emplace.
        change ([symbol_at IODict i] ++ [symbol_at IODict i1]) with tmp.
        rewrite Htmp. cbn [negb].
        fold E1. unfold emplace_code, map_at. subst E1.
        rewrite lookup_insert_ne by done. rewrite HEi. cbn [obind].
        rewrite wadd_small by lia. cbn [app]. rewrite Hrun. cbn [app max_code_of foldr].
        by rewrite Z.max_assoc. }
      { constructor; [lia|]. eapply Forall_impl; [done|]. unfold vsize. cbn. lia. }
      exists (i :: cs), bd. split; [done|]. split; [done|]. split; [done|].
      split; [constructor; [lia|]; eapply Forall_impl; [done|]; unfold vsize; cbn; lia|].
      split; [unfold vsize in Hlen; cbn [length]; lia|].
      by apply Hdecode.
Qed.

End lzw.

(** ** [encode] and [decode] *)

Lemma max_code_of_ge codes :
  Forall (fun c => c <= max_code_of codes) codes.
Proof.
  induction codes as [|c cs IH]; [done|]. cbn [max_code_of foldr].
  constructor; [lia|]. eapply Forall_impl; [exact IH|]. unfold max_code_of. cbn. lia.
Qed.

Lemma max_code_of_bounds codes n :
  0 <= n -> Forall (fun c => 0 <= c < n) codes -> 0 <= max_code_of codes <= n.
Proof.
  intros Hn. induction 1 as [|c cs Hc _ IH]; cbn [max_code_of foldr]; [lia|].
  unfold max_code_of in IH. lia.
Qed.

Lemma encode_unfold IODict PackDict s first codes bit_depth :
  encode_codes IODict s first = Ok (codes, bit_depth) ->
  encode IODict PackDict (s :: first) =
    if size_bits <? bit_depth
    then throw (logic_error "lzw_codec: bit_depth > log2(size_t)") else
    if dict_length PackDict <=? bit_depth
    then throw (logic_error "lzw_codec: bit_depth > PackDict::length") else
    pack_bits PackDict codes bit_depth.
Proof.
  intros Hcodes. unfold encode. rewrite Hcodes, wbind_lift_Ok. done.
Qed.

(** What the pass of [encode] over an encodable, non-empty input gives. *)
Lemma encode_pass IODict s first :
  wf_dict IODict = true -> encodable IODict (s :: first) ->
  exists codes bit_depth,
    encode_codes IODict s first = Ok (codes, bit_depth) /\
    log2_ceil (Z.max (dict_length IODict - 1) (max_code_of codes) + 1) = Ok bit_depth /\
    1 <= bit_depth <= 64 /\
    codes <> [] /\ Forall (fun c => 0 <= c < 2 ^ bit_depth) codes /\
    bit_depth * vsize codes < size_mod /\
    Z.max (dict_length IODict - 1) (max_code_of codes)
      < dict_length IODict + vsize (s :: first) /\
    decode_codes IODict codes = (s :: first, Ok tt).
Proof.
  intros Hwf [Hmem Hfit]. pose proof (wf_dict_length _ Hwf) as HN.
  apply Forall_cons in Hmem as [Hs Hfirst].
  assert (Hlen : 0 <= vsize first /\ vsize (s :: first) = vsize first + 1).
  { unfold vsize. cbn [length]. lia. }
  unfold size_bits in Hfit.
  destruct (encode_codes_spec IODict Hwf s first Hs Hfirst ltac:(lia))
    as (codes & bd & Hrun & Hbd & Hne & Hcodes & Hcount & Hdec).
  pose proof (max_code_of_bounds codes (dict_length IODict + vsize first)
                ltac:(lia) Hcodes) as Hmax.
  set (m := Z.max (dict_length IODict - 1) (max_code_of codes)) in *.
  destruct (log2_ceil_least (m + 1) ltac:(lia)) as (bd' & Hbd' & Hr & Hpow & _).
  assert (bd' = bd) as -> by congruence.
  exists codes, bd. do 4 (split; [done|]). split.
  { pose proof (max_code_of_ge codes) as Hge.
    eapply Forall_impl; [apply Forall_and; split; [exact Hcodes|exact Hge]|].
    cbn. lia. }
  split; [nia|]. split; [lia|done].
Qed.

(** ** Packing and unpacking *)

(** C4: for a pack dictionary of disjoint ranges, a bit depth from 1 to the
    width of [size_t] that is an index of the pack dictionary, and a
    non-empty sequence of codes below [2^bit_depth] (whose bit count is a
    [size_t] value), [pack_bits] returns and [unpack_bits] gives the codes
    back from what it wrote. *)
Theorem pack_unpack_roundtrip PackDict (codes : codes_vec) (bit_depth : Z)
    (dst : codes_vec) :
  wf_dict PackDict = true ->
  1 <= bit_depth <= size_bits -> bit_depth < dict_length PackDict ->
  codes <> [] -> Forall (fun c => 0 <= c < 2 ^ bit_depth) codes ->
  bit_depth * vsize codes < size_mod ->
  exists packed,
    pack_bits PackDict codes bit_depth = (packed, Ok tt) /\
    unpack_bits PackDict packed dst = Ok codes.
Proof.
  intros Hwf Hbd Hidx Hne Hcodes Hsize.
  destruct (pack_unpack_bits PackDict codes bit_depth Hwf Hbd Hidx Hne Hcodes Hsize)
    as (cap & dead & D & _ & _ & _ & _ & Hpack & Hunpack).
  eexists. split; [exact Hpack|apply Hunpack].
Qed.

Lemma pack_unpack_roundtrip_witness :
  exists packed,
    pack_bits dictionaries.URI_pack [65; 3; 100] 7 = (packed, Ok tt) /\
    unpack_bits dictionaries.URI_pack packed [] = Ok [65; 3; 100].
Proof.
  apply (pack_unpack_roundtrip dictionaries.URI_pack [65; 3; 100] 7 []).
  - reflexivity.
  - unfold size_bits. lia.
  - vm_compute. reflexivity.
  - discriminate.
  - repeat constructor; lia.
  - vm_compute. reflexivity.
Defined.

(** C6, as stated, fails: the URI codec packs the single 7-bit code of ["A"]
    into two 5-bit symbols and writes [dead_bits = 3], the padding, while
    [(codeCount * bit_depth) mod packCapacity] is [2]. *)
Lemma dead_bits_is_not_bits_mod_capacity :
  encode_codes dictionaries.ASCII_128_common 65 [] = Ok ([65], 7) /\
  bit_capacity dictionaries.URI_pack = Ok 5 /\
  encode dictionaries.ASCII_128_common dictionaries.URI_pack [65] =
    ([55; 51; 49; 50], Ok tt) /\
  index_of_symbol dictionaries.URI_pack 51 = Ok 3 /\
  3 <> (vsize [65] * 7) mod 5.
Proof. vm_compute. repeat split; discriminate. Qed.

(** The outcome of [encode] on an encodable, non-empty input: it throws
    after the pass, having written nothing, when the bit depth is not an
    index of the pack dictionary; otherwise it writes the header and the
    payload, from which [unpack_bits] gives the codes of the pass. *)
Lemma encode_outcome IODict PackDict s first :
  wf_dict IODict = true -> wf_dict PackDict = true ->
  encodable IODict (s :: first) ->
  exists codes bit_depth,
    encode_codes IODict s first = Ok (codes, bit_depth) /\
    1 <= bit_depth <= 64 /\
    decode_codes IODict codes = (s :: first, Ok tt) /\
    ((dict_length PackDict <= bit_depth /\
      encode IODict PackDict (s :: first) =
        ([], Throw (logic_error "lzw_codec: bit_depth > PackDict::length"))) \/
     (bit_depth < dict_length PackDict /\
      exists cap dead_bits D,
        bit_capacity PackDict = Ok cap /\ 1 <= cap /\ 0 <= dead_bits < cap /\
        cap * vsize D = bit_depth * vsize codes + dead_bits /\
        encode IODict PackDict (s :: first) =
          (symbol_at PackDict bit_depth :: symbol_at PackDict dead_bits ::
             map (symbol_at PackDict) D, Ok tt) /\
        forall dst,
          unpack_bits PackDict
            (symbol_at PackDict bit_depth :: symbol_at PackDict dead_bits ::
               map (symbol_at PackDict) D) dst = Ok codes)).
Proof.
  intros Hio Hpack Henc.
  destruct (encode_pass IODict s first Hio Henc)
    as (codes & bd & Hrun & _ & Hbd & Hne & Hcodes & Hsize & _ & Hdec).
  exists codes, bd. do 3 (split; [done|]).
  rewrite (encode_unfold IODict PackDict s first codes bd Hrun). unfold size_bits.
  destruct (Z.ltb_spec 64 bd); [lia|].
  destruct (Z.leb_spec (dict_length PackDict) bd) as [Hle|Hlt]; [left; done|].
  right. split; [done|].
  destruct (pack_unpack_bits PackDict codes bd Hpack Hbd Hlt Hne Hcodes Hsize)
    as (cap & dead & D & ? & ? & ? & ? & ? & ?).
  exists cap, dead, D. done.
Qed.

(** C6, amended: when [encode] returns on a non-empty input, the second
    header symbol is the symbol of index [dead_bits], with
    [0 <= dead_bits < packCapacity] and
    [dead_bits = (- codeCount * bit_depth) mod packCapacity]: the padding
    that fills the payload up to a whole number of symbols. *)
Theorem encode_dead_bits IODict PackDict s first packed :
  wf_dict IODict = true -> wf_dict PackDict = true ->
  encodable IODict (s :: first) ->
  encode IODict PackDict (s :: first) = (packed, Ok tt) ->
  exists codes bit_depth cap dead_bits s0 s1 payload,
    encode_codes IODict s first = Ok (codes, bit_depth) /\
    bit_capacity PackDict = Ok cap /\
    packed = s0 :: s1 :: payload /\
    index_of_symbol PackDict s1 = Ok dead_bits /\
    0 <= dead_bits < cap /\
    dead_bits = (- (vsize codes * bit_depth)) mod cap /\
    cap * vsize payload = vsize codes * bit_depth + dead_bits.
Proof.
  intros Hio Hpack Henc Hrun.
  destruct (encode_outcome IODict PackDict s first Hio Hpack Henc)
    as (codes & bd & Hcodes & Hbd & _ & [[_ Hthrow]|[Hlt Hok]]); [congruence|].
  destruct Hok as (cap & dead & D & Hcap & Hcap1 & Hdead & Hlen & Hout & _).
  rewrite Hout in Hrun. injection Hrun as <-.
  destruct (bit_capacity_bounds PackDict Hpack cap Hcap) as [Hc Hpow].
  pose proof (Z.pow_gt_lin_r 2 cap ltac:(lia) ltac:(lia)) as Hcaplt.
  exists codes, bd, cap, dead, (symbol_at PackDict bd), (symbol_at PackDict dead),
    (map (symbol_at PackDict) D).
  split; [done|]. split; [done|]. split; [done|].
  split; [apply symbol_at_ok; [done|lia]|]. split; [done|]. split.
  - apply (Z.mod_unique _ _ (- vsize D)); [left; lia|lia].
  - unfold vsize in *. rewrite length_map. lia.
Qed.

Lemma encode_dead_bits_witness :
  exists codes bit_depth cap dead_bits s0 s1 payload,
    encode_codes dictionaries.ASCII_128_common 65 [] = Ok (codes, bit_depth) /\
    bit_capacity dictionaries.URI_pack = Ok cap /\
    [55; 51; 49; 50] = s0 :: s1 :: payload /\
    index_of_symbol dictionaries.URI_pack s1 = Ok dead_bits /\
    0 <= dead_bits < cap /\
    dead_bits = (- (vsize codes * bit_depth)) mod cap /\
    cap * vsize payload = vsize codes * bit_depth + dead_bits.
Proof.
  apply (encode_dead_bits dictionaries.ASCII_128_common dictionaries.URI_pack 65 []).
  - reflexivity.
  - reflexivity.
  - split; [repeat constructor; exists 65; reflexivity|vm_compute; reflexivity].
  - vm_compute. reflexivity.
Defined.

(** ** Outcomes of [encode] and [decode] *)

(** C5, as stated, fails: for the input ["A"] the URI codec discovers
    [bit_depth = 7], and [2^7] exceeds the 62 symbols of the output
    alphabet (and the [2^5] values one symbol carries), yet [encode]
    returns. *)
Lemma encode_returns_beyond_alphabet_size :
  encode_codes dictionaries.ASCII_128_common 65 [] = Ok ([65], 7) /\
  dict_length dictionaries.URI_pack = 62 /\
  2 ^ 7 > 62 /\
  encode dictionaries.ASCII_128_common dictionaries.URI_pack [65] =
    ([55; 51; 49; 50], Ok tt).
Proof. vm_compute. repeat split. Qed.

(** C5, amended: on an encodable, non-empty input [encode] fails exactly
    when the discovered [bit_depth] exceeds the width of [size_t] or is not
    below [PackDict::length] (it is not an index of the pack dictionary); the
    exception is thrown after the pass, before anything is written, and
    [encode] fails in no other way. *)
Theorem encode_capacity_exceeded IODict PackDict s first :
  wf_dict IODict = true -> wf_dict PackDict = true ->
  encodable IODict (s :: first) ->
  exists codes bit_depth,
    encode_codes IODict s first = Ok (codes, bit_depth) /\
    ((size_bits < bit_depth \/ dict_length PackDict <= bit_depth) <->
     exists e, encode IODict PackDict (s :: first) = ([], Throw e) /\
               capacity_exceeded e = true) /\
    (~ (size_bits < bit_depth \/ dict_length PackDict <= bit_depth) <->
     exists packed, encode IODict PackDict (s :: first) = (packed, Ok tt)) /\
    forall out r,
      encode IODict PackDict (s :: first) = (out, r) -> r <> Ok tt ->
      out = [] /\ exists e, r = Throw e /\ capacity_exceeded e = true.
Proof.
  intros Hio Hpack Henc.
  destruct (encode_outcome IODict PackDict s first Hio Hpack Henc)
    as (codes & bd & Hcodes & Hbd & _ & [[Hle Hthrow]|[Hlt Hok]]);
    exists codes, bd; (split; [done|]); unfold size_bits.
  - split; [|split].
    + split; [intros _; eexists; split; [exact Hthrow|done]|intros _; lia].
    + split; [lia|intros [packed Hrun]; congruence].
    + intros out r Hrun _. rewrite Hthrow in Hrun. injection Hrun as <- <-.
      split; [done|]. eexists. split; done.
  - destruct Hok as (cap & dead & D & _ & _ & _ & _ & Hout & _).
    split; [|split].
    + split; [lia|intros (e & Hrun & _); congruence].
    + split; [intros _; eexists; exact Hout|intros _; lia].
    + intros out r Hrun Hr. rewrite Hout in Hrun. by injection Hrun as <- <-.
Qed.

Lemma encode_capacity_exceeded_witness :
  exists codes bit_depth,
    encode_codes (PR_one (SymbolRange 48 49)) 48 [48; 48] = Ok (codes, bit_depth) /\
    ((size_bits < bit_depth \/ dict_length (PR_one (SymbolRange 48 49)) <= bit_depth) <->
     exists e, encode (PR_one (SymbolRange 48 49)) (PR_one (SymbolRange 48 49))
                 [48; 48; 48] = ([], Throw e) /\
               capacity_exceeded e = true) /\
    (~ (size_bits < bit_depth \/ dict_length (PR_one (SymbolRange 48 49)) <= bit_depth) <->
     exists packed, encode (PR_one (SymbolRange 48 49)) (PR_one (SymbolRange 48 49))
                      [48; 48; 48] = (packed, Ok tt)) /\
    forall out r,
      encode (PR_one (SymbolRange 48 49)) (PR_one (SymbolRange 48 49)) [48; 48; 48] =
        (out, r) -> r <> Ok tt ->
      out = [] /\ exists e, r = Throw e /\ capacity_exceeded e = true.
Proof.
  apply (encode_capacity_exceeded (PR_one (SymbolRange 48 49))
           (PR_one (SymbolRange 48 49)) 48 [48; 48]).
  - reflexivity.
  - reflexivity.
  - split; [repeat constructor; exists 0; reflexivity|vm_compute; reflexivity].
Defined.

(** [decode] reads back what [encode] wrote, when [encode] returned. *)
Lemma decode_of_encode IODict PackDict (x packed : list Z) :
  wf_dict IODict = true -> wf_dict PackDict = true ->
  encodable IODict x ->
  encode IODict PackDict x = (packed, Ok tt) ->
  decode IODict PackDict packed = (x, Ok tt).
Proof.
  intros Hio Hpack Henc Hrun.
  destruct x as [|s first]; [by injection Hrun as <-|].
  destruct (encode_outcome IODict PackDict s first Hio Hpack Henc)
    as (codes & bd & Hcodes & Hbd & Hdec & [[_ Hthrow]|[Hlt Hok]]); [congruence|].
  destruct Hok as (cap & dead & D & _ & _ & _ & _ & Hout & Hunpack).
  rewrite Hout in Hrun. injection Hrun as <-.
  unfold decode. rewrite Hunpack, wbind_lift_Ok. exact Hdec.
Qed.

(** C1, as stated, fails: the codec from the alphabet ['0'..'1'] to the
    alphabet ['0'..'1'] meets the [static_assert]s of the class, and its
    [encode] throws on ["000"]: there is no packed stream to decode. *)
Lemma roundtrip_fails_when_encode_throws :
  static_asserts (PR_one (SymbolRange 48 49)) (PR_one (SymbolRange 48 49)) = true /\
  Forall (member (PR_one (SymbolRange 48 49))) [48; 48; 48] /\
  encode (PR_one (SymbolRange 48 49)) (PR_one (SymbolRange 48 49)) [48; 48; 48] =
    ([], Throw (logic_error "lzw_codec: bit_depth > PackDict::length")) /\
  ~ exists packed,
      encode (PR_one (SymbolRange 48 49)) (PR_one (SymbolRange 48 49)) [48; 48; 48] =
        (packed, Ok tt) /\
      decode (PR_one (SymbolRange 48 49)) (PR_one (SymbolRange 48 49)) packed =
        ([48; 48; 48], Ok tt).
Proof.
  split; [reflexivity|]. split; [repeat constructor; exists 0; reflexivity|].
  split; [reflexivity|]. intros (packed & Hrun & _). vm_compute in Hrun. discriminate.
Qed.

(** C1, amended: for alphabets of disjoint ranges and every encodable input
    [x], whenever [encode] returns, [decode] writes exactly [x] from what
    [encode] wrote; [encode] and [decode] write nothing for the empty
    sequence. *)
Theorem encode_decode_roundtrip IODict PackDict (x packed : list Z) :
  wf_dict IODict = true -> wf_dict PackDict = true ->
  encodable IODict x ->
  encode IODict PackDict x = (packed, Ok tt) ->
  decode IODict PackDict packed = (x, Ok tt) /\
  encode IODict PackDict [] = ([], Ok tt) /\
  decode IODict PackDict [] = ([], Ok tt).
Proof.
  intros Hio Hpack Henc Hrun. split; [|done].
  by apply decode_of_encode.
Qed.

Lemma encode_decode_roundtrip_witness :
  decode dictionaries.ASCII_128_common dictionaries.URI_pack
    [56; 50; 75; 81; 74; 52; 75; 50; 84; 57; 73; 73; 74; 85; 52; 65; 49; 71; 50;
     52; 49; 74; 79; 49; 77; 71; 55; 52] =
    ([84; 79; 66; 69; 79; 82; 78; 79; 84; 84; 79; 66; 69; 79; 82; 84; 79; 66; 69;
      79; 82; 78; 79; 84], Ok tt) /\
  encode dictionaries.ASCII_128_common dictionaries.URI_pack [] = ([], Ok tt) /\
  decode dictionaries.ASCII_128_common dictionaries.URI_pack [] = ([], Ok tt).
Proof.
  apply (encode_decode_roundtrip dictionaries.ASCII_128_common dictionaries.URI_pack
    [84; 79; 66; 69; 79; 82; 78; 79; 84; 84; 79; 66; 69; 79; 82; 84; 79; 66; 69;
     79; 82; 78; 79; 84]).
  - reflexivity.
  - reflexivity.
  - split; [|vm_compute; reflexivity].
    repeat (constructor; [eexists; vm_compute; reflexivity|]). constructor.
  - vm_compute. reflexivity.
Defined.

(** C2, as stated, fails: for the input ["!"] the only code emitted is 33,
    and [2^6 > 33], but [encode] chooses [bit_depth = 7]: the largest code
    of the base dictionary, 127, counts too.  And over the one-symbol
    alphabet ['a'..'a'] the input ["a"] emits the code 0 only, and
    [2^0 > 0], but [encode] chooses [bit_depth = 1]. *)
Lemma bit_depth_not_minimal_for_emitted_codes :
  encode_codes dictionaries.ASCII_128_common 33 [] = Ok ([33], 7) /\
  max_code_of [33] = 33 /\
  2 ^ 6 > max_code_of [33] /\ 6 < 7 /\
  encode_codes (PR_one (SymbolRange 97 97)) 97 [] = Ok ([0], 1) /\
  2 ^ 0 > max_code_of [0] /\ 0 < 1.
Proof. vm_compute. repeat split. Qed.

(** C2, amended: for every encodable, non-empty input the [bit_depth]
    chosen by [encode] is [log2_ceil(m + 1)], the smallest integer
    [d >= 1] such that [2^d > m], where [m] is the larger of the largest
    code emitted and of [baseSize - 1], the value [max_code] starts from. *)
Theorem encode_bit_depth IODict PackDict s first :
  wf_dict IODict = true -> wf_dict PackDict = true ->
  encodable IODict (s :: first) ->
  exists codes bit_depth,
    encode_codes IODict s first = Ok (codes, bit_depth) /\
    (forall packed,
       encode IODict PackDict (s :: first) = (packed, Ok tt) ->
       exists s0 rest,
         packed = s0 :: rest /\ index_of_symbol PackDict s0 = Ok bit_depth) /\
    let m := Z.max (max_code_of codes) (dict_length IODict - 1) in
    log2_ceil (m + 1) = Ok bit_depth /\
    1 <= bit_depth /\ 2 ^ bit_depth > m /\
    forall d, 1 <= d -> 2 ^ d > m -> bit_depth <= d.
Proof.
  intros Hio Hpack Henc.
  destruct (encode_pass IODict s first Hio Henc)
    as (codes & bd & Hrun & Hbd & _ & _ & _ & _ & Hm & _).
  exists codes, bd. split; [done|]. split.
  { intros packed Hpacked.
    destruct (encode_outcome IODict PackDict s first Hio Hpack Henc)
      as (codes' & bd' & Hrun' & Hbd1 & _ & [[_ Hthrow]|[Hlt Hok]]); [congruence|].
    assert (bd' = bd) as -> by congruence.
    destruct Hok as (cap & dead & D & _ & _ & _ & _ & Hout & _).
    rewrite Hout in Hpacked. injection Hpacked as <-.
    eexists _, _. split; [done|]. apply symbol_at_ok; [done|lia]. }
  intros m.
  assert (Hmeq : Z.max (dict_length IODict - 1) (max_code_of codes) = m)
    by (subst m; lia).
  rewrite Hmeq in *. split; [done|].
  pose proof (wf_dict_length _ Hio).
  destruct Henc as [_ Hfit]. unfold size_bits in Hfit.
  assert (0 <= vsize (s :: first)) by (unfold vsize; lia).
  destruct (log2_ceil_least (m + 1)) as (bd' & Hbd' & Hr & Hpow & Hleast); [lia|].
  assert (bd' = bd) as -> by congruence.
  split; [lia|]. split; [lia|]. intros d Hd Hpd. apply Hleast; lia.
Qed.

Lemma encode_bit_depth_witness :
  exists codes bit_depth,
    encode_codes dictionaries.ASCII_128_common 84 [79; 66; 69; 79; 82; 84; 79; 66] =
      Ok (codes, bit_depth) /\
    (forall packed,
       encode dictionaries.ASCII_128_common dictionaries.URI_pack
         (84 :: [79; 66; 69; 79; 82; 84; 79; 66]) = (packed, Ok tt) ->
       exists s0 rest,
         packed = s0 :: rest /\
         index_of_symbol dictionaries.URI_pack s0 = Ok bit_depth) /\
    let m := Z.max (max_code_of codes) (dict_length dictionaries.ASCII_128_common - 1) in
    log2_ceil (m + 1) = Ok bit_depth /\
    1 <= bit_depth /\ 2 ^ bit_depth > m /\
    forall d, 1 <= d -> 2 ^ d > m -> bit_depth <= d.
Proof.
  apply (encode_bit_depth dictionaries.ASCII_128_common dictionaries.URI_pack
           84 [79; 66; 69; 79; 82; 84; 79; 66]).
  - reflexivity.
  - reflexivity.
  - split; [|vm_compute; reflexivity].
    repeat (constructor; [eexists; vm_compute; reflexivity|]). constructor.
Defined.

(** The cycle of [decode] over the codes throws nothing, whatever the
    codes. *)
Lemma decode_loop_no_throw codes :
  forall rdict old out e, decode_loop codes rdict old <> (out, Throw e).
Proof.
  induction codes as [|code codes IH]; intros rdict old out e; [done|].
  cbn [decode_loop]. unfold vec_at at 1.
  destruct (rdict !! Z.to_nat old) as [tmp|]; [|done]. rewrite wbind_lift_Ok.
  destruct (code <? vsize rdict).
  - unfold vec_at at 1. destruct (rdict !! Z.to_nat code) as [entry|]; [|done].
    rewrite wbind_lift_Ok. unfold vec_at at 1.
    destruct (entry !! Z.to_nat 0) as [e0|]; [|done]. rewrite wbind_lift_Ok.
    unfold copy, wbind.
    destruct (decode_loop codes (rdict ++ [tmp ++ [e0]]) code) as [w r] eqn:Hrun.
    intros [= _ ->]. by apply (IH _ _ _ _ Hrun).
  - unfold vec_at at 1. destruct (tmp !! Z.to_nat 0) as [t0|]; [|done].
    rewrite wbind_lift_Ok. unfold copy, wbind.
    destruct (decode_loop codes (rdict ++ [tmp ++ [t0]]) code) as [w r] eqn:Hrun.
    intros [= _ ->]. by apply (IH _ _ _ _ Hrun).
Qed.

(** An exception of [decode] is an exception of [unpack_bits]: it is thrown
    before the first code is looked up, and nothing has been written. *)
Lemma decode_throw_from_unpack_bits IODict PackDict src out e :
  wf_dict IODict = true ->
  decode IODict PackDict src = (out, Throw e) ->
  out = [] /\ unpack_bits PackDict src [] = Throw e.
Proof.
  intros Hio. destruct src as [|s0 src]; [done|]. unfold decode.
  destruct (unpack_bits PackDict (s0 :: src) []) as [codes|e'| |]; try done.
  - rewrite wbind_lift_Ok. unfold decode_codes.
    rewrite (decode_dict_spec IODict Hio), wbind_lift_Ok.
    unfold vec_at at 1. destruct (codes !! Z.to_nat 0) as [code|]; [|done].
    rewrite wbind_lift_Ok. unfold vec_at at 1.
    destruct (base_rdict IODict !! Z.to_nat code) as [tmp|]; [|done].
    rewrite wbind_lift_Ok. unfold copy, wbind.
    destruct (decode_loop (tail codes) (base_rdict IODict) code) as [w r] eqn:Hrun.
    intros [= _ ->]. by apply decode_loop_no_throw in Hrun.
  - by intros [= <- <-].
Qed.

(** C3, as stated, fails: in the stream below the second code is 130, two
    more than the 128 entries the decode dictionary has when it is read;
    [decode] returns, having written ["A"] and then ["AA"]. *)
Lemma decode_accepts_code_beyond_next :
  unpack_bits dictionaries.URI_pack [56; 52; 49; 73; 48; 49] [] = Ok [65; 130] /\
  (exists rdict,
     decode_dict dictionaries.ASCII_128_common = Ok rdict /\ vsize rdict + 2 = 130) /\
  decode dictionaries.ASCII_128_common dictionaries.URI_pack
    [56; 52; 49; 73; 48; 49] = ([65; 65; 65], Ok tt).
Proof.
  split; [vm_compute; reflexivity|]. split; [|vm_compute; reflexivity].
  eexists. split; [vm_compute; reflexivity|vm_compute; reflexivity].
Qed.

(** The cycle of [decode] over the codes returns, or its behaviour is
    undefined. *)
Lemma decode_loop_outcome codes :
  forall rdict old out r,
  decode_loop codes rdict old = (out, r) -> r = Ok tt \/ r = Undefined.
Proof.
  induction codes as [|code codes IH]; intros rdict old out r.
  { intros [= _ <-]. by left. }
  cbn [decode_loop]. unfold vec_at at 1.
  destruct (rdict !! Z.to_nat old) as [tmp|]; [|intros [= _ <-]; by right].
  rewrite wbind_lift_Ok. destruct (code <? vsize rdict).
  - unfold vec_at at 1.
    destruct (rdict !! Z.to_nat code) as [entry|]; [|intros [= _ <-]; by right].
    rewrite wbind_lift_Ok. unfold vec_at at 1.
    destruct (entry !! Z.to_nat 0) as [e0|]; [|intros [= _ <-]; by right].
    rewrite wbind_lift_Ok. unfold copy, wbind.
    destruct (decode_loop codes (rdict ++ [tmp ++ [e0]]) code) as [w r'] eqn:Hrun.
    intros [= _ <-]. by apply (IH _ _ _ _ Hrun).
  - unfold vec_at at 1.
    destruct (tmp !! Z.to_nat 0) as [t0|]; [|intros [= _ <-]; by right].
    rewrite wbind_lift_Ok. unfold copy, wbind.
    destruct (decode_loop codes (rdict ++ [tmp ++ [t0]]) code) as [w r'] eqn:Hrun.
    intros [= _ <-]. by apply (IH _ _ _ _ Hrun).
Qed.

(** A code that is not an index of the dictionary is taken for the next
    code. *)
Lemma decode_loop_unknown_step code codes (rdict : decode_dict_t) old t0 t :
  rdict !! Z.to_nat old = Some (t0 :: t) ->
  vsize rdict <= code ->
  decode_loop (code :: codes) rdict old =
    (_ <~~ copy ((t0 :: t) ++ [t0]) ;
     decode_loop codes (rdict ++ [(t0 :: t) ++ [t0]]) code).
Proof.
  intros Hold Hcode. cbn [decode_loop].
  rewrite (vec_at_lookup _ _ _ Hold), wbind_lift_Ok.
  destruct (Z.ltb_spec code (vsize rdict)); [lia|].
  by rewrite (vec_at_lookup (t0 :: t) 0 t0 eq_refl), wbind_lift_Ok.
Qed.

(** After a code beyond the next one, [old] is no index of the dictionary:
    the next pass reads [rdict[old]] out of bounds. *)
Lemma decode_loop_unknown_next code codes (rdict : decode_dict_t) old t0 t :
  rdict !! Z.to_nat old = Some (t0 :: t) ->
  vsize rdict < code -> codes <> [] ->
  decode_loop (code :: codes) rdict old = ((t0 :: t) ++ [t0], Undefined).
Proof.
  intros Hold Hcode Hne. rewrite (decode_loop_unknown_step _ _ _ _ _ _ Hold) by lia.
  destruct codes as [|code' codes]; [done|]. cbn [decode_loop].
  unfold vec_at at 1. rewrite lookup_ge_None_2.
  - cbn. by rewrite app_nil_r.
  - rewrite length_app. cbn [length]. unfold vsize in Hcode. lia.
Qed.

Lemma wbind_copy_nil {B} (m : writer Z B) : (_ <~~ copy [] ; m) = m.
Proof. unfold wbind, copy. by destruct m. Qed.

Lemma wbind_copy_app {B} (u v : list Z) (m : writer Z B) :
  (_ <~~ copy u ; _ <~~ copy v ; m) = (_ <~~ copy (u ++ v) ; m).
Proof. unfold wbind, copy. destruct m as [w r]. by rewrite app_assoc. Qed.

(** While every code is at most the next code to be assigned, the cycle goes
    on: [old] stays an index of the dictionary, whose phrases are not empty,
    and the dictionary grows by one phrase for each code. *)
Lemma decode_loop_within codes :
  forall (rdict : decode_dict_t) old,
  Forall (fun p => p <> []) rdict -> 0 <= old < vsize rdict ->
  codes_within (vsize rdict) codes = true ->
  exists out (rdict' : decode_dict_t) old',
    Forall (fun p => p <> []) rdict' /\ 0 <= old' < vsize rdict' /\
    vsize rdict' = vsize rdict + vsize codes /\
    forall rest, decode_loop (codes ++ rest) rdict old =
      (_ <~~ copy out ; decode_loop rest rdict' old').
Proof.
  induction codes as [|code codes IH]; intros rdict old Hne Hold Hin.
  { exists [], rdict, old. unfold vsize at 4. cbn [length app].
    repeat split; try done; try lia. intros rest. by rewrite wbind_copy_nil. }
  cbn [codes_within] in Hin. apply andb_prop in Hin as [Hcode Hin].
  apply andb_prop in Hcode as [Hc0 Hc1]. apply Z.leb_le in Hc0, Hc1.
  destruct (lookup_lt_is_Some_2 rdict (Z.to_nat old)) as [tmp Htmp];
    [unfold vsize in Hold; lia|].
  pose proof (Forall_lookup_1 _ _ _ _ Hne Htmp) as Htne.
  destruct tmp as [|t0 t]; [done|].
  assert (Hsz : forall p, vsize (rdict ++ [p]) = vsize rdict + 1).
  { intros p. unfold vsize. rewrite length_app. cbn [length]. lia. }
  assert (Hlen : vsize (code :: codes) = 1 + vsize codes).
  { unfold vsize. cbn [length]. lia. }
  destruct (Z_lt_le_dec code (vsize rdict)) as [Hlt|Hge].
  - destruct (lookup_lt_is_Some_2 rdict (Z.to_nat code)) as [entry Hentry];
      [unfold vsize in Hlt; lia|].
    pose proof (Forall_lookup_1 _ _ _ _ Hne Hentry) as Hene.
    destruct entry as [|e0 e]; [done|].
    destruct (IH (rdict ++ [(t0 :: t) ++ [e0]]) code)
      as (out & rdict' & old' & Hne' & Hold' & Hsz' & Hrun).
    + apply Forall_app. split; [done|]. by repeat constructor.
    + rewrite Hsz. lia.
    + by rewrite Hsz.
    + exists ((e0 :: e) ++ out), rdict', old'. split; [done|]. split; [done|].
      split; [rewrite Hsz', Hsz, Hlen; lia|]. intros rest.
      cbn [app decode_loop]. rewrite (vec_at_lookup _ _ _ Htmp), wbind_lift_Ok.
      destruct (Z.ltb_spec code (vsize rdict)); [|lia].
      rewrite (vec_at_lookup _ _ _ Hentry), wbind_lift_Ok.
      rewrite (vec_at_lookup (e0 :: e) 0 e0 eq_refl), wbind_lift_Ok.
      by rewrite Hrun, wbind_copy_app.
  - destruct (IH (rdict ++ [(t0 :: t) ++ [t0]]) code)
      as (out & rdict' & old' & Hne' & Hold' & Hsz' & Hrun).
    + apply Forall_app. split; [done|]. by repeat constructor.
    + rewrite Hsz. lia.
    + by rewrite Hsz.
    + exists (((t0 :: t) ++ [t0]) ++ out), rdict', old'. split; [done|].
      split; [done|]. split; [rewrite Hsz', Hsz, Hlen; lia|]. intros rest.
      cbn [app]. rewrite (decode_loop_unknown_step _ _ _ _ _ _ Htmp) by lia.
      by rewrite Hrun, wbind_copy_app.
Qed.

(** C3, amended: [decode] validates no code and raises no MalformedStream.
    It compares a code read after the first one with the size of the decode
    dictionary only.  When the code read before it is an index of the
    dictionary, a code that is not a known index, whether it is the next
    code to be assigned or a greater one, is taken for the next code:
    [decode] writes the previous phrase followed by its first symbol and
    adds this phrase to the dictionary.  When that code is the last one,
    [decode] returns; when it is greater than the next code and another
    code follows, the next pass reads [rdict[old]] out of bounds, which is
    undefined behaviour and no exception.  The code read before is an index
    of the dictionary as long as the first code is below [IODict::length]
    and every code read so far was at most the next code to be assigned:
    after such codes a last code two, or any number, greater than the size
    of the dictionary is decoded without error.  For no codes at all does
    the cycle throw: it returns or its behaviour is undefined, and an
    exception of [decode] is one of [unpack_bits], thrown before the first
    code is looked up. *)
Theorem decode_loop_unknown_code (code : Z) (codes : codes_vec)
    (rdict : decode_dict_t) (old t0 : Z) (t : phrase_t) :
  rdict !! Z.to_nat old = Some (t0 :: t) ->
  vsize rdict <= code ->
  decode_loop (code :: codes) rdict old =
    (_ <~~ copy ((t0 :: t) ++ [t0]) ;
     decode_loop codes (rdict ++ [(t0 :: t) ++ [t0]]) code) /\
  decode_loop [code] rdict old = ((t0 :: t) ++ [t0], Ok tt) /\
  (vsize rdict < code -> codes <> [] ->
   decode_loop (code :: codes) rdict old = ((t0 :: t) ++ [t0], Undefined)) /\
  (forall cs R o out r,
     decode_loop cs R o = (out, r) -> r = Ok tt \/ r = Undefined) /\
  (forall IODict first cs,
     wf_dict IODict = true -> 0 <= first < dict_length IODict ->
     codes_within (dict_length IODict) cs = true ->
     dict_length IODict + vsize cs <= code ->
     exists out,
       decode_codes IODict (first :: cs ++ [code]) = (out, Ok tt) /\
       (dict_length IODict + vsize cs < code -> codes <> [] ->
        decode_codes IODict (first :: cs ++ code :: codes) = (out, Undefined))) /\
  (forall IODict PackDict src out e,
     wf_dict IODict = true ->
     decode IODict PackDict src = (out, Throw e) ->
     out = [] /\ unpack_bits PackDict src [] = Throw e).
Proof.
  intros Hold Hcode.
  split; [by apply decode_loop_unknown_step|].
  split; [|split; [|split; [|split;
    [|intros IODict PackDict src out e; apply decode_throw_from_unpack_bits]]]].
  - rewrite (decode_loop_unknown_step _ _ _ _ _ _ Hold) by lia. cbn.
    by rewrite app_nil_r.
  - by apply decode_loop_unknown_next.
  - intros cs R o. apply decode_loop_outcome.
  - intros IODict first cs Hio Hfirst Hcs Hbeyond.
    pose proof (base_rdict_length IODict Hio) as Hbase.
    assert (Hne : Forall (fun p => p <> []) (base_rdict IODict)).
    { apply Forall_lookup_2. intros i p Hp.
      apply (base_rdict_lookup IODict) in Hp as [_ ->]. done. }
    destruct (decode_loop_within cs (base_rdict IODict) first Hne)
      as (out & rdict' & old' & Hne' & Hold' & Hsz' & Hrun).
    { by rewrite Hbase. }
    { by rewrite Hbase. }
    destruct (lookup_lt_is_Some_2 (base_rdict IODict) (Z.to_nat first)) as [p Hp];
      [unfold vsize in Hbase; lia|].
    destruct (lookup_lt_is_Some_2 rdict' (Z.to_nat old')) as [q Hq];
      [unfold vsize in Hold'; lia|].
    pose proof (Forall_lookup_1 _ _ _ _ Hne' Hq) as Hqne.
    destruct q as [|q0 q]; [done|].
    assert (Hstart : forall rest,
      decode_codes IODict (first :: cs ++ rest) =
        (_ <~~ copy (p ++ out) ; decode_loop rest rdict' old')).
    { intros rest. unfold decode_codes.
      rewrite (decode_dict_spec IODict Hio), wbind_lift_Ok.
      rewrite (vec_at_lookup (first :: cs ++ rest) 0 first eq_refl), wbind_lift_Ok.
      rewrite (vec_at_lookup _ _ _ Hp), wbind_lift_Ok. cbn [tail].
      by rewrite Hrun, wbind_copy_app. }
    exists ((p ++ out) ++ (q0 :: q) ++ [q0]). split.
    + rewrite Hstart, (decode_loop_unknown_step _ _ _ _ _ _ Hq) by lia. cbn.
      by rewrite app_nil_r.
    + intros Hgt Hcodes.
      by rewrite Hstart, (decode_loop_unknown_next _ _ _ _ _ _ Hq) by (done || lia).
Qed.

Lemma decode_loop_unknown_code_witness :
  decode_loop [5] [[97]; [98]] 0 = ([97; 97], Ok tt).
Proof.
  apply (decode_loop_unknown_code 5 [] [[97]; [98]] 0 97 []).
  - reflexivity.
  - vm_compute. discriminate.
Defined.

(** ** The last code of a stream *)

(** In a stream that declares no padding every started code is a code of
    the result: there are [ceil(len / bit_depth)] of them, code [j] being
    the bits from [j * bit_depth] on, as many as the stream has. *)
Lemma stream_codes_no_padding cap bit_depth :
  1 <= bit_depth ->
  forall fuel v len,
  1 <= len <= Z.of_nat fuel -> 0 <= v < 2 ^ len ->
  stream_codes fuel cap bit_depth 0 v len =
    (fun j => (v / 2 ^ (bit_depth * j)) mod 2 ^ bit_depth)
      <$> seqZ 0 ((len + bit_depth - 1) / bit_depth).
Proof.
  intros Hbd. induction fuel as [|fuel IH]; intros v len Hlen Hv; [lia|].
  cbn [stream_codes]. destruct (Z.eqb_spec len 0); [lia|]. cbn [andb].
  assert (H2 : 0 < 2 ^ bit_depth) by (apply Z.pow_pos_nonneg; lia).
  destruct (Z.leb_spec len bit_depth) as [Hle|Hgt].
  - assert ((len + bit_depth - 1) / bit_depth = 1) as ->.
    { symmetry. apply (Z.div_unique _ _ _ (len - 1)); lia. }
    change (seqZ 0 1) with [0]. cbn [fmap list_fmap].
    rewrite Z.mul_0_r, Z.pow_0_r, Z.div_1_r.
    assert (2 ^ len <= 2 ^ bit_depth) by (apply Z.pow_le_mono_r; lia).
    by rewrite Z.mod_small by lia.
  - assert ((len + bit_depth - 1) / bit_depth = 1 + (len - bit_depth + bit_depth - 1) / bit_depth) as ->.
    { replace (len + bit_depth - 1) with (1 * bit_depth + (len - bit_depth + bit_depth - 1)) by lia.
      by rewrite Z.div_add_l by lia. }
    assert (0 <= (len - bit_depth + bit_depth - 1) / bit_depth) by (apply Z.div_pos; lia).
    rewrite seqZ_cons by lia. rewrite fmap_cons, Z.mul_0_r, Z.pow_0_r, Z.div_1_r.
    f_equal. rewrite IH.
    + replace (Z.pred (1 + (len - bit_depth + bit_depth - 1) / bit_depth))
        with ((len - bit_depth + bit_depth - 1) / bit_depth) by lia.
      rewrite <- (fmap_add_seqZ 1 0), <- list_fmap_compose.
      apply list_fmap_ext. intros i j [-> _]%lookup_seqZ. cbn.
      replace (bit_depth * (1 + (0 + Z.of_nat i)))
        with (bit_depth + bit_depth * (0 + Z.of_nat i)) by lia.
      by rewrite div_pow2_add by nia.
    + lia.
    + split; [apply Z.div_pos; lia|]. apply Z.div_lt_upper_bound; [lia|].
      rewrite <- Z.pow_add_r by lia. replace (bit_depth + (len - bit_depth)) with len by lia.
      lia.
Qed.

(** C7, as stated, fails: the header below declares 7-bit codes and no
    padding, and the payload is one 5-bit symbol; the cycle over the bits of
    the code stops with 5 of the 7 bits assembled, and the code is stored. *)
Lemma unpack_bits_stores_partial_code :
  index_of_symbol dictionaries.URI_pack 55 = Ok 7 /\
  index_of_symbol dictionaries.URI_pack 48 = Ok 0 /\
  unpack_code dictionaries.URI_pack (unpack_fuel 5 7 1) 5 7 0 [] 21 0 0 0 =
    Ok (UnpackState [] 21 5 true, 21, 5) /\
  unpack_bits dictionaries.URI_pack [55; 48; 76] [] = Ok [21].
Proof. vm_compute. repeat split. Qed.

(** C7, amended: on a stream of symbols of the pack alphabet whose header
    gives a bit depth from 1 to the width of [size_t] and no more dead bits
    than the payload has bits (so that [out_length] is not computed from a
    wrapped difference and [reserve] is granted), [unpack_bits] stores the
    codes of the payload as [stream_codes] cuts them: nothing is stored only
    for a code of which no bit was read, when the cycle stops at a code
    boundary with exactly [dead_bits] bits left in the last symbol; a code
    with at least one bit assembled when the input ends is stored, its
    missing high bits zero.  When the header declares no padding, the
    result has [ceil(L / bit_depth)] codes for the [L] payload bits, the
    last one partial whenever [bit_depth] does not divide [L]. *)
Theorem unpack_bits_partial_code PackDict (s0 s1 s2 : Z) (R I : list Z)
    (cap bit_depth dead_bits chunk : Z) (dst : codes_vec) :
  wf_dict PackDict = true -> 2 <= dict_length PackDict ->
  bit_capacity PackDict = Ok cap ->
  index_of_symbol PackDict s0 = Ok bit_depth ->
  index_of_symbol PackDict s1 = Ok dead_bits ->
  index_of_symbol PackDict s2 = Ok chunk ->
  indexed PackDict R I ->
  1 <= bit_depth <= size_bits ->
  dead_bits <= cap * vsize (s2 :: R) ->
  let L := cap * vsize (chunk :: I) in
  let v := digits_val cap (chunk :: I) in
  unpack_bits PackDict (s0 :: s1 :: s2 :: R) dst =
    Ok (stream_codes (Z.to_nat L) cap bit_depth dead_bits v L) /\
  (dead_bits = 0 ->
   unpack_bits PackDict (s0 :: s1 :: s2 :: R) dst =
     Ok ((fun j => (v / 2 ^ (bit_depth * j)) mod 2 ^ bit_depth)
           <$> seqZ 0 ((L + bit_depth - 1) / bit_depth))).
Proof.
  intros Hwf Hlen Hcap H0 H1 H2 HRI Hbd Hdead L v.
  assert (Hcap1 : 1 <= cap).
  { rewrite (bit_capacity_total _ Hwf) in Hcap. injection Hcap as <-.
    apply Z.log2_le_pow2; [lia|]. cbn. lia. }
  assert (Hsame : vsize (s2 :: R) = vsize (chunk :: I)).
  { unfold vsize. cbn [length]. by rewrite (Forall2_length _ _ _ HRI). }
  rewrite Hsame in Hdead.
  pose proof (unpack_bits_spec PackDict Hwf cap Hcap s0 s1 s2 R bit_depth dead_bits
                chunk I dst Hcap1 Hbd H0 H1 H2 HRI Hdead) as Hrun.
  split; [exact Hrun|]. intros ->. rewrite Hrun. f_equal.
  assert (1 <= L) by (subst L; unfold vsize; cbn [length]; nia).
  apply stream_codes_no_padding; [lia|lia|].
  subst v L. unfold vsize. apply digits_val_bounds. lia.
Qed.

Lemma unpack_bits_partial_code_witness :
  let L := 5 * vsize [21; 9] in
  let v := digits_val 5 [21; 9] in
  unpack_bits dictionaries.URI_pack [55; 48; 76; 57] [] =
    Ok (stream_codes (Z.to_nat L) 5 7 0 v L) /\
  (0 = 0 ->
   unpack_bits dictionaries.URI_pack [55; 48; 76; 57] [] =
     Ok ((fun j => (v / 2 ^ (7 * j)) mod 2 ^ 7)
           <$> seqZ 0 ((L + 7 - 1) / 7))).
Proof.
  apply (unpack_bits_partial_code dictionaries.URI_pack 55 48 76 [57] [9] 5 7 0 21 []).
  - reflexivity.
  - vm_compute. discriminate.
  - reflexivity.
  - reflexivity.
  - reflexivity.
  - reflexivity.
  - repeat constructor.
  - unfold size_bits. lia.
  - vm_compute. discriminate.
Defined.

(** ** The predefined codecs *)

(** [encode] returns when the codes fit below [2^(PackDict::length - 1)]. *)
Lemma encode_returns IODict PackDict s first :
  wf_dict IODict = true -> wf_dict PackDict = true ->
  encodable IODict (s :: first) ->
  dict_length IODict + vsize (s :: first) <= 2 ^ (dict_length PackDict - 1) ->
  exists packed, encode IODict PackDict (s :: first) = (packed, Ok tt).
Proof.
  intros Hio Hpack Henc Hroom.
  destruct (encode_pass IODict s first Hio Henc)
    as (codes & bd & Hrun & Hbd & _ & _ & _ & _ & Hm & _).
  pose proof (wf_dict_length _ Hio) as HN.
  assert (Hx : 1 <= vsize (s :: first)) by (unfold vsize; cbn [length]; lia).
  pose proof Henc as [_ Hfit]. unfold size_bits in Hfit.
  set (m := Z.max (dict_length IODict - 1) (max_code_of codes)) in *.
  destruct (log2_ceil_least (m + 1)) as (bd' & Hbd' & _ & _ & Hleast); [lia|].
  assert (bd' = bd) as -> by congruence.
  assert (Hp : 1 <= dict_length PackDict - 1).
  { destruct (Z_lt_le_dec (dict_length PackDict - 1) 1) as [Hlt|]; [|done].
    assert (2 ^ (dict_length PackDict - 1) <= 1); [|lia].
    destruct (Z_lt_le_dec (dict_length PackDict - 1) 0).
    - rewrite Z.pow_neg_r by lia. lia.
    - replace (dict_length PackDict - 1) with 0 by lia. done. }
  specialize (Hleast (dict_length PackDict - 1) Hp ltac:(lia)).
  destruct (encode_outcome IODict PackDict s first Hio Hpack Henc)
    as (codes' & bd' & Hrun' & _ & _ & [[Hle _]|[_ Hok]]).
  - assert (bd' = bd) as -> by congruence. lia.
  - destruct Hok as (cap & dead & D & _ & _ & _ & _ & Hout & _). eauto.
Qed.

(** X14: for the four predefined codecs [encode] returns on every encodable
    input, and [decode] gives the input back. *)
Lemma predefined_codecs_roundtrip (c : codecs.codec) (x : list Z) :
  c ∈ codecs.predefined ->
  encodable (codecs.Input_dictionary c) x ->
  exists packed,
    encode (codecs.Input_dictionary c) (codecs.Pack_dictionary c) x = (packed, Ok tt) /\
    decode (codecs.Input_dictionary c) (codecs.Pack_dictionary c) packed = (x, Ok tt).
Proof.
  intros Hc Henc.
  assert (Hwf : wf_dict (codecs.Input_dictionary c) = true /\
                wf_dict (codecs.Pack_dictionary c) = true /\
                dict_length (codecs.Input_dictionary c) <= 256 /\
                62 <= dict_length (codecs.Pack_dictionary c)).
  { unfold codecs.predefined in Hc. rewrite !elem_of_cons, elem_of_nil in Hc.
    destruct Hc as [->|[->|[->|[->|[]]]]]; vm_compute; repeat split; discriminate. }
  destruct Hwf as (Hio & Hpack & HN & HP).
  destruct x as [|s first]; [by exists []|].
  destruct (encode_returns _ (codecs.Pack_dictionary c) s first Hio Hpack Henc)
    as [packed Hrun].
  - pose proof Henc as [_ Hfit]. unfold size_bits in Hfit. rewrite size_mod_eq in Hfit.
    assert (0 <= vsize (s :: first)) by (unfold vsize; lia).
    assert (2 ^ 61 <= 2 ^ (dict_length (codecs.Pack_dictionary c) - 1))
      by (apply Z.pow_le_mono_r; lia).
    lia.
  - exists packed. split; [done|].
    by apply decode_of_encode.
Qed.

(** * Further properties of the code *)

(** ** Symbol dictionaries *)

(** X1: in a dictionary of disjoint ranges every index below [length] has a
    symbol, and [index_of_symbol] gives the index back from it. *)
Theorem symbol_by_index_roundtrip (d : piecewise_range) (i : Z) :
  wf_dict d = true -> 0 <= i < dict_length d ->
  exists s, symbol_by_index d i = Ok s /\ covers d s = true /\
            index_of_symbol d s = Ok i.
Proof.
  intros Hwf Hi. destruct (index_of_symbol_by_index d i Hwf Hi) as (s & Hs & Hidx).
  exists s. split; [done|]. split; [|done].
  clear Hs Hwf Hi. revert i Hidx. induction d as [rh|rh rt IH]; intros i; cbn.
  - by destruct (_ && _).
  - destruct (_ && _); [done|]. cbn.
    destruct (index_of_symbol rt s) as [j| | |] eqn:Hj; try done. intros _. by eapply IH.
Qed.

Lemma symbol_by_index_roundtrip_witness :
  exists s, symbol_by_index dictionaries.URI_pack 40 = Ok s /\
            covers dictionaries.URI_pack s = true /\
            index_of_symbol dictionaries.URI_pack s = Ok 40.
Proof.
  apply (symbol_by_index_roundtrip dictionaries.URI_pack 40).
  - reflexivity.
  - vm_compute. split; [discriminate|reflexivity].
Defined.

(** X2: the index [index_of_symbol] returns is below [length], and
    [symbol_by_index] gives the symbol back from it. *)
Theorem index_of_symbol_roundtrip (d : piecewise_range) (s i : Z) :
  wf_dict d = true -> index_of_symbol d s = Ok i ->
  0 <= i < dict_length d /\ symbol_by_index d i = Ok s.
Proof. apply symbol_by_index_of_symbol. Qed.

Lemma index_of_symbol_roundtrip_witness :
  0 <= 36 < dict_length dictionaries.URI_pack /\
  symbol_by_index dictionaries.URI_pack 36 = Ok 97.
Proof.
  apply (index_of_symbol_roundtrip dictionaries.URI_pack 97 36); reflexivity.
Defined.

(** X3: [symbol_by_index] throws [std::out_of_range] for every index from
    [length] on, whatever the number of ranges. *)
Theorem symbol_by_index_rejects (d : piecewise_range) (i : Z) :
  wf_dict d = true -> dict_length d <= i < size_mod ->
  symbol_by_index d i = Throw (out_of_range "symbol_by_index: out of range").
Proof. apply symbol_by_index_out_of_range. Qed.

Lemma symbol_by_index_rejects_witness :
  symbol_by_index dictionaries.UTF16_pack 63456 =
    Throw (out_of_range "symbol_by_index: out of range").
Proof.
  apply (symbol_by_index_rejects dictionaries.UTF16_pack 63456).
  - reflexivity.
  - vm_compute. split; [discriminate|reflexivity].
Defined.

(** X4: [index_of_symbol] returns an index exactly for the symbols that lie
    in one of the ranges; for every other symbol it throws
    [std::out_of_range]. *)
Theorem index_of_symbol_covers (d : piecewise_range) (c : Z) :
  if covers d c
  then exists i, index_of_symbol d c = Ok i
  else index_of_symbol d c = Throw (out_of_range "index_of_symbol: out of range").
Proof.
  induction d as [rh|rh rt IH]; cbn.
  - destruct (_ && _); eauto.
  - destruct (_ && _); cbn; [eauto|].
    destruct (covers rt c).
    + destruct IH as [i ->]. cbn. eauto.
    + by rewrite IH.
Qed.

(** ** [log2_floor] and [log2_ceil] on every value *)

(** X5: for every [size_t] value [x > 0], [log2_floor] returns the [r] with
    [2^r <= x < 2^(r+1)]. *)
Theorem log2_floor_rounds_down (x : Z) :
  0 < x < size_mod ->
  exists r, log2_floor x = Ok r /\ 0 <= r < size_bits /\ 2 ^ r <= x < 2 ^ (r + 1).
Proof.
  intros Hx. exists (Z.log2 x). rewrite log2_floor_spec by done.
  split; [done|]. pose proof (Z.log2_spec x ltac:(lia)) as Hs.
  split; [|replace (Z.log2 x + 1) with (Z.succ (Z.log2 x)) by lia; done].
  split; [apply Z.log2_nonneg|]. apply Z.log2_lt_pow2; [lia|].
  unfold size_bits. rewrite <- size_mod_eq. lia.
Qed.

Lemma log2_floor_rounds_down_witness :
  exists r, log2_floor 62 = Ok r /\ 0 <= r < size_bits /\ 2 ^ r <= 62 < 2 ^ (r + 1).
Proof. apply (log2_floor_rounds_down 62). vm_compute. split; reflexivity. Defined.

(** X6: for every [size_t] value [x], [log2_ceil] returns the least
    [d >= 1] with [x <= 2^d]: the number of bits that encode [x] values,
    never less than one. *)
Theorem log2_ceil_rounds_up (x : Z) :
  0 <= x < size_mod ->
  exists d, log2_ceil x = Ok d /\ 1 <= d <= size_bits /\ x <= 2 ^ d /\
    forall d', 1 <= d' -> x <= 2 ^ d' -> d <= d'.
Proof.
  intros Hx. destruct (Z.eq_dec x 0) as [->|Hne].
  - exists 1. unfold size_bits. split; [done|]. split; [lia|]. split; [done|]. intros; lia.
  - apply log2_ceil_least. lia.
Qed.

Lemma log2_ceil_rounds_up_witness :
  exists d, log2_ceil 128 = Ok d /\ 1 <= d <= size_bits /\ 128 <= 2 ^ d /\
    forall d', 1 <= d' -> 128 <= 2 ^ d' -> d <= d'.
Proof. apply (log2_ceil_rounds_up 128). vm_compute. split; [discriminate|reflexivity]. Defined.

(** ** The base dictionaries and the pass over the input *)

(** X7: the base dictionaries of [encode] and [decode] hold the same
    [length] entries, and each is the inverse of the other: a phrase has
    the code [c] in [encode_dict()] exactly when it is [decode_dict()[c]]. *)
Theorem base_dictionaries_inverse (IODict : piecewise_range) :
  wf_dict IODict = true ->
  exists E R,
    encode_dict IODict = Ok E /\ decode_dict IODict = Ok R /\
    map_size E = dict_length IODict /\ vsize R = dict_length IODict /\
    forall p c, E !! p = Some c <-> 0 <= c /\ R !! Z.to_nat c = Some p.
Proof.
  intros Hwf. destruct (encode_dict_spec IODict Hwf) as (E & HE & Hsize & Hlook).
  exists E, (base_rdict IODict). split; [done|].
  split; [by apply decode_dict_spec|]. split; [done|].
  split; [by apply base_rdict_length|].
  intros p c. rewrite Hlook, base_rdict_lookup. split.
  - intros [Hc ->]. rewrite Z2Nat.id by lia. split; [lia|]. split; [lia|done].
  - intros [Hc [Hlt ->]]. rewrite Z2Nat.id in * by lia. split; [lia|done].
Qed.

Lemma base_dictionaries_inverse_witness :
  exists E R,
    encode_dict dictionaries.BINARY_256_common = Ok E /\
    decode_dict dictionaries.BINARY_256_common = Ok R /\
    map_size E = dict_length dictionaries.BINARY_256_common /\
    vsize R = dict_length dictionaries.BINARY_256_common /\
    forall p c, E !! p = Some c <-> 0 <= c /\ R !! Z.to_nat c = Some p.
Proof. apply (base_dictionaries_inverse dictionaries.BINARY_256_common). reflexivity. Defined.

(** X8: whatever the pack dictionary, the codes the pass of [encode] emits
    for a non-empty input are codes from which the dictionary walk of
    [decode] writes the input back. *)
Theorem lzw_codes_roundtrip (IODict : piecewise_range) (s : Z) (first : list Z) :
  wf_dict IODict = true -> encodable IODict (s :: first) ->
  exists codes bit_depth,
    encode_codes IODict s first = Ok (codes, bit_depth) /\
    decode_codes IODict codes = (s :: first, Ok tt).
Proof.
  intros Hwf Henc.
  destruct (encode_pass IODict s first Hwf Henc) as (codes & bd & Hrun & Hrest).
  exists codes, bd. split; [done|]. apply Hrest.
Qed.

Lemma lzw_codes_roundtrip_witness :
  exists codes bit_depth,
    encode_codes dictionaries.ASCII_128_common 97 [98; 97; 98; 97; 98; 97] =
      Ok (codes, bit_depth) /\
    decode_codes dictionaries.ASCII_128_common codes =
      (97 :: [98; 97; 98; 97; 98; 97], Ok tt).
Proof.
  apply (lzw_codes_roundtrip dictionaries.ASCII_128_common 97 [98; 97; 98; 97; 98; 97]).
  - reflexivity.
  - split; [|vm_compute; reflexivity].
    repeat (constructor; [eexists; vm_compute; reflexivity|]). constructor.
Defined.

(** X9: the pass of [encode] emits at least one code and at most one code
    per input symbol; every code is below the number of dictionary entries
    the pass can reach, [baseSize + size - 1], and below [2^bit_depth], and
    the bit depth is between 1 and the width of [size_t]. *)
Theorem emitted_codes_bounds (IODict : piecewise_range) (s : Z) (first : list Z)
    (codes : codes_vec) (bit_depth : Z) :
  wf_dict IODict = true -> encodable IODict (s :: first) ->
  encode_codes IODict s first = Ok (codes, bit_depth) ->
  1 <= vsize codes <= vsize (s :: first) /\
  1 <= bit_depth <= size_bits /\
  Forall (fun c => 0 <= c < 2 ^ bit_depth /\
                   c < dict_length IODict + vsize (s :: first) - 1) codes.
Proof.
  intros Hwf Henc Hrun. pose proof Henc as [Hmem Hfit].
  apply Forall_cons in Hmem as [Hs Hfirst]. unfold size_bits in *.
  assert (Hlen : 0 <= vsize first /\ vsize (s :: first) = vsize first + 1).
  { unfold vsize. cbn [length]. lia. }
  pose proof (wf_dict_length _ Hwf) as HN.
  destruct (encode_codes_spec IODict Hwf s first Hs Hfirst ltac:(lia))
    as (codes' & bd' & Hrun' & _ & Hne & Hcodes & Hcount & _).
  destruct (encode_pass IODict s first Hwf Henc)
    as (codes'' & bd'' & Hrun'' & _ & Hbd & _ & Hpow & _).
  rewrite Hrun in Hrun', Hrun''. injection Hrun' as <- <-. injection Hrun'' as <- <-.
  split; [split; [destruct codes; [done|unfold vsize; cbn [length]; lia]|done]|].
  split; [done|].
  eapply Forall_impl; [apply Forall_and; split; [exact Hpow|exact Hcodes]|].
  cbn. lia.
Qed.

Lemma emitted_codes_bounds_witness :
  1 <= vsize [97; 98; 128; 130] <= vsize (97 :: [98; 97; 98; 97; 98; 97]) /\
  1 <= 8 <= size_bits /\
  Forall (fun c => 0 <= c < 2 ^ 8 /\
                   c < dict_length dictionaries.ASCII_128_common
                       + vsize (97 :: [98; 97; 98; 97; 98; 97]) - 1)
    [97; 98; 128; 130].
Proof.
  apply (emitted_codes_bounds dictionaries.ASCII_128_common 97 [98; 97; 98; 97; 98; 97]).
  - reflexivity.
  - split; [|vm_compute; reflexivity].
    repeat (constructor; [eexists; vm_compute; reflexivity|]). constructor.
  - vm_compute. reflexivity.
Defined.

(** ** Symbols outside the input alphabet *)

Lemma index_of_symbol_foreign d c :
  covers d c = false ->
  index_of_symbol d c = Throw (out_of_range "index_of_symbol: out of range").
Proof.
  induction d as [rh|rh rt IH]; cbn.
  - by intros ->.
  - destruct (_ && _); [done|]. cbn. intros Hrt. by rewrite (IH Hrt).
Qed.

Lemma covers_member d s : covers d s = true <-> member d s.
Proof.
  unfold member. split.
  - induction d as [rh|rh rt IH]; cbn.
    + intros ->. eauto.
    + destruct (_ && _); cbn; [eauto|]. intros Hrt. destruct (IH Hrt) as [i ->].
      cbn. eauto.
  - intros [i Hi]. destruct (covers d s) eqn:Hc; [done|].
    rewrite (index_of_symbol_foreign d s Hc) in Hi. done.
Qed.

(** No entry of the dictionary starts with [b]: the pass throws when it looks
    up a phrase that starts with [b]. *)
Lemma encode_loop_foreign_phrase first :
  forall (E : encode_dict_t) next b t max_code codes,
  (forall p c, E !! p = Some c -> head p <> Some b) ->
  encode_loop first E next (b :: t) max_code codes = Throw (out_of_range "map::at").
Proof.
  intros E next b t max_code codes HE.
  assert (Hnone : forall t', E !! (b :: t') = None).
  { intros t'. destruct (E !! (b :: t')) eqn:Hl; [|done]. by apply HE in Hl. }
  destruct first as [|c rest]; cbn [encode_loop].
  - unfold emplace_code, map_at. by rewrite Hnone.
  - unfold map_emplace. cbn [app]. rewrite Hnone. cbn [negb].
    unfold emplace_code, map_at. rewrite lookup_insert_ne, Hnone; [done|].
    intros Heq. apply (f_equal length) in Heq. cbn [length] in Heq.
    rewrite length_app in Heq. cbn in Heq. lia.
Qed.

Lemma encode_loop_foreign_symbol IODict first :
  forall (E : encode_dict_t) next phrase max_code codes,
  phrase <> [] -> is_Some (E !! phrase) ->
  (forall p c, E !! p = Some c -> Forall (member IODict) p) ->
  (forall s, member IODict s -> is_Some (E !! [s])) ->
  Exists (fun s => covers IODict s = false) first ->
  encode_loop first E next phrase max_code codes = Throw (out_of_range "map::at").
Proof.
  induction first as [|curr first IH];
    intros E next phrase max_code codes Hne [cw Hcw] Hkeys Hbase Hbad;
    [by apply Exists_nil in Hbad|].
  pose proof (Hkeys _ _ Hcw) as Hphrase.
  cbn [encode_loop]. unfold map_emplace.
  destruct (covers IODict curr) eqn:Hcurr.
  - (* a symbol of the alphabet: the pass goes on *)
    apply Exists_cons in Hbad as [Hbad|Hbad]; [congruence|].
    apply covers_member in Hcurr.
    destruct (E !! (phrase ++ [curr])) as [c|] eqn:Htmp; cbn [negb].
    + apply IH; [by destruct phrase|by eexists|done|done|done].
    + unfold emplace_code, map_at. rewrite lookup_insert_ne, Hcw.
      2:{ intros Heq. apply (f_equal length) in Heq. rewrite length_app in Heq.
          cbn in Heq. lia. }
      cbn [obind]. apply IH; try done.
      * destruct (Hbase _ Hcurr) as [c Hc]. exists c.
        rewrite lookup_insert_ne; [done|]. intros Heq. congruence.
      * intros p c. destruct (decide (p = phrase ++ [curr])) as [->|Hp].
        -- intros _. apply Forall_app. split; [done|]. by constructor.
        -- rewrite lookup_insert_ne by done. apply Hkeys.
      * intros s Hs. destruct (Hbase _ Hs) as [c Hc].
        destruct (decide ([s] = phrase ++ [curr])) as [Heq|Hns].
        -- rewrite Heq, lookup_insert_eq. by eexists.
        -- rewrite lookup_insert_ne by done. by eexists.
  - (* a foreign symbol: it becomes the phrase, which has no code *)
    assert (Hforeign : ~ member IODict curr).
    { intros Hm%covers_member. congruence. }
    assert (Htmp : E !! (phrase ++ [curr]) = None).
    { destruct (E !! (phrase ++ [curr])) eqn:Hl; [|done].
      apply Hkeys, Forall_app in Hl as [_ Hl]. by apply Forall_cons in Hl as [? _]. }
    rewrite Htmp. cbn [negb]. unfold emplace_code, map_at.
    rewrite lookup_insert_ne, Hcw.
    2:{ intros Heq. apply (f_equal length) in Heq. rewrite length_app in Heq.
        cbn in Heq. lia. }
    cbn [obind]. apply encode_loop_foreign_phrase.
    intros p c. destruct (decide (p = phrase ++ [curr])) as [->|Hp].
    + intros _. destruct phrase as [|h t]; [done|]. cbn. intros [= ->].
      by apply Forall_cons in Hphrase as [? _].
    + rewrite lookup_insert_ne by done. intros Hl%Hkeys.
      destruct p as [|h t]; [done|]. cbn. intros [= ->].
      by apply Forall_cons in Hl as [? _].
Qed.

(** X10: when the input holds a symbol that lies in no range of the input
    alphabet, [encode] throws the [std::out_of_range] of [dict.at] and
    writes nothing, wherever the symbol stands. *)
Theorem encode_rejects_foreign_symbol (IODict PackDict : piecewise_range)
    (x : list Z) :
  wf_dict IODict = true ->
  Exists (fun s => covers IODict s = false) x ->
  encode IODict PackDict x = ([], Throw (out_of_range "map::at")).
Proof.
  intros Hwf Hbad. destruct x as [|s first]; [by apply Exists_nil in Hbad|].
  destruct (encode_dict_spec IODict Hwf) as (E & HE & Hsize & Hlook).
  assert (Hkeys : forall p c, E !! p = Some c -> Forall (member IODict) p).
  { intros p c [Hc ->]%Hlook. constructor; [|done].
    exists c. by apply symbol_at_ok. }
  assert (Hloop : forall next max_code codes,
    encode_loop first E next [s] max_code codes = Throw (out_of_range "map::at")).
  { intros next max_code codes. destruct (covers IODict s) eqn:Hs.
    - apply Exists_cons in Hbad as [Hbad|Hbad]; [congruence|].
      apply covers_member in Hs as [i Hi].
      apply (encode_loop_foreign_symbol IODict); try done.
      + exists i. apply Hlook.
        destruct (index_of_symbol_at IODict Hwf _ _ Hi) as [? ->]. done.
      + intros s' [j Hj]. exists j. apply Hlook.
        destruct (index_of_symbol_at IODict Hwf _ _ Hj) as [? ->]. done.
    - apply encode_loop_foreign_phrase. intros p c Hl%Hkeys.
      destruct p as [|h t]; [done|]. cbn. intros [= ->].
      apply Forall_cons in Hl as [Hm%covers_member _]. congruence. }
  unfold encode, encode_codes. rewrite HE. cbn [obind]. by rewrite Hloop.
Qed.

Lemma encode_rejects_foreign_symbol_witness :
  encode dictionaries.ASCII_128_common dictionaries.URI_pack [97; 98; 200; 97] =
    ([], Throw (out_of_range "map::at")).
Proof.
  apply (encode_rejects_foreign_symbol dictionaries.ASCII_128_common).
  - reflexivity.
  - do 2 apply Exists_cons_tl. apply Exists_cons_hd. reflexivity.
Defined.

(** X11: on an encodable input the check of [bit_depth] against the width
    of [size_t] never fails: [encode] does not throw
    ["lzw_codec: bit_depth > log2(size_t)"]. *)
Theorem encode_width_guard_never_taken (IODict PackDict : piecewise_range)
    (x out : list Z) :
  wf_dict IODict = true -> wf_dict PackDict = true -> encodable IODict x ->
  encode IODict PackDict x <>
    (out, Throw (logic_error "lzw_codec: bit_depth > log2(size_t)")).
Proof.
  intros Hio Hpack Henc. destruct x as [|s first]; [done|].
  destruct (encode_outcome IODict PackDict s first Hio Hpack Henc)
    as (codes & bd & _ & _ & _ & [[_ ->]|[_ Hok]]); [done|].
  destruct Hok as (cap & dead & D & _ & _ & _ & _ & -> & _). done.
Qed.

Lemma encode_width_guard_never_taken_witness :
  encode (PR_one (SymbolRange 48 49)) (PR_one (SymbolRange 48 49)) [48; 48; 48] <>
    ([], Throw (logic_error "lzw_codec: bit_depth > log2(size_t)")).
Proof.
  apply (encode_width_guard_never_taken (PR_one (SymbolRange 48 49))
           (PR_one (SymbolRange 48 49)) [48; 48; 48] []).
  - reflexivity.
  - reflexivity.
  - split; [repeat constructor; exists 0; reflexivity|vm_compute; reflexivity].
Defined.

(** ** What [encode] writes *)

(** X12: when [encode] returns on a non-empty input, every symbol it wrote
    lies in a range of the pack alphabet, and it wrote the two header
    symbols and [ceil(bit_depth * codeCount / packCapacity)] payload
    symbols. *)
Theorem encode_output_alphabet (IODict PackDict : piecewise_range) (s : Z)
    (first packed : list Z) :
  wf_dict IODict = true -> wf_dict PackDict = true ->
  encodable IODict (s :: first) ->
  encode IODict PackDict (s :: first) = (packed, Ok tt) ->
  Forall (fun c => covers PackDict c = true) packed /\
  exists codes bit_depth cap,
    encode_codes IODict s first = Ok (codes, bit_depth) /\
    bit_capacity PackDict = Ok cap /\
    vsize packed = 2 + (bit_depth * vsize codes + cap - 1) / cap.
Proof.
  intros Hio Hpack Henc Hrun.
  destruct (encode_pass IODict s first Hio Henc)
    as (codes & bd & Hcodes & _ & Hbd & Hne & Hlt & Hsize & _ & _).
  rewrite (encode_unfold IODict PackDict s first codes bd Hcodes) in Hrun.
  unfold size_bits in Hrun. destruct (Z.ltb_spec 64 bd); [lia|].
  destruct (Z.leb_spec (dict_length PackDict) bd) as [|Hidx]; [done|].
  pose proof (bit_capacity_total _ Hpack) as Hcap.
  set (cap := Z.log2 (dict_length PackDict)) in *.
  destruct (bit_capacity_bounds PackDict Hpack cap Hcap) as [Hc Hpow].
  assert (Hcap1 : 1 <= cap).
  { subst cap. apply Z.log2_le_pow2; [lia|]. cbn. lia. }
  assert (Hnonneg : Forall (fun c => 0 <= c) codes).
  { eapply Forall_impl; [exact Hlt|]. cbn. lia. }
  destruct (pack_bits_spec PackDict Hpack cap Hcap codes bd Hcap1 Hbd Hidx Hne Hsize
              Hnonneg) as (D & dead & Hout & HD & Hdead & Hlen & _).
  rewrite Hout in Hrun. injection Hrun as <-.
  pose proof (Z.pow_gt_lin_r 2 cap ltac:(lia) ltac:(lia)) as Hcaplt.
  assert (Hsym : forall i, 0 <= i < dict_length PackDict ->
                 covers PackDict (symbol_at PackDict i) = true).
  { intros i Hi. apply covers_member. exists i. by apply symbol_at_ok. }
  split.
  - constructor; [apply Hsym; lia|]. constructor; [apply Hsym; lia|].
    apply Forall_fmap. eapply Forall_impl; [exact HD|]. intros d Hd. cbn in *.
    apply Hsym. lia.
  - exists codes, bd, cap. split; [done|]. split; [done|].
    unfold vsize in *. cbn [length]. rewrite length_map.
    assert (Z.of_nat (length D) = (bd * Z.of_nat (length codes) + cap - 1) / cap) as <-.
    { apply (Z.div_unique _ _ _ (cap - 1 - dead)); lia. }
    lia.
Qed.

Lemma encode_output_alphabet_witness :
  Forall (fun c => covers dictionaries.URI_pack c = true) [55; 51; 49; 50] /\
  exists codes bit_depth cap,
    encode_codes dictionaries.ASCII_128_common 65 [] = Ok (codes, bit_depth) /\
    bit_capacity dictionaries.URI_pack = Ok cap /\
    vsize [55; 51; 49; 50] = 2 + (bit_depth * vsize codes + cap - 1) / cap.
Proof.
  apply (encode_output_alphabet dictionaries.ASCII_128_common dictionaries.URI_pack 65 []).
  - reflexivity.
  - reflexivity.
  - split; [repeat constructor; exists 65; reflexivity|vm_compute; reflexivity].
  - vm_compute. reflexivity.
Defined.

(** X13: [encode] returns on every encodable, non-empty input for which
    [baseSize + size <= 2^(PackDict::length - 1)]: the bit depth of the
    codes is then an index of the pack dictionary. *)
Theorem encode_returns_with_room (IODict PackDict : piecewise_range) (s : Z)
    (first : list Z) :
  wf_dict IODict = true -> wf_dict PackDict = true ->
  encodable IODict (s :: first) ->
  dict_length IODict + vsize (s :: first) <= 2 ^ (dict_length PackDict - 1) ->
  exists packed, encode IODict PackDict (s :: first) = (packed, Ok tt).
Proof. apply encode_returns. Qed.

Lemma encode_returns_with_room_witness :
  exists packed,
    encode (PR_one (SymbolRange 48 49)) (PR_one (SymbolRange 48 50)) [48; 48] =
      (packed, Ok tt).
Proof.
  apply (encode_returns_with_room (PR_one (SymbolRange 48 49))
           (PR_one (SymbolRange 48 50)) 48 [48]).
  - reflexivity.
  - reflexivity.
  - split; [repeat constructor; exists 0; reflexivity|vm_compute; reflexivity].
  - vm_compute. discriminate.
Defined.

Lemma predefined_codecs_roundtrip_witness :
  exists packed,
    encode dictionaries.ASCII_128_common dictionaries.UTF16_pack [72; 105; 72; 105] =
      (packed, Ok tt) /\
    decode dictionaries.ASCII_128_common dictionaries.UTF16_pack packed =
      ([72; 105; 72; 105], Ok tt).
Proof.
  apply (predefined_codecs_roundtrip codecs.string_to_UTF16 [72; 105; 72; 105]).
  - unfold codecs.predefined. rewrite !elem_of_cons. tauto.
  - split; [|vm_compute; reflexivity].
    repeat (constructor; [eexists; vm_compute; reflexivity|]). constructor.
Defined.

(** ** [pack_bits] and [unpack_bits] outside their preconditions *)

Lemma digits_val_low_bits w (l : list Z) :
  0 <= w -> digits_val w ((fun c => c mod 2 ^ w) <$> l) = digits_val w l.
Proof.
  intros Hw. induction l as [|c l IH]; [done|].
  rewrite fmap_cons. cbn [digits_val].
  by rewrite IH, Z.mod_mod by (apply Z.pow_nonzero; lia).
Qed.

(** X15: [pack_bits] packs the low [bit_depth] bits of each code and drops
    the others without notice: from what it wrote, [unpack_bits] gives each
    code modulo [2^bit_depth]. *)
Theorem pack_bits_truncates PackDict (codes : codes_vec) (bit_depth : Z)
    (dst : codes_vec) :
  wf_dict PackDict = true ->
  1 <= bit_depth <= size_bits -> bit_depth < dict_length PackDict ->
  codes <> [] -> Forall (fun c => 0 <= c) codes ->
  bit_depth * vsize codes < size_mod ->
  exists packed,
    pack_bits PackDict codes bit_depth = (packed, Ok tt) /\
    unpack_bits PackDict packed dst = Ok ((fun c => c mod 2 ^ bit_depth) <$> codes).
Proof.
  intros Hwf Hbd Hidx Hne Hcodes Hsize. unfold size_bits in Hbd.
  pose proof (bit_capacity_total _ Hwf) as Hcap.
  set (cap := Z.log2 (dict_length PackDict)) in *.
  destruct (bit_capacity_bounds PackDict Hwf cap Hcap) as [Hc Hlen].
  assert (Hcap1 : 1 <= cap).
  { subst cap. apply Z.log2_le_pow2; [lia|]. cbn. lia. }
  destruct (pack_bits_spec PackDict Hwf cap Hcap codes bit_depth)
    as (D & dead & Hpack & HD & Hdead & HlenD & Hval); try done.
  eexists. split; [exact Hpack|].
  pose proof (Z.pow_gt_lin_r 2 cap ltac:(lia) ltac:(lia)) as Hcaplt.
  assert (Hn : 1 <= vsize codes) by (destruct codes; [done|unfold vsize; cbn; lia]).
  destruct D as [|d0 D]; [cbn in HlenD; nia|].
  apply Forall_cons in HD as [Hd0 HD]. cbn [map].
  rewrite (unpack_bits_spec PackDict Hwf cap Hcap _ _ _ _ bit_depth dead d0 D); try done.
  - unfold vsize at 1 2. rewrite Hval, HlenD, <- digits_val_low_bits by lia. f_equal.
    replace (vsize codes) with (vsize ((fun c => c mod 2 ^ bit_depth) <$> codes))
      by (unfold vsize; by rewrite length_fmap).
    apply (stream_codes_packed cap bit_depth dead ltac:(lia) Hdead).
    + apply Forall_fmap, Forall_true. intros c. cbn.
      apply Z.mod_pos_bound, Z.pow_pos_nonneg; lia.
    + by destruct codes.
    + unfold vsize in *. rewrite length_fmap. lia.
  - apply symbol_at_ok; [done|lia].
  - apply symbol_at_ok; [done|lia].
  - apply symbol_at_ok; [done|lia].
  - unfold indexed. apply Forall2_fmap_l, Forall_Forall2_diag.
    eapply Forall_impl; [exact HD|]. intros d Hd. cbn beta in Hd.
    apply symbol_at_ok; [done|lia].
  - unfold vsize in *. nia.
Qed.

Lemma pack_bits_truncates_witness :
  exists packed,
    pack_bits dictionaries.URI_pack [300; 5] 7 = (packed, Ok tt) /\
    unpack_bits dictionaries.URI_pack packed [] =
      Ok ((fun c => c mod 2 ^ 7) <$> [300; 5]).
Proof.
  apply (pack_bits_truncates dictionaries.URI_pack [300; 5] 7 []).
  - reflexivity.
  - unfold size_bits. lia.
  - vm_compute. reflexivity.
  - discriminate.
  - repeat constructor; lia.
  - vm_compute. reflexivity.
Defined.

(** X16: for an empty vector of codes [pack_bits] writes the two header
    symbols and nothing else, and [unpack_bits] rejects what it wrote with
    ["lzw_codec: bad data 2"]: the empty vector does not come back. *)
Theorem pack_bits_empty PackDict (bit_depth : Z) (dst : codes_vec) :
  wf_dict PackDict = true -> 2 <= dict_length PackDict ->
  0 <= bit_depth < dict_length PackDict ->
  exists s0 s1,
    pack_bits PackDict [] bit_depth = ([s0; s1], Ok tt) /\
    unpack_bits PackDict [s0; s1] dst = Throw (logic_error "lzw_codec: bad data 2").
Proof.
  intros Hwf Hlen2 Hbd.
  pose proof (bit_capacity_total _ Hwf) as Hcap.
  set (cap := Z.log2 (dict_length PackDict)) in *.
  destruct (bit_capacity_bounds PackDict Hwf cap Hcap) as [Hc Hlen].
  assert (Hcap1 : 1 <= cap).
  { subst cap. apply Z.log2_le_pow2; [lia|]. cbn. lia. }
  pose proof (Z.pow_gt_lin_r 2 cap ltac:(lia) ltac:(lia)) as Hcaplt.
  set (q := (size_mod - 1) / cap).
  assert (Hq : cap * q <= size_mod - 1 < cap * (q + 1)).
  { pose proof (Z.mul_div_le (size_mod - 1) cap ltac:(lia)).
    pose proof (Z.mul_succ_div_gt (size_mod - 1) cap ltac:(lia)). subst q. lia. }
  assert (Hmod : 64 < size_mod) by (rewrite size_mod_eq; lia).
  set (dead := cap * (q + 1) - size_mod).
  assert (Hdead : wsub (wmul (wadd q 1) cap) 0 = dead /\ 0 <= dead < cap).
  { split; [|subst dead; lia]. unfold wsub, wmul, wadd.
    rewrite Z.sub_0_r, Z.mod_mod, Z.mul_mod_idemp_l by lia.
    symmetry. apply (Z.mod_unique _ _ 1); subst dead; lia. }
  destruct Hdead as [Hdead Hdr].
  exists (symbol_at PackDict bit_depth), (symbol_at PackDict dead).
  destruct (symbol_at_ok PackDict Hwf bit_depth ltac:(lia)) as [Hs0 Hi0].
  destruct (symbol_at_ok PackDict Hwf dead ltac:(lia)) as [Hs1 Hi1].
  split.
  - unfold pack_bits. rewrite Hcap, wbind_lift_Ok. unfold vsize. cbn [length].
    replace (wmul bit_depth (Z.of_nat 0)) with 0
      by (unfold wmul; rewrite Z.mul_0_r; done).
    replace (wsub 0 1) with (size_mod - 1) by done.
    unfold udiv. destruct (Z.eqb_spec cap 0); [lia|]. rewrite wbind_lift_Ok.
    fold q. rewrite Hdead, Hs0, wbind_lift_Ok. cbn [put wbind app].
    rewrite Hs1. done.
  - unfold unpack_bits. rewrite Hcap. cbn [obind]. rewrite Hi0. cbn [obind].
    by rewrite Hi1.
Qed.

Lemma pack_bits_empty_witness :
  exists s0 s1,
    pack_bits dictionaries.URI_pack [] 7 = ([s0; s1], Ok tt) /\
    unpack_bits dictionaries.URI_pack [s0; s1] [] =
      Throw (logic_error "lzw_codec: bad data 2").
Proof.
  apply (pack_bits_empty dictionaries.URI_pack 7 []).
  - reflexivity.
  - vm_compute. discriminate.
  - vm_compute. split; [discriminate|reflexivity].
Defined.

Lemma stream_codes_bounded cap bit_depth dead_bits :
  1 <= bit_depth ->
  forall fuel v len,
  1 <= len -> 0 <= v < 2 ^ len ->
  Forall (fun c => 0 <= c < 2 ^ bit_depth)
    (stream_codes fuel cap bit_depth dead_bits v len) /\
  vsize (stream_codes fuel cap bit_depth dead_bits v len)
    <= (len + bit_depth - 1) / bit_depth.
Proof.
  intros Hbd. unfold vsize.
  assert (H2 : 0 < 2 ^ bit_depth) by (apply Z.pow_pos_nonneg; lia).
  induction fuel as [|fuel IH]; intros v len Hlen Hv; cbn [stream_codes].
  { split; [done|]. cbn. apply Z.div_pos; lia. }
  destruct (_ && _). { split; [done|]. cbn. apply Z.div_pos; lia. }
  destruct (Z.leb_spec len bit_depth) as [Hle|Hgt].
  - assert (2 ^ len <= 2 ^ bit_depth) by (apply Z.pow_le_mono_r; lia).
    split; [constructor; [lia|done]|]. cbn.
    apply Z.div_le_lower_bound; lia.
  - destruct (IH (v / 2 ^ bit_depth) (len - bit_depth)) as [Hall Hcount]; [lia| |].
    { split; [apply Z.div_pos; lia|]. apply Z.div_lt_upper_bound; [lia|].
      rewrite <- Z.pow_add_r by lia.
      replace (bit_depth + (len - bit_depth)) with len by lia. lia. }
    split; [constructor; [apply Z.mod_pos_bound; lia|done]|].
    cbn [length]. rewrite Nat2Z.inj_succ.
    replace (len + bit_depth - 1) with (1 * bit_depth + (len - bit_depth + bit_depth - 1))
      by lia.
    rewrite Z.div_add_l by lia. lia.
Qed.

(** X17: from a stream of symbols of the pack alphabet whose header gives a
    bit depth from 1 to the width of [size_t] and no more dead bits than the
    payload has bits, [unpack_bits] returns, every code it stores is below
    [2^bit_depth], and it stores at most [ceil(payloadBits / bit_depth)]
    codes. *)
Theorem unpack_bits_codes_bounded PackDict (s0 s1 s2 : Z) (R I : list Z)
    (cap bit_depth dead_bits chunk : Z) (dst : codes_vec) :
  wf_dict PackDict = true -> 2 <= dict_length PackDict ->
  bit_capacity PackDict = Ok cap ->
  index_of_symbol PackDict s0 = Ok bit_depth ->
  index_of_symbol PackDict s1 = Ok dead_bits ->
  index_of_symbol PackDict s2 = Ok chunk ->
  indexed PackDict R I ->
  1 <= bit_depth <= size_bits ->
  dead_bits <= cap * vsize (s2 :: R) ->
  exists codes,
    unpack_bits PackDict (s0 :: s1 :: s2 :: R) dst = Ok codes /\
    Forall (fun c => 0 <= c < 2 ^ bit_depth) codes /\
    vsize codes <= (cap * vsize (s2 :: R) + bit_depth - 1) / bit_depth.
Proof.
  intros Hwf Hlen Hcap H0 H1 H2 HRI Hbd Hdead. unfold size_bits in Hbd.
  assert (Hcap1 : 1 <= cap).
  { rewrite (bit_capacity_total _ Hwf) in Hcap. injection Hcap as <-.
    apply Z.log2_le_pow2; [lia|]. cbn. lia. }
  assert (Hsame : vsize (s2 :: R) = vsize (chunk :: I)).
  { unfold vsize. cbn [length]. by rewrite (Forall2_length _ _ _ HRI). }
  rewrite Hsame in *. eexists.
  split; [by apply (unpack_bits_spec PackDict Hwf cap Hcap _ _ _ _ bit_depth dead_bits
                      chunk I)|].
  apply stream_codes_bounded; [lia| |].
  - unfold vsize. cbn [length]. nia.
  - unfold vsize. apply digits_val_bounds. lia.
Qed.

Lemma unpack_bits_codes_bounded_witness :
  exists codes,
    unpack_bits dictionaries.URI_pack [55; 48; 76; 57] [] = Ok codes /\
    Forall (fun c => 0 <= c < 2 ^ 7) codes /\
    vsize codes <= (5 * vsize [76; 57] + 7 - 1) / 7.
Proof.
  apply (unpack_bits_codes_bounded dictionaries.URI_pack 55 48 76 [57] [9] 5 7 0 21 []).
  - reflexivity.
  - vm_compute. discriminate.
  - reflexivity.
  - reflexivity.
  - reflexivity.
  - reflexivity.
  - repeat constructor.
  - unfold size_bits. lia.
  - vm_compute. discriminate.
Defined.

(** ** Streams [unpack_bits] does not accept *)

Section foreign_symbols.

Variable PackDict : piecewise_range.
Hypothesis Hwf : wf_dict PackDict = true.

Variable cap : Z.
Hypothesis Hcap : bit_capacity PackDict = Ok cap.

Variables (bit_depth dead_bits bad : Z) (e : exception) (R2 : list Z).
Hypothesis Hbd : 1 <= bit_depth <= 64.
Hypothesis Hbad : index_of_symbol PackDict bad = Throw e.

(** While the symbol [bad] is unread the cycle over the bits of a code cannot
    stop early: it throws when it loads [bad], or it completes the code. *)
Lemma unpack_code_foreign fuel :
  forall R1 I1 chunk sd acc cd,
  indexed PackDict R1 I1 -> 0 <= sd < cap -> 0 <= cd <= bit_depth ->
  0 <= acc < 2 ^ cd -> bit_depth - cd <= Z.of_nat fuel ->
  unpack_code PackDict fuel cap bit_depth dead_bits (R1 ++ bad :: R2)
    chunk sd acc cd = Throw e \/
  exists R1' I1' chunk' sd' acc',
    unpack_code PackDict fuel cap bit_depth dead_bits (R1 ++ bad :: R2)
      chunk sd acc cd =
      Ok (UnpackState (R1' ++ bad :: R2) chunk' sd' false, acc', bit_depth) /\
    indexed PackDict R1' I1' /\ 0 <= sd' < cap /\
    stream_len cap sd' I1' = stream_len cap sd I1 - (bit_depth - cd).
Proof.
  induction fuel as [|fuel IH]; intros R1 I1 chunk sd acc cd HRI Hsd Hcd Hacc Hfuel.
  all: destruct (Z.eq_dec cd bit_depth) as [->|Hne]; [|try lia].
  1,2: right; exists R1, I1, chunk, sd, acc;
    (split; [(destruct fuel || idtac); cbn [unpack_code]; rewrite Z.ltb_irrefl; done|]);
    split; [done|]; split; [done|lia].
  destruct (unpack_code_step PackDict Hwf cap Hcap fuel bit_depth dead_bits
              (R1 ++ bad :: R2) chunk sd acc cd) as [Hacc1 ->]; try done; try lia.
  { intros (_ & _ & Hnil). by destruct R1. }
  set (t := Z.min (cap - sd) (bit_depth - cd)) in *.
  set (acc1 := acc + (chunk / 2 ^ sd) mod 2 ^ t * 2 ^ cd) in *.
  destruct (Z.eqb_spec (sd + t) cap) as [Heq|Hneq].
  - destruct HRI as [|s i R1' I1' Hsi HRI']; cbn [app].
    + rewrite Hbad. by left.
    + rewrite Hsi. cbn [obind].
      destruct (IH R1' I1' i 0 acc1 (cd + t) HRI' ltac:(lia) ltac:(lia) Hacc1 ltac:(lia))
        as [Hthrow|(R' & I' & chunk' & sd' & acc' & Hrun & HRI'' & Hsd' & Hlen)];
        [by left|right].
      exists R', I', chunk', sd', acc'. split; [done|]. split; [done|].
      split; [done|]. rewrite Hlen. unfold stream_len. cbn [length]. lia.
  - destruct (IH R1 I1 chunk (sd + t) acc1 (cd + t) HRI ltac:(lia) ltac:(lia) Hacc1
                ltac:(lia))
      as [Hthrow|(R' & I' & chunk' & sd' & acc' & Hrun & HRI'' & Hsd' & Hlen)];
      [by left|right].
    exists R', I', chunk', sd', acc'. split; [done|]. split; [done|].
    split; [done|]. rewrite Hlen. unfold stream_len. lia.
Qed.

Lemma unpack_codes_foreign fuel :
  forall R1 I1 chunk sd dst,
  indexed PackDict R1 I1 -> 0 <= sd < cap ->
  bit_depth + stream_len cap sd I1 <= Z.of_nat fuel ->
  unpack_codes PackDict fuel cap bit_depth dead_bits (R1 ++ bad :: R2) chunk sd dst =
    Throw e.
Proof.
  induction fuel as [|fuel IH]; intros R1 I1 chunk sd dst HRI Hsd Hfuel.
  all: assert (HL : 1 <= stream_len cap sd I1) by (unfold stream_len; nia).
  { lia. }
  cbn [unpack_codes].
  destruct (unpack_code_foreign (S fuel) R1 I1 chunk sd 0 0 HRI Hsd ltac:(lia)
              ltac:(cbn; lia) ltac:(lia))
    as [->|(R' & I' & chunk' & sd' & acc' & -> & HRI' & Hsd' & Hlen)]; [done|].
  cbn [obind u_done u_first u_chunk u_symbol_done].
  apply (IH R' I'); [done|done|lia].
Qed.

End foreign_symbols.

(** X18: when the header of a stream gives a bit depth from 1 to the width
    of [size_t] and no more dead bits than the payload has bits, and a
    symbol of the payload lies in no range of the pack alphabet,
    [unpack_bits] throws the [std::out_of_range] of [index_of_symbol],
    wherever the symbol stands, and [decode] writes nothing. *)
Theorem unpack_bits_rejects_foreign_symbol (IODict PackDict : piecewise_range)
    (s0 s1 bad : Z) (P1 I1 P2 : list Z) (cap bit_depth dead_bits : Z)
    (dst : codes_vec) :
  wf_dict PackDict = true -> 2 <= dict_length PackDict ->
  bit_capacity PackDict = Ok cap ->
  index_of_symbol PackDict s0 = Ok bit_depth ->
  index_of_symbol PackDict s1 = Ok dead_bits ->
  1 <= bit_depth <= size_bits ->
  dead_bits <= cap * vsize (P1 ++ bad :: P2) ->
  indexed PackDict P1 I1 -> covers PackDict bad = false ->
  unpack_bits PackDict (s0 :: s1 :: P1 ++ bad :: P2) dst =
    Throw (out_of_range "index_of_symbol: out of range") /\
  decode IODict PackDict (s0 :: s1 :: P1 ++ bad :: P2) =
    ([], Throw (out_of_range "index_of_symbol: out of range")).
Proof.
  intros Hwf Hlen Hcap H0 H1 Hbd Hdead HPI Hcov. unfold size_bits in Hbd.
  pose proof (index_of_symbol_foreign PackDict bad Hcov) as Hbad.
  assert (Hcap1 : 1 <= cap).
  { rewrite (bit_capacity_total _ Hwf) in Hcap. injection Hcap as <-.
    apply Z.log2_le_pow2; [lia|]. cbn. lia. }
  destruct (symbol_by_index_of_symbol PackDict s1 dead_bits Hwf H1) as [Hd0 _].
  assert (Hrun : forall dst', unpack_bits PackDict (s0 :: s1 :: P1 ++ bad :: P2) dst' =
    Throw (out_of_range "index_of_symbol: out of range")).
  { intros dst'. unfold unpack_bits. rewrite Hcap. cbn [obind]. rewrite H0. cbn [obind].
    rewrite H1. cbn [obind]. unfold udiv.
    destruct HPI as [|s2 i2 P1' I1' Hs2 HPI']; cbn [app] in *.
    - destruct (Z.eqb_spec bit_depth 0); [lia|]. cbn [obind].
      rewrite (reserve_out_length cap) by (unfold vsize in *; lia).
      cbn [obind]. by rewrite Hbad.
    - destruct (Z.eqb_spec bit_depth 0); [lia|]. cbn [obind].
      rewrite (reserve_out_length cap) by (unfold vsize in *; lia).
      cbn [obind]. rewrite Hs2. cbn [obind].
      apply (unpack_codes_foreign PackDict Hwf cap Hcap bit_depth dead_bits bad _ P2
               Hbd Hbad _ P1' I1'); [done|lia|].
      unfold unpack_fuel, stream_len, vsize. cbn [length]. rewrite length_app.
      cbn [length]. rewrite (Forall2_length _ _ _ HPI'). nia. }
  split; [apply Hrun|]. unfold decode. by rewrite Hrun.
Qed.

Lemma unpack_bits_rejects_foreign_symbol_witness :
  unpack_bits dictionaries.URI_pack (55 :: 51 :: [49; 50] ++ 33 :: [52]) [] =
    Throw (out_of_range "index_of_symbol: out of range") /\
  decode dictionaries.ASCII_128_common dictionaries.URI_pack
    (55 :: 51 :: [49; 50] ++ 33 :: [52]) =
    ([], Throw (out_of_range "index_of_symbol: out of range")).
Proof.
  apply (unpack_bits_rejects_foreign_symbol dictionaries.ASCII_128_common
           dictionaries.URI_pack 55 51 33 [49; 50] [1; 2] [52] 5 7 3 []).
  - reflexivity.
  - vm_compute. discriminate.
  - reflexivity.
  - reflexivity.
  - reflexivity.
  - unfold size_bits. lia.
  - vm_compute. discriminate.
  - repeat constructor.
  - reflexivity.
Defined.

(** X24: when the header of a stream of at least three symbols declares
    more dead bits than the payload has bits, the difference
    [payload_bits - dead_bits] wraps around and [dst.reserve(out_length + 1)]
    asks for more than a vector can hold or the free store can give:
    [unpack_bits] throws [std::length_error] or [std::bad_alloc] before it
    reads a symbol of the payload, and [decode] writes nothing.  (For
    [bit_depth == 1] and one dead bit too many the request wraps to
    [reserve(0)], which is granted.) *)
Theorem unpack_bits_dead_bits_beyond_payload (IODict PackDict : piecewise_range)
    (s0 s1 s2 : Z) (R : list Z) (cap bit_depth dead_bits : Z) (dst : codes_vec) :
  wf_dict PackDict = true -> dict_length PackDict <= 2 ^ 57 ->
  bit_capacity PackDict = Ok cap ->
  index_of_symbol PackDict s0 = Ok bit_depth ->
  index_of_symbol PackDict s1 = Ok dead_bits ->
  1 <= bit_depth <= size_bits ->
  cap * vsize (s2 :: R) < dead_bits ->
  (bit_depth = 1 -> dead_bits <> cap * vsize (s2 :: R) + 1) ->
  exists e,
    (e = length_error "vector::reserve" \/ e = bad_alloc) /\
    unpack_bits PackDict (s0 :: s1 :: s2 :: R) dst = Throw e /\
    decode IODict PackDict (s0 :: s1 :: s2 :: R) = ([], Throw e).
Proof.
  intros Hwf Hsmall Hcap H0 H1 Hbd Hdead Hone. unfold size_bits in Hbd.
  destruct (bit_capacity_bounds PackDict Hwf cap Hcap) as [Hc _].
  destruct (symbol_by_index_of_symbol PackDict s1 dead_bits Hwf H1) as [Hd _].
  set (n := vsize (s2 :: R)) in *.
  assert (Hn : 0 <= cap * n) by (subst n; unfold vsize; nia).
  assert (HM : size_mod = 18446744073709551616) by done.
  change (2 ^ 57) with 144115188075855872 in Hsmall.
  set (q := (size_mod + (cap * n - dead_bits)) / bit_depth).
  assert (Hq : wsub (wmul cap n) dead_bits / bit_depth = q).
  { unfold wmul, wsub. rewrite (Z.mod_small (cap * n)) by lia.
    replace (cap * n - dead_bits) with (size_mod + (cap * n - dead_bits) + -1 * size_mod)
      by lia.
    rewrite Z.mod_add by lia. by rewrite Z.mod_small by lia. }
  assert (Hqlo : 144115188075855872 < q).
  { assert (144115188075855873 <= q); [|lia].
    subst q. apply Z.div_le_lower_bound; lia. }
  assert (Hqhi : q + 1 < size_mod).
  { subst q. destruct (Z.eq_dec bit_depth 1) as [->|].
    - rewrite Z.div_1_r. specialize (Hone eq_refl). lia.
    - assert ((size_mod + (cap * n - dead_bits)) / bit_depth < 9223372036854775808);
        [|lia].
      apply Z.div_lt_upper_bound; lia. }
  assert (Hres : exists e, (e = length_error "vector::reserve" \/ e = bad_alloc) /\
            reserve (cap * n + 1) (wadd (wsub (wmul cap n) dead_bits / bit_depth) 1) =
              Throw e).
  { rewrite Hq, wadd_small by lia. unfold reserve.
    destruct (Z.leb_spec (q + 1) (cap * n + 1)); [lia|].
    destruct (max_size <? q + 1); eauto. }
  destruct Hres as (e & He & Hres). exists e. split; [done|].
  assert (Hrun : forall dst', unpack_bits PackDict (s0 :: s1 :: s2 :: R) dst' = Throw e).
  { intros dst'. unfold unpack_bits. rewrite Hcap. cbn [obind]. rewrite H0. cbn [obind].
    rewrite H1. cbn [obind]. unfold udiv.
    destruct (Z.eqb_spec bit_depth 0); [lia|]. cbn [obind]. fold n. by rewrite Hres. }
  split; [apply Hrun|]. unfold decode. by rewrite Hrun.
Qed.

Lemma unpack_bits_dead_bits_beyond_payload_witness :
  exists e,
    (e = length_error "vector::reserve" \/ e = bad_alloc) /\
    unpack_bits dictionaries.URI_pack (55 :: 54 :: 76 :: []) [] = Throw e /\
    decode dictionaries.ASCII_128_common dictionaries.URI_pack (55 :: 54 :: 76 :: []) =
      ([], Throw e).
Proof.
  apply (unpack_bits_dead_bits_beyond_payload dictionaries.ASCII_128_common
           dictionaries.URI_pack 55 54 76 [] 5 7 6 []).
  - reflexivity.
  - vm_compute. discriminate.
  - reflexivity.
  - reflexivity.
  - reflexivity.
  - unfold size_bits. lia.
  - vm_compute. reflexivity.
  - intros H. discriminate H.
Defined.

Lemma digits_val_congruent w (I I' : list Z) :
  Forall2 (fun i j => i mod 2 ^ w = j mod 2 ^ w) I I' ->
  digits_val w I = digits_val w I'.
Proof. induction 1 as [|i j I I' Hij _ IH]; [done|]. cbn. by rewrite Hij, IH. Qed.

(** X19: [unpack_bits] reads the low [packCapacity] bits of the index of a
    payload symbol only: two streams with the same header whose payload
    indices agree modulo [2^packCapacity] give the same codes. *)
Theorem unpack_bits_reads_low_bits PackDict (s0 s1 s2 s2' : Z)
    (R R' I I' : list Z) (cap bit_depth dead_bits chunk chunk' : Z)
    (dst : codes_vec) :
  wf_dict PackDict = true -> 2 <= dict_length PackDict ->
  bit_capacity PackDict = Ok cap ->
  index_of_symbol PackDict s0 = Ok bit_depth ->
  index_of_symbol PackDict s1 = Ok dead_bits ->
  1 <= bit_depth <= size_bits ->
  indexed PackDict (s2 :: R) (chunk :: I) ->
  indexed PackDict (s2' :: R') (chunk' :: I') ->
  Forall2 (fun i j => i mod 2 ^ cap = j mod 2 ^ cap) (chunk :: I) (chunk' :: I') ->
  unpack_bits PackDict (s0 :: s1 :: s2 :: R) dst =
    unpack_bits PackDict (s0 :: s1 :: s2' :: R') dst.
Proof.
  intros Hwf Hlen Hcap H0 H1 Hbd HRI HRI' Hlow. unfold size_bits in Hbd.
  assert (Hcap1 : 1 <= cap).
  { rewrite (bit_capacity_total _ Hwf) in Hcap. injection Hcap as <-.
    apply Z.log2_le_pow2; [lia|]. cbn. lia. }
  apply Forall2_cons in HRI as [H2 HRI]. apply Forall2_cons in HRI' as [H2' HRI'].
  rewrite (unpack_bits_run PackDict Hwf cap Hcap _ _ _ _ bit_depth dead_bits chunk I)
    by done.
  rewrite (unpack_bits_run PackDict Hwf cap Hcap _ _ _ _ bit_depth dead_bits chunk' I')
    by done.
  rewrite (digits_val_congruent _ _ _ Hlow). unfold vsize.
  by rewrite (Forall2_length _ _ _ Hlow).
Qed.

Lemma unpack_bits_reads_low_bits_witness :
  unpack_bits dictionaries.URI_pack [55; 51; 49; 50] [] =
    unpack_bits dictionaries.URI_pack [55; 51; 88; 50] [].
Proof.
  apply (unpack_bits_reads_low_bits dictionaries.URI_pack 55 51 49 88 [50] [50]
           [2] [2] 5 7 3 1 33 []).
  - reflexivity.
  - vm_compute. discriminate.
  - reflexivity.
  - reflexivity.
  - reflexivity.
  - unfold size_bits. lia.
  - repeat constructor.
  - repeat constructor.
  - repeat constructor.
Defined.

(** X20: a first header symbol of index 0 makes [unpack_bits] divide by
    zero when it computes [out_length], whatever follows the header:
    its behaviour, and that of [decode], is undefined on such a stream. *)
Theorem unpack_bits_zero_bit_depth (IODict PackDict : piecewise_range)
    (s0 s1 s2 : Z) (R : list Z) (dead_bits : Z) (dst : codes_vec) :
  static_asserts IODict PackDict = true ->
  index_of_symbol PackDict s0 = Ok 0 ->
  index_of_symbol PackDict s1 = Ok dead_bits ->
  unpack_bits PackDict (s0 :: s1 :: s2 :: R) dst = Undefined /\
  decode IODict PackDict (s0 :: s1 :: s2 :: R) = ([], Undefined).
Proof.
  intros Hasserts H0 H1.
  destruct (bit_capacity_defined IODict PackDict Hasserts) as [cap Hcap].
  assert (Hrun : forall dst', unpack_bits PackDict (s0 :: s1 :: s2 :: R) dst' = Undefined).
  { intros dst'. unfold unpack_bits. rewrite Hcap. cbn [obind]. rewrite H0. cbn [obind].
    by rewrite H1. }
  split; [apply Hrun|]. unfold decode. by rewrite Hrun.
Qed.

Lemma unpack_bits_zero_bit_depth_witness :
  unpack_bits dictionaries.URI_pack (48 :: 51 :: 49 :: [50]) [] = Undefined /\
  decode dictionaries.ASCII_128_common dictionaries.URI_pack (48 :: 51 :: 49 :: [50]) =
    ([], Undefined).
Proof.
  apply (unpack_bits_zero_bit_depth dictionaries.ASCII_128_common dictionaries.URI_pack
           48 51 49 [50] 3 []); reflexivity.
Defined.

(** ** Codes [decode] does not check *)

(** X21: a stream of three symbols whose header declares as many dead bits
    as a symbol carries holds padding only: [unpack_bits] returns no code,
    and [decode] reads [codes[0]] of the empty vector, which is undefined. *)
Theorem decode_padding_only_stream (IODict PackDict : piecewise_range)
    (s0 s1 s2 : Z) (cap bit_depth chunk : Z) (dst : codes_vec) :
  wf_dict IODict = true -> wf_dict PackDict = true -> 2 <= dict_length PackDict ->
  bit_capacity PackDict = Ok cap ->
  index_of_symbol PackDict s0 = Ok bit_depth ->
  index_of_symbol PackDict s1 = Ok cap ->
  index_of_symbol PackDict s2 = Ok chunk ->
  1 <= bit_depth <= size_bits ->
  unpack_bits PackDict [s0; s1; s2] dst = Ok [] /\
  decode IODict PackDict [s0; s1; s2] = ([], Undefined).
Proof.
  intros Hio Hwf Hlen Hcap H0 H1 H2 Hbd. unfold size_bits in Hbd.
  assert (Hcap1 : 1 <= cap).
  { rewrite (bit_capacity_total _ Hwf) in Hcap. injection Hcap as <-.
    apply Z.log2_le_pow2; [lia|]. cbn. lia. }
  assert (Hrun : forall dst', unpack_bits PackDict [s0; s1; s2] dst' = Ok []).
  { intros dst'.
    rewrite (unpack_bits_spec PackDict Hwf cap Hcap s0 s1 s2 [] bit_depth cap chunk []);
      try done; [|constructor|unfold vsize; cbn [length]; lia].
    f_equal. unfold vsize. cbn [length]. rewrite Z.mul_1_r.
    destruct (Z.to_nat cap) eqn:Hn; [lia|]. cbn [stream_codes].
    rewrite Z.eqb_refl, Z.leb_refl. done. }
  split; [apply Hrun|]. unfold decode. rewrite Hrun, wbind_lift_Ok.
  unfold decode_codes. by rewrite (decode_dict_spec IODict Hio), wbind_lift_Ok.
Qed.

Lemma decode_padding_only_stream_witness :
  unpack_bits dictionaries.URI_pack [55; 53; 76] [] = Ok [] /\
  decode dictionaries.ASCII_128_common dictionaries.URI_pack [55; 53; 76] =
    ([], Undefined).
Proof.
  apply (decode_padding_only_stream dictionaries.ASCII_128_common dictionaries.URI_pack
           55 53 76 5 7 21 []); try reflexivity.
  - vm_compute. discriminate.
  - unfold size_bits. lia.
Defined.

(** X22: [decode] looks the first code up without a check: when it is not
    an index of the base dictionary, [rdict[code]] is out of bounds, and
    the behaviour is undefined before anything is written. *)
Theorem decode_codes_first_code_unchecked (IODict : piecewise_range) (code : Z)
    (codes : codes_vec) :
  wf_dict IODict = true -> dict_length IODict <= code ->
  decode_codes IODict (code :: codes) = ([], Undefined).
Proof.
  intros Hwf Hcode. pose proof (wf_dict_length _ Hwf) as HN. unfold decode_codes.
  rewrite (decode_dict_spec IODict Hwf), wbind_lift_Ok.
  rewrite (vec_at_lookup (code :: codes) 0 code eq_refl), wbind_lift_Ok.
  unfold vec_at. rewrite lookup_ge_None_2; [done|].
  pose proof (base_rdict_length IODict Hwf) as Hlen. unfold vsize in Hlen. lia.
Qed.

Lemma decode_codes_first_code_unchecked_witness :
  decode_codes dictionaries.ASCII_128_common (128 :: [65]) = ([], Undefined).
Proof.
  apply (decode_codes_first_code_unchecked dictionaries.ASCII_128_common 128 [65]).
  - reflexivity.
  - vm_compute. discriminate.
Defined.

(** X23: after a code greater than the next code to be assigned, [decode]
    has written the previous phrase followed by its first symbol; when one
    more code follows, it looks up [rdict[old]] with that code as [old],
    out of bounds: the behaviour is undefined. *)
Theorem decode_loop_after_code_beyond_next (code code' : Z) (codes : codes_vec)
    (rdict : decode_dict_t) (old t0 : Z) (t : phrase_t) :
  rdict !! Z.to_nat old = Some (t0 :: t) ->
  vsize rdict < code ->
  decode_loop (code :: code' :: codes) rdict old = ((t0 :: t) ++ [t0], Undefined).
Proof.
  intros Hold Hcode. cbn [decode_loop].
  rewrite (vec_at_lookup _ _ _ Hold), wbind_lift_Ok.
  destruct (Z.ltb_spec code (vsize rdict)); [lia|].
  rewrite (vec_at_lookup (t0 :: t) 0 t0 eq_refl), wbind_lift_Ok.
  unfold vec_at at 1. rewrite lookup_ge_None_2.
  - cbn. by rewrite app_nil_r.
  - rewrite length_app. cbn [length]. unfold vsize in Hcode. lia.
Qed.

Lemma decode_loop_after_code_beyond_next_witness :
  decode_loop (5 :: 0 :: []) [[97]; [98]] 0 = ([97] ++ [97], Undefined).
Proof.
  apply (decode_loop_after_code_beyond_next 5 0 [] [[97]; [98]] 0 97 []).
  - reflexivity.
  - vm_compute. reflexivity.
Defined.
